(** * node-adb-wrapper: the logcat frame decoder and the line-feed corrector

    A shallow embedding of [LogcatParser] (Logcat.ts) and of
    [LineFeedTransform] (LineFeedTransform.ts), with the properties of the
    specification stated over it.

    - Bytes are [Byte.byte]; a [Buffer] is a [list byte].
    - The asynchronous decoder is a resumption: a tree whose nodes are the
      points where the decoder gives control back to the event loop
      ([await], the suspended [waitFor('readable')], [yield]).
    - The event loop is the function [drive]: it delivers the ['data'] and
      ['end'] notifications of the input stream to the decoder at those
      points, in the amounts a schedule prescribes. *)

From Stdlib Require Import String.
From Stdlib Require Import List Arith ZArith Lia Bool.

From Stdlib Require Import Init.Byte Strings.Byte.

Import ListNotations.

Set Implicit Arguments.

(* ================================================================== *)
(** ** Buffers *)

Module Buf.

(** [buf[i]]: a byte, or [undefined] past the end. *)
Definition at_ (buf : list byte) (i : nat) : option byte := nth_error buf i.

(** [buf.slice(start, end)] for indices that are not negative. *)
Definition slice (start end_ : nat) (buf : list byte) : list byte :=
  firstn (end_ - start) (skipn start buf).

(** [buf.slice(start)]. *)
Definition sliceFrom (start : nat) (buf : list byte) : list byte :=
  skipn start buf.

Definition byte_eqb (a b : byte) : bool := Byte.eqb a b.

(** [x == 0] for [x] a byte or [undefined]: [undefined == 0] is false. *)
Definition isZero (x : option byte) : bool :=
  match x with
  | Some b => byte_eqb b x00
  | None => false
  end.

Definition toZ (b : byte) : Z := Z.of_N (Byte.to_N b).

(** The byte at offset [i] as a number; the readers below are only applied
    to buffers that [read] returned, which have the requested length. *)
Definition num (buf : list byte) (i : nat) : Z := toZ (nth i buf x00).

Definition readUInt16LE (buf : list byte) : Z :=
  num buf 0 + 256 * num buf 1.

Definition readUInt32LE (buf : list byte) : Z :=
  num buf 0 + 256 * num buf 1 + 65536 * num buf 2 + 16777216 * num buf 3.

Definition readInt32LE (buf : list byte) : Z :=
  let u := readUInt32LE buf in
  if (u <? 2147483648)%Z then u else (u - 4294967296)%Z.

(** [buf.indexOf(0, from)]: the index of the first zero byte at or after
    [from], [None] for -1. *)
Fixpoint indexOfZeroAux (buf : list byte) (i : nat) : option nat :=
  match buf with
  | [] => None
  | b :: rest => if byte_eqb b x00 then Some i else indexOfZeroAux rest (S i)
  end.

Definition indexOfZero (buf : list byte) (from : nat) : option nat :=
  indexOfZeroAux (skipn from buf) from.

End Buf.

(* ================================================================== *)
(** ** Errors and log entries *)

Inductive Err : Type :=
| InsufficientBytesError
| InputStreamEndedError
| StreamDetachedError
| InvalidHeaderSize (headerSize : Z).

Definition isInsufficientBytes (e : Err) : bool :=
  match e with InsufficientBytesError => true | _ => false end.

Definition isInputStreamEnded (e : Err) : bool :=
  match e with InputStreamEndedError => true | _ => false end.

(** [LogEntry].  [id] is the optional property; [priority] is the byte found
    by the padding scan, or [undefined].  [tag] and [msg] are kept as the byte
    slices that [toString] is applied to: the UTF-8 decoding itself is not
    modelled.  It is a function of the slice, so that equal slices give equal
    strings, but it is not one-to-one (any byte that is not UTF-8 becomes
    U+FFFD): a statement about the content of a tag or a message is made for
    slices of bytes below 0x80 ([ascii]), on which the string has one
    character per byte, the character of that code.  The [time] property is a
    [Date] computed from [sec] and [nsec] alone in floating point; it is left
    out. *)
Record LogEntry : Type := mkLogEntry {
  pid : Z;
  tid : Z;
  sec : Z;
  nsec : Z;
  id : option Z;
  priority : option byte;
  tag : list byte;
  msg : list byte
}.

(* ================================================================== *)
(** ** The state of a [LogcatParser] *)

Record Parser : Type := mkParser {
  buffer : list byte;
  cursor : nat;
  bytesToRead : nat;
  ended : bool
}.

Definition bytesAvailable (s : Parser) : nat := length (buffer s) - cursor s.

Definition clearBuffer (s : Parser) : Parser :=
  mkParser [] 0 0 (ended s).

Definition rollBuffer (s : Parser) : Parser :=
  mkParser (Buf.sliceFrom (cursor s) (buffer s)) 0 (bytesToRead s) (ended s).

(** [onData]: the new state, and whether ['readable'] was notified. *)
Definition onData (data : list byte) (s : Parser) : Parser * bool :=
  let s1 := mkParser (buffer s ++ data) (cursor s) (bytesToRead s) (ended s) in
  if bytesToRead s1 <=? bytesAvailable s1
  then (mkParser (buffer s1) (cursor s1) 0 (ended s1), true)
  else (s1, false).

(** [onEnd]: the flag is set; the waiter of ['readable'], if any, is aborted
    with [InputStreamEndedError] (see [wake]). *)
Definition onEnd (s : Parser) : Parser :=
  mkParser (buffer s) (cursor s) (bytesToRead s) true.

(** [_read]. *)
Definition _read (size : nat) (s : Parser) : list byte * Parser :=
  let end_ := cursor s + size in
  (Buf.slice (cursor s) end_ (buffer s),
   mkParser (buffer s) end_ (bytesToRead s) (ended s)).

(* ================================================================== *)
(** ** Resumptions *)

(** How a read suspended in [eventBarrier.waitFor('readable')] is woken:
    by [notify], or by [abort] with an error. *)
Inductive Wake : Type :=
| Notified
| Aborted (e : Err).

(** What a piece of decoder code does when run from a state: it returns,
    throws, or stops at a point where the event loop runs other callbacks
    before the code goes on.
    - [Pause]: an [await] whose promise is already settled;
    - [Await]: suspended in [waitFor('readable')] until woken;
    - [Yield]: the generator has produced an entry and waits for [next()];
    - [Diverge]: the fuel of a loop of the model ran out. *)
Inductive Res (A : Type) : Type :=
| Ret (a : A) (s : Parser)
| Raise (e : Err) (s : Parser)
| Pause (s : Parser) (k : Parser -> Res A)
| Await (s : Parser) (k : Wake -> Parser -> Res A)
| Yield (entry : LogEntry) (s : Parser) (k : Parser -> Res A)
| Diverge.

Arguments Raise {A} e s.

Arguments Diverge {A}.

Definition M (A : Type) : Type := Parser -> Res A.

Fixpoint bindRes {A B : Type} (r : Res A) (f : A -> M B) : Res B :=
  match r with
  | Ret a s => f a s
  | Raise e s => Raise e s
  | Pause s k => Pause s (fun s' => bindRes (k s') f)
  | Await s k => Await s (fun w s' => bindRes (k w s') f)
  | Yield entry s k => Yield entry s (fun s' => bindRes (k s') f)
  | Diverge => Diverge
  end.

(** [try { r } catch(err) { h err }]. *)
Fixpoint catchRes {A : Type} (r : Res A) (h : Err -> M A) : Res A :=
  match r with
  | Ret a s => Ret a s
  | Raise e s => h e s
  | Pause s k => Pause s (fun s' => catchRes (k s') h)
  | Await s k => Await s (fun w s' => catchRes (k w s') h)
  | Yield entry s k => Yield entry s (fun s' => catchRes (k s') h)
  | Diverge => Diverge
  end.

(** [await p] for the promise [p] of an async call: when the call has
    settled, the caller goes on in a later turn of the event loop. *)
Fixpoint awaitRes {A : Type} (r : Res A) : Res A :=
  match r with
  | Ret a s => Pause s (fun s' => Ret a s')
  | Raise e s => Pause s (fun s' => Raise e s')
  | Pause s k => Pause s (fun s' => awaitRes (k s'))
  | Await s k => Await s (fun w s' => awaitRes (k w s'))
  | Yield entry s k => Yield entry s (fun s' => awaitRes (k s'))
  | Diverge => Diverge
  end.

Definition ret {A : Type} (a : A) : M A := fun s => Ret a s.

Definition raise {A : Type} (e : Err) : M A := fun s => Raise e s.

Definition bind {A B : Type} (m : M A) (f : A -> M B) : M B :=
  fun s => bindRes (m s) f.

Definition tryCatch {A : Type} (m : M A) (h : Err -> M A) : M A :=
  fun s => catchRes (m s) h.

Definition await {A : Type} (m : M A) : M A := fun s => awaitRes (m s).

Definition yield (entry : LogEntry) : M unit :=
  fun s => Yield entry s (fun s' => Ret tt s').

Definition get : M Parser := fun s => Ret s s.

Definition modify (f : Parser -> Parser) : M unit := fun s => Ret tt (f s).

Declare Scope parser_scope.

Delimit Scope parser_scope with parser.

Notation "x <- m ;; k" := (bind m (fun x => k))
  (at level 61, m at next level, right associativity) : parser_scope.

Notation "m ;;; k" := (bind m (fun _ => k))
  (at level 61, right associativity) : parser_scope.

Open Scope parser_scope.

(* ================================================================== *)
(** ** [read] and the integer readers *)

(** [read(size)]. *)
Definition read (size : nat) : M (list byte) :=
  fun s =>
    if bytesAvailable s <? size then
      if ended s then Raise InsufficientBytesError s
      else
        Await (mkParser (buffer s) (cursor s) size (ended s))
          (fun w s' =>
             match w with
             | Notified => let (data, s'') := _read size s' in Ret data s''
             | Aborted err =>
                 if isInputStreamEnded err
                 then Raise InsufficientBytesError s'
                 else Raise err s'
             end)
    else let (data, s') := _read size s in Ret data s'.

Definition readUInt16 : M Z :=
  b <- await (read 2) ;; ret (Buf.readUInt16LE b).

Definition readUInt32 : M Z :=
  b <- await (read 4) ;; ret (Buf.readUInt32LE b).

Definition readInt32 : M Z :=
  b <- await (read 4) ;; ret (Buf.readInt32LE b).

(* ================================================================== *)
(** ** [asIterator] *)

Inductive Flow : Type := Continue | Break.

(** [payload[payload.length - 1]]. *)
Definition lastByte (payload : list byte) : option byte :=
  match length payload with
  | O => None
  | S n => Buf.at_ payload n
  end.

(** Lines 456-472: the entry built from the header fields and the payload
    once the priority byte has been located.  [id] is set by [if(id)]. *)
Definition makeEntry (pid tid sec nsec : Z) (id : option Z)
    (priority : option byte) (payload : list byte) (priorityIndex : nat)
    : LogEntry :=
  let separatorIndex :=
    match Buf.indexOfZero payload priorityIndex with
    | Some i => i
    | None => length payload
    end in
  let tag := Buf.slice priorityIndex separatorIndex payload in
  let msg :=
    Buf.slice (separatorIndex + 1)
      (if Buf.isZero (lastByte payload)
       then length payload - 1 else length payload)
      payload in
  mkLogEntry pid tid sec nsec
    (match id with
     | Some i => if (i =? 0)%Z then None else Some i
     | None => None
     end)
    priority tag msg.

(** Lines 444-450: [while(priority == 0) { ... }]. *)
Fixpoint scanPadding (fuel : nat) (len : nat) (payload : list byte)
    (priorityIndex : nat) (priority : option byte)
    : M (list byte * nat * option byte) :=
  if Buf.isZero priority then
    match fuel with
    | O => fun _ => Diverge
    | S fuel' =>
        let priority := Buf.at_ payload priorityIndex in
        let priorityIndex := S priorityIndex in
        if len <=? priorityIndex then
          more <- await (read len) ;;
          scanPadding fuel' len (payload ++ more) priorityIndex priority
        else scanPadding fuel' len payload priorityIndex priority
    end
  else ret (payload, priorityIndex, priority).

(** Lines 391-474: the body of the [while] loop; [Break] for [break]. *)
Definition iteration (tryRecover : bool) (fuel : nat) : M Flow :=
  olen <- tryCatch (len <- await readUInt16 ;; ret (Some len))
            (fun err =>
               s <- get ;;
               if isInsufficientBytes err && (bytesAvailable s =? 0)
               then ret None else raise err) ;;
  match olen with
  | None => ret Break
  | Some lenZ =>
      let len := Z.to_nat lenZ in
      headerSize <- await readUInt16 ;;
      if negb (headerSize =? 24)%Z && negb (headerSize =? 0)%Z then
        if tryRecover then modify clearBuffer ;;; ret Break
        else raise (InvalidHeaderSize headerSize)
      else
        pid <- await readInt32 ;;
        tid <- await readInt32 ;;
        sec <- await readInt32 ;;
        nsec <- await readInt32 ;;
        id <- (if (headerSize =? 24)%Z
               then i <- await readUInt32 ;; ret (Some i)
               else ret None) ;;
        payload <- await (read len) ;;
        scanned <- scanPadding fuel len payload 1 (Buf.at_ payload 0) ;;
        let '(payload, priorityIndex, priority) := scanned in
        payload <- (if 1 <? priorityIndex
                    then more <- await (read (priorityIndex - 1)) ;;
                         ret (payload ++ more)
                    else ret payload) ;;
        modify rollBuffer ;;;
        yield (makeEntry pid tid sec nsec id priority payload priorityIndex) ;;;
        ret Continue
  end.

(** Line 390: [while(!this.end || this.bytesAvailable)]. *)
Fixpoint whileLoop (tryRecover : bool) (fuel : nat) : M unit :=
  match fuel with
  | O => fun _ => Diverge
  | S fuel' =>
      fun s =>
        if negb (ended s) || negb (bytesAvailable s =? 0) then
          (flow <- iteration tryRecover fuel' ;;
           match flow with
           | Break => ret tt
           | Continue => whileLoop tryRecover fuel'
           end) s
        else Ret tt s
  end.

(** [asIterator(noError, tryRecover)].  Listeners of ['entry'] receive the
    entries that are yielded. *)
Definition asIterator (noError tryRecover : bool) (fuel : nat) : M unit :=
  tryCatch (whileLoop tryRecover fuel)
    (fun err => if noError then ret tt else raise err) ;;;
  modify clearBuffer.

(* ================================================================== *)
(** ** The event loop *)

(** The notifications of the input stream. *)
Inductive Event : Type :=
| Data (chunk : list byte)
| End_.

(** A notification that arrives while no read waits for ['readable']. *)
Definition deliver1 (e : Event) (s : Parser) : Parser :=
  match e with
  | Data chunk => fst (onData chunk s)
  | End_ => onEnd s
  end.

(** Up to [n] pending notifications are delivered. *)
Fixpoint deliver (n : nat) (s : Parser) (evs : list Event)
    : Parser * list Event :=
  match n, evs with
  | S n', e :: evs' => deliver n' (deliver1 e s) evs'
  | _, _ => (s, evs)
  end.

(** Modelled from the spec: [EventBarrier] (unlib.js), of which
    [waitFor], [notify] and [abort] are used.  [notify] wakes the waiter of
    the event, [abort] fails it with the error given, and neither has an
    effect when nothing waits.
    Notifications are delivered to a read that waits for ['readable'] until
    one wakes it: a chunk that makes [bytesToRead] bytes available notifies,
    the end of the stream aborts.  [None]: the stream falls silent and the
    read waits for ever. *)
Fixpoint wake (s : Parser) (evs : list Event)
    : option (Wake * Parser * list Event) :=
  match evs with
  | [] => None
  | Data chunk :: evs' =>
      let (s', notified) := onData chunk s in
      if notified then Some (Notified, s', evs') else wake s' evs'
  | End_ :: evs' => Some (Aborted InputStreamEndedError, onEnd s, evs')
  end.

Inductive Result (A : Type) : Type :=
| Returned (a : A) (s : Parser) (sched : list nat) (evs : list Event)
| Threw (e : Err) (s : Parser) (sched : list nat) (evs : list Event)
| Hung
| OutOfFuel.

Arguments Threw {A} e s sched evs.

Arguments Hung {A}.

Arguments OutOfFuel {A}.

(** The entries yielded, in order, and how the run ended. *)
Definition Outcome (A : Type) : Type := (list LogEntry * Result A)%type.

Definition emit {A : Type} (entry : LogEntry) (o : Outcome A) : Outcome A :=
  (entry :: fst o, snd o).

(** [drive r sched evs] runs [r] to its end.  At every point where the
    decoder gives control back, the next number of the schedule says how many
    of the pending notifications [evs] arrive before it goes on (none when
    the schedule is used up); a suspended read is first woken by [wake]. *)
Fixpoint drive {A : Type} (r : Res A) (sched : list nat) (evs : list Event)
    : Outcome A :=
  match r with
  | Ret a s => ([], Returned a s sched evs)
  | Raise e s => ([], Threw e s sched evs)
  | Pause s k =>
      let (s', evs') := deliver (hd 0 sched) s evs in
      drive (k s') (tl sched) evs'
  | Await s k =>
      match wake s evs with
      | Some (w, s1, evs1) =>
          let (s', evs') := deliver (hd 0 sched) s1 evs1 in
          drive (k w s') (tl sched) evs'
      | None => ([], Hung)
      end
  | Yield entry s k =>
      let (s', evs') := deliver (hd 0 sched) s evs in
      emit entry (drive (k s') (tl sched) evs')
  | Diverge => ([], OutOfFuel)
  end.

(** A freshly attached parser ([attachStream]: buffer cleared, [end] false). *)
Definition attached : Parser := mkParser [] 0 0 false.

(** The input stream delivers its chunks in order and then ends. *)
Definition stream (chunks : list (list byte)) : list Event :=
  map Data chunks ++ [End_].

(** What the consumer of the iterator observes. *)
Inductive Ending : Type :=
| Clean
| Error (e : Err)
| NoEnding.

Definition ending {A : Type} (r : Result A) : Ending :=
  match r with
  | Returned _ _ _ _ => Clean
  | Threw e _ _ _ => Error e
  | Hung => NoEnding
  | OutOfFuel => NoEnding
  end.

Definition finalState {A : Type} (r : Result A) : option Parser :=
  match r with
  | Returned _ s _ _ => Some s
  | Threw _ s _ _ => Some s
  | Hung => None
  | OutOfFuel => None
  end.

(** Iterating [asIterator] on a freshly attached parser whose input delivers
    [chunks] and ends.  The first number of the schedule says how many
    notifications arrive before the consumer asks for the first entry. *)
Definition iterate (noError tryRecover : bool) (fuel : nat)
    (sched : list nat) (chunks : list (list byte)) : Outcome unit :=
  let (s0, evs0) := deliver (hd 0 sched) attached (stream chunks) in
  drive (asIterator noError tryRecover fuel s0) (tl sched) evs0.

(** The same run of the [try] block of [asIterator] alone: the decoding
    loop, before the [catch] and the final [clearBuffer]. *)
Definition iterateLoop (tryRecover : bool) (fuel : nat)
    (sched : list nat) (chunks : list (list byte)) : Outcome unit :=
  let (s0, evs0) := deliver (hd 0 sched) attached (stream chunks) in
  drive (whileLoop tryRecover fuel s0) (tl sched) evs0.

(* ================================================================== *)
(** ** The event loop and the composition of resumptions *)

(** Sequencing of outcomes: the second run starts where the first returned. *)
Definition andThen {A B : Type} (o : Outcome A)
    (f : A -> Parser -> list nat -> list Event -> Outcome B) : Outcome B :=
  match snd o with
  | Returned a s sched evs =>
      (fst o ++ fst (f a s sched evs), snd (f a s sched evs))
  | Threw e s sched evs => (fst o, Threw e s sched evs)
  | Hung => (fst o, Hung)
  | OutOfFuel => (fst o, OutOfFuel)
  end.

Definition orElse {A : Type} (o : Outcome A)
    (h : Err -> Parser -> list nat -> list Event -> Outcome A) : Outcome A :=
  match snd o with
  | Threw e s sched evs =>
      (fst o ++ fst (h e s sched evs), snd (h e s sched evs))
  | _ => o
  end.

Definition settled {A : Type} (o : Outcome A) : Outcome A :=
  match snd o with
  | Returned a s sched evs =>
      let (s', evs') := deliver (hd 0 sched) s evs in
      (fst o, Returned a s' (tl sched) evs')
  | Threw e s sched evs =>
      let (s', evs') := deliver (hd 0 sched) s evs in
      (fst o, Threw e s' (tl sched) evs')
  | _ => o
  end.

(* ================================================================== *)
(** ** The unread bytes of the stream *)

(** The bytes of the notifications still to come. *)
Fixpoint pendingData (evs : list Event) : list byte :=
  match evs with
  | [] => []
  | Data chunk :: evs' => chunk ++ pendingData evs'
  | End_ :: evs' => pendingData evs'
  end.

(** [unread s evs rem]: the parser [s] with the pending notifications [evs]
    has exactly the bytes [rem] left to decode: those buffered after the
    cursor, then those still to arrive; the cursor is inside the buffer, and
    the notifications are the rest of a stream that ends once. *)
Definition unread (s : Parser) (evs : list Event) (rem : list byte) : Prop :=
  cursor s <= length (buffer s) /\
  skipn (cursor s) (buffer s) ++ pendingData evs = rem /\
  (if ended s then evs = [] else exists chunks, evs = stream chunks).

(* ================================================================== *)
(** ** The loop read against the unread bytes of the stream

    [stepStream] and [whileStream] follow [iteration] and [whileLoop] line by
    line, with every [await this.read(n)] replaced by taking [n] bytes off the
    front of the bytes the stream has left.  They are what the decoder
    computes when every byte is at hand; [iteration_stream] and
    [whileLoop_stream] below prove that the asynchronous decoder computes the
    same thing whatever the chunking and the schedule. *)

Definition takeBytes (n : nat) (rem : list byte)
    : option (list byte * list byte) :=
  if n <=? length rem then Some (firstn n rem, skipn n rem) else None.

Inductive Step : Type :=
| Entry (entry : LogEntry) (rest : list byte)
| Stop
| Recovered
| Fails (e : Err)
| NoFuel.

Definition withBytes (n : nat) (rem : list byte)
    (k : list byte -> list byte -> Step) : Step :=
  match takeBytes n rem with
  | Some (b, rest) => k b rest
  | None => Fails InsufficientBytesError
  end.

Fixpoint scanStream (fuel : nat) (len : nat) (payload : list byte)
    (priorityIndex : nat) (priority : option byte) (rem : list byte)
    (k : list byte -> nat -> option byte -> list byte -> Step) : Step :=
  if Buf.isZero priority then
    match fuel with
    | O => NoFuel
    | S fuel' =>
        let priority := Buf.at_ payload priorityIndex in
        let priorityIndex := S priorityIndex in
        if len <=? priorityIndex then
          withBytes len rem (fun more rest =>
            scanStream fuel' len (payload ++ more) priorityIndex priority rest k)
        else scanStream fuel' len payload priorityIndex priority rem k
    end
  else k payload priorityIndex priority rem.

Definition stepStream (tryRecover : bool) (fuel : nat) (rem : list byte)
    : Step :=
  match takeBytes 2 rem with
  | None => if length rem =? 0 then Stop else Fails InsufficientBytesError
  | Some (b, rem) =>
      let len := Z.to_nat (Buf.readUInt16LE b) in
      withBytes 2 rem (fun b rem =>
      let headerSize := Buf.readUInt16LE b in
      if negb (headerSize =? 24)%Z && negb (headerSize =? 0)%Z then
        if tryRecover then Recovered else Fails (InvalidHeaderSize headerSize)
      else
        withBytes 4 rem (fun b rem => let pid := Buf.readInt32LE b in
        withBytes 4 rem (fun b rem => let tid := Buf.readInt32LE b in
        withBytes 4 rem (fun b rem => let sec := Buf.readInt32LE b in
        withBytes 4 rem (fun b rem => let nsec := Buf.readInt32LE b in
        let afterId id rem :=
          withBytes len rem (fun payload rem =>
          scanStream fuel len payload 1 (Buf.at_ payload 0) rem
            (fun payload priorityIndex priority rem =>
               let finish payload rem :=
                 Entry (makeEntry pid tid sec nsec id priority payload
                          priorityIndex) rem in
               if 1 <? priorityIndex
               then withBytes (priorityIndex - 1) rem (fun more rem =>
                      finish (payload ++ more) rem)
               else finish payload rem)) in
        if (headerSize =? 24)%Z
        then withBytes 4 rem (fun b rem => afterId (Some (Buf.readUInt32LE b)) rem)
        else afterId None rem)))))
  end.

Inductive StreamEnd : Type :=
| Finished
| GaveUp
| Failed (e : Err)
| Starved.

Fixpoint whileStream (tryRecover : bool) (fuel : nat) (rem : list byte)
    : list LogEntry * StreamEnd :=
  match fuel with
  | O => ([], Starved)
  | S fuel' =>
      match stepStream tryRecover fuel' rem with
      | Entry entry rest =>
          let r := whileStream tryRecover fuel' rest in (entry :: fst r, snd r)
      | Stop => ([], Finished)
      | Recovered => ([], GaveUp)
      | Fails e => ([], Failed e)
      | NoFuel => ([], Starved)
      end
  end.

(** What the consumer observes of [asIterator] on a stream. *)
Definition endingOf (noError : bool) (e : StreamEnd) : Ending :=
  match e with
  | Finished => Clean
  | GaveUp => Clean
  | Failed err => if noError then Clean else Error err
  | Starved => NoEnding
  end.

Definition decodeStream (noError tryRecover : bool) (fuel : nat)
    (rem : list byte) : list LogEntry * Ending :=
  let r := whileStream tryRecover fuel rem in
  (fst r, endingOf noError (snd r)).

(** The integer readers: [async readX() { return (await this.read(n)).readXLE(0) }],
    awaited by the caller. *)
Definition reader {A : Type} (n : nat) (f : list byte -> A) : M A :=
  b <- await (read n) ;; ret (f b).

(** How a run of [iteration] matches a step of the stream reading. *)
Definition stepOutcome (o : Outcome Flow) (st : Step) : Prop :=
  match st with
  | Entry entry rest =>
      exists s' sched' evs',
        o = ([entry], Returned Continue s' sched' evs') /\
        unread s' evs' rest /\ cursor s' = 0
  | Stop =>
      exists s' sched',
        o = ([], Returned Break s' sched' []) /\
        unread s' [] [] /\ ended s' = true
  | Recovered =>
      exists s' sched' evs',
        o = ([], Returned Break s' sched' evs') /\
        buffer s' = [] /\ cursor s' = 0 /\ bytesToRead s' = 0
  | Fails e =>
      exists s' sched' evs', o = ([], Threw e s' sched' evs')
  | NoFuel => o = ([], OutOfFuel)
  end.

(** The same for the part of [iteration] that starts at the padding scan. *)
Definition tailOutcome (o : Outcome Flow) (st : Step) : Prop :=
  match st with
  | Entry _ _ | Fails _ | NoFuel => stepOutcome o st
  | Stop | Recovered => False
  end.

(** Lines 451-474, after the padding scan. *)
Definition afterScan (pid tid sec nsec : Z) (id : option Z)
    (sc : list byte * nat * option byte) : M Flow :=
  let '(payload, priorityIndex, priority) := sc in
  payload <- (if 1 <? priorityIndex
              then more <- await (read (priorityIndex - 1)) ;;
                   ret (payload ++ more)
              else ret payload) ;;
  modify rollBuffer ;;;
  yield (makeEntry pid tid sec nsec id priority payload priorityIndex) ;;;
  ret Continue.

Definition afterScanStream (pid tid sec nsec : Z) (id : option Z)
    (payload : list byte) (priorityIndex : nat) (priority : option byte)
    (rem : list byte) : Step :=
  let finish payload rem :=
    Entry (makeEntry pid tid sec nsec id priority payload priorityIndex) rem in
  if 1 <? priorityIndex
  then withBytes (priorityIndex - 1) rem (fun more rem =>
         finish (payload ++ more) rem)
  else finish payload rem.

(** How a run of [whileLoop] matches the stream reading. *)
Definition loopOutcome (o : Outcome unit) (r : list LogEntry * StreamEnd)
    : Prop :=
  fst o = fst r /\
  match snd r with
  | Finished =>
      exists s' sched' evs', snd o = Returned tt s' sched' evs' /\ unread s' evs' []
  | GaveUp =>
      exists s' sched' evs',
        snd o = Returned tt s' sched' evs' /\
        buffer s' = [] /\ cursor s' = 0 /\ bytesToRead s' = 0
  | Failed e => exists s' sched' evs', snd o = Threw e s' sched' evs'
  | Starved => snd o = OutOfFuel
  end.

Definition cleared (s : Parser) : Prop :=
  buffer s = [] /\ cursor s = 0 /\ bytesToRead s = 0.

(* ================================================================== *)
(** ** Frames

    A frame as it lies in the stream: the payload length and the header size
    (2 bytes each), pid, tid, seconds and nanoseconds (4 bytes each), the id
    (4 bytes when the header size is 24, none when it is 0), then the payload,
    possibly after some zero bytes of padding. *)

Record Frame : Type := mkFrame {
  fLen : list byte;
  fHeaderSize : list byte;
  fPid : list byte;
  fTid : list byte;
  fSec : list byte;
  fNsec : list byte;
  fId : list byte;
  fPad : nat;
  fPayload : list byte
}.

Definition headerBytes (f : Frame) : list byte :=
  fLen f ++ fHeaderSize f ++ fPid f ++ fTid f ++ fSec f ++ fNsec f ++ fId f.

Definition frameBytes (f : Frame) : list byte :=
  headerBytes f ++ repeat x00 (fPad f) ++ fPayload f.

Definition framesBytes (frames : list Frame) : list byte :=
  concat (map frameBytes frames).

(** Well-formed: the fields have their sizes, the length field is the length
    of the payload, the header size is 0 (no id) or 24 (id), the payload does
    not start with a zero byte, and the padding, if any, is shorter than the
    payload by two bytes at least. *)
Definition wellFormedb (f : Frame) : bool :=
  (length (fLen f) =? 2) && (length (fHeaderSize f) =? 2) &&
  (length (fPid f) =? 4) && (length (fTid f) =? 4) &&
  (length (fSec f) =? 4) && (length (fNsec f) =? 4) &&
  (Buf.readUInt16LE (fLen f) =? Z.of_nat (length (fPayload f)))%Z &&
  (((Buf.readUInt16LE (fHeaderSize f) =? 0)%Z && (length (fId f) =? 0)) ||
   ((Buf.readUInt16LE (fHeaderSize f) =? 24)%Z && (length (fId f) =? 4))) &&
  negb (Buf.isZero (Buf.at_ (fPayload f) 0)) &&
  ((fPad f =? 0) || (fPad f + 1 <? length (fPayload f))).

Definition wellFormed (f : Frame) : Prop := wellFormedb f = true.

(** The id that follows the nanoseconds, when the header has one. *)
Definition frameId (f : Frame) : option Z :=
  if (Buf.readUInt16LE (fHeaderSize f) =? 24)%Z
  then Some (Buf.readUInt32LE (fId f)) else None.

(** The entry of a well-formed frame. *)
Definition entryOf (f : Frame) : LogEntry :=
  makeEntry (Buf.readInt32LE (fPid f)) (Buf.readInt32LE (fTid f))
    (Buf.readInt32LE (fSec f)) (Buf.readInt32LE (fNsec f))
    (frameId f) (Buf.at_ (fPayload f) 0)
    (repeat x00 (fPad f) ++ fPayload f) (S (fPad f)).

(** Two frames used as examples: the payload [04 "test" 00] after a header of
    size 0, and a frame with a header of size 24, an id, and two bytes of
    padding before the payload [06 "A" 00 "B" 00]. *)
Definition frameTest : Frame :=
  mkFrame [x06; x00] [x00; x00]
    [x01; x00; x00; x00] [x02; x00; x00; x00]
    [x03; x00; x00; x00] [x04; x00; x00; x00]
    [] 0 [x04; x74; x65; x73; x74; x00].

Definition framePadded : Frame :=
  mkFrame [x05; x00] [x18; x00]
    [x01; x00; x00; x00] [x02; x00; x00; x00]
    [x03; x00; x00; x00] [x04; x00; x00; x00]
    [x07; x00; x00; x00] 2 [x06; x41; x00; x42; x00].

(** The bytes of a list cut at the given offsets. *)
Fixpoint cutAt (sizes : list nat) (bytes : list byte) : list (list byte) :=
  match sizes with
  | [] => [bytes]
  | n :: sizes' => firstn n bytes :: cutAt sizes' (skipn n bytes)
  end.

(** A frame whose payload length is 0. *)
Definition frameEmpty : Frame :=
  mkFrame [x00; x00] [x00; x00]
    [x01; x00; x00; x00] [x02; x00; x00; x00]
    [x03; x00; x00; x00] [x04; x00; x00; x00]
    [] 0 [].

(** A frame with a header of size 24 whose id field is 0 (the uid of root,
    or the main log). *)
Definition frameIdZero : Frame :=
  mkFrame [x06; x00] [x18; x00]
    [x01; x00; x00; x00] [x02; x00; x00; x00]
    [x03; x00; x00; x00] [x04; x00; x00; x00]
    [x00; x00; x00; x00] 0 [x04; x74; x65; x73; x74; x00].

(** The payload [04 00] (priority 4, empty tag, empty message) of length 2,
    after [pad] zero bytes. *)
Definition frameShort (pad : nat) : Frame :=
  mkFrame [x02; x00] [x00; x00]
    [x01; x00; x00; x00] [x02; x00; x00; x00]
    [x03; x00; x00; x00] [x04; x00; x00; x00]
    [] pad [x04; x00].

(* ================================================================== *)
(** ** The discipline of the buffer *)

(** The cursor is inside the buffer. *)
Definition bounded (s : Parser) : Prop := cursor s <= length (buffer s).

(** What notifications of the input can do to a parser between two steps of
    the decoder: bytes are appended, the cursor stays. *)
Definition arrives (s s' : Parser) : Prop :=
  cursor s' = cursor s /\ exists data, buffer s' = buffer s ++ data.

(** [keeps s0 s]: nothing that was in the buffer at [s0] has been discarded
    or moved, the cursor has not gone back, and it is inside the buffer. *)
Definition keeps (s0 s : Parser) : Prop :=
  (exists data, buffer s = buffer s0 ++ data) /\
  cursor s0 <= cursor s /\ bounded s.

(** [midFrame s0 r]: at every point of [r], whatever has arrived meanwhile,
    the parser keeps the buffer of [s0].  A read woken by [notify] finds the
    bytes it asked for, as [onData] notifies only then. *)
Inductive midFrame (s0 : Parser) {A : Type} : Res A -> Prop :=
| mid_ret a s : keeps s0 s -> midFrame s0 (Ret a s)
| mid_raise e s : keeps s0 s -> midFrame s0 (Raise e s)
| mid_pause s k :
    keeps s0 s ->
    (forall s', arrives s s' -> midFrame s0 (k s')) ->
    midFrame s0 (Pause s k)
| mid_await s k :
    keeps s0 s ->
    (forall w s', arrives s s' ->
       (w = Notified -> bytesToRead s <= bytesAvailable s') ->
       midFrame s0 (k w s')) ->
    midFrame s0 (Await s k)
| mid_diverge : midFrame s0 Diverge.

(** [frameRun s0 r], for a run [r] of [iteration] started at [s0]: the
    parser keeps the buffer of [s0] until the run throws, breaks (at the end
    of the stream, or after the [clearBuffer] of the recovery), or reaches the
    [yield], where the buffer has just been rolled and the iteration is
    over. *)
Inductive frameRun (s0 : Parser) : Res Flow -> Prop :=
| run_raise e s : keeps s0 s -> frameRun s0 (Raise e s)
| run_break s : keeps s0 s -> frameRun s0 (Ret Break s)
| run_recover s : keeps s0 s -> frameRun s0 (Ret Break (clearBuffer s))
| run_pause s k :
    keeps s0 s ->
    (forall s', arrives s s' -> frameRun s0 (k s')) ->
    frameRun s0 (Pause s k)
| run_await s k :
    keeps s0 s ->
    (forall w s', arrives s s' ->
       (w = Notified -> bytesToRead s <= bytesAvailable s') ->
       frameRun s0 (k w s')) ->
    frameRun s0 (Await s k)
| run_yield entry s k :
    keeps s0 s ->
    (forall s', k s' = Ret Continue s') ->
    frameRun s0 (Yield entry (rollBuffer s) k)
| run_diverge : frameRun s0 Diverge.

(** [safe r]: at every point of [r], whatever has arrived meanwhile, the
    cursor is inside the buffer. *)
Inductive safe {A : Type} : Res A -> Prop :=
| safe_ret a s : bounded s -> safe (Ret a s)
| safe_raise e s : bounded s -> safe (Raise e s)
| safe_pause s k :
    bounded s -> (forall s', arrives s s' -> safe (k s')) -> safe (Pause s k)
| safe_await s k :
    bounded s ->
    (forall w s', arrives s s' ->
       (w = Notified -> bytesToRead s <= bytesAvailable s') ->
       safe (k w s')) ->
    safe (Await s k)
| safe_yield entry s k :
    bounded s -> (forall s', arrives s s' -> safe (k s')) -> safe (Yield entry s k)
| safe_diverge : safe Diverge.

(* ================================================================== *)
(** ** [LineFeedTransform] *)

Definition originalLineFeed : list byte := [x0d].

(** [replacedLineFeed], selected by [os.platform() == 'win32']. *)
Definition replacedLineFeed (win32 : bool) : list byte :=
  if win32 then [x0d; x0d; x0a] else [x0d; x0a].

(** Every byte of [a] equals the byte of [b] at the same index: the test of
    the inner loop of [indexOfSubpattern] ([b[j]] is [undefined] past the end
    of [b], and differs), and the test of [indexOf] at one position. *)
Fixpoint startsWith (a b : list byte) : bool :=
  match a, b with
  | [], _ => true
  | x :: a', y :: b' => Buf.byte_eqb x y && startsWith a' b'
  | _ :: _, [] => false
  end.

(** [chunk.indexOf(pattern, from)] for a pattern that is not empty. *)
Fixpoint indexOfAux (pattern buf : list byte) (i : nat) : option nat :=
  match buf with
  | [] => None
  | _ :: rest =>
      if startsWith pattern buf then Some i else indexOfAux pattern rest (S i)
  end.

Definition indexOf (pattern chunk : list byte) (from : nat) : option nat :=
  indexOfAux pattern (skipn from chunk) from.

(** The [while(index < target.length)] loop of [indexOfSubpattern], with
    [count] positions left to try.
    Modelled from the spec: [range] (unlib.js), taken as the indices from
    [index] up to [target.length - 1], so that the inner loop tests whether
    the bytes of the target from [index] on are a start of the pattern. *)
Fixpoint searchSuffix (count index : nat) (target pattern : list byte)
    : option nat :=
  match count with
  | O => None
  | S count' =>
      if startsWith (skipn index target) pattern then Some index
      else searchSuffix count' (S index) target pattern
  end.

Definition indexOfSubpattern (target pattern : list byte) : option nat :=
  let index := length target + 1 - length pattern in
  searchSuffix (length target - index) index target pattern.

(** The [while] loop of [_transform]: the chunks pushed, and the final
    [lastSegmentStart].  Every turn moves [lastSegmentStart] forward, so
    [fuel] the length of the chunk is enough ([replaceLoop_stream]). *)
Fixpoint replaceLoop (fuel : nat) (pattern chunk : list byte)
    (lastSegmentStart : nat) : list (list byte) * nat :=
  match fuel with
  | O => ([], lastSegmentStart)
  | S fuel' =>
      match indexOf pattern chunk lastSegmentStart with
      | Some replacedLineFeedIndex =>
          let (pushed, final) :=
            replaceLoop fuel' pattern chunk
              (replacedLineFeedIndex + length pattern) in
          (Buf.slice lastSegmentStart replacedLineFeedIndex chunk
             :: originalLineFeed :: pushed, final)
      | None => ([], lastSegmentStart)
      end
  end.

(** [_transform]: the chunks pushed and the new [lastSuspiciousBytes]. *)
Definition _transform (win32 : bool) (lastSuspiciousBytes : option (list byte))
    (chunk : list byte) : list (list byte) * option (list byte) :=
  let chunk :=
    match lastSuspiciousBytes with
    | Some held => held ++ chunk
    | None => chunk
    end in
  let (pushed, lastSegmentStart) :=
    replaceLoop (length chunk) (replacedLineFeed win32) chunk 0 in
  if lastSegmentStart <? length chunk then
    match indexOfSubpattern chunk (replacedLineFeed win32) with
    | Some lastSuspiciousBytesIndex =>
        (pushed ++ [Buf.slice lastSegmentStart lastSuspiciousBytesIndex chunk],
         Some (Buf.sliceFrom lastSuspiciousBytesIndex chunk))
    | None => (pushed ++ [Buf.sliceFrom lastSegmentStart chunk], None)
    end
  else (pushed, None).

(** [_flush]. *)
Definition _flush (lastSuspiciousBytes : option (list byte))
    : list (list byte) * option (list byte) :=
  match lastSuspiciousBytes with
  | Some held => ([held], None)
  | None => ([], None)
  end.

(** The transform stream fed the chunks in order, then ended: everything it
    pushes. *)
Fixpoint transformAll (win32 : bool) (lastSuspiciousBytes : option (list byte))
    (chunks : list (list byte)) : list (list byte) :=
  match chunks with
  | [] => fst (_flush lastSuspiciousBytes)
  | chunk :: chunks' =>
      let (pushed, last) := _transform win32 lastSuspiciousBytes chunk in
      pushed ++ transformAll win32 last chunks'
  end.

Definition corrected (win32 : bool) (chunks : list (list byte)) : list byte :=
  concat (transformAll win32 None chunks).

(** The corrector as the specification words it: the
    input, read from the left, with every occurrence of the pattern that does
    not overlap the one before replaced by [replacement], and every other
    byte kept.  [skip] counts the bytes still to pass of an occurrence
    already replaced. *)
Fixpoint substitute (pattern replacement : list byte) (skip : nat)
    (input : list byte) : list byte :=
  match input with
  | [] => []
  | b :: rest =>
      match skip with
      | S skip' => substitute pattern replacement skip' rest
      | O =>
          if startsWith pattern input
          then replacement ++ substitute pattern replacement (length pattern - 1) rest
          else b :: substitute pattern replacement 0 rest
      end
  end.

(** What the specification says of the corrector in its contract: every
    occurrence of the pattern replaced by the one byte CR, 0D. *)
Definition fixLineFeeds (win32 : bool) (input : list byte) : list byte :=
  substitute (replacedLineFeed win32) [x0d] 0 input.

(** What the property of the round trip says, and the comment of the source
    (0A, the line feed, is what the shell replaced by 0D 0A or 0D 0D 0A):
    every occurrence of the pattern replaced by the one line-feed byte, 0A. *)
Definition restoreLineFeeds (win32 : bool) (input : list byte) : list byte :=
  substitute (replacedLineFeed win32) [x0a] 0 input.

(** The bytes held back between two calls of [_transform]. *)
Definition heldBytes (lastSuspiciousBytes : option (list byte)) : list byte :=
  match lastSuspiciousBytes with
  | Some held => held
  | None => []
  end.

(** [progress n st]: the step neither ran out of fuel nor, when it produced
    an entry, left more than [n - 2] bytes. *)
Definition progress (n : nat) (st : Step) : Prop :=
  match st with
  | Entry _ rest => length rest + 2 <= n
  | NoFuel => False
  | _ => True
  end.

(* ================================================================== *)
(** ** What holds of every entry, and of a stream that grows *)

(** The range of [readInt32LE]. *)
Definition int32 (z : Z) : Prop := (-2147483648 <= z < 2147483648)%Z.

(** [sound e]: the four header fields are signed 32-bit integers, the id,
    when the entry has one, is an unsigned 32-bit integer other than 0, the
    priority is not the byte 0, and the tag holds no byte 0. *)
Definition sound (e : LogEntry) : Prop :=
  int32 (pid e) /\ int32 (tid e) /\ int32 (sec e) /\ int32 (nsec e) /\
  match id e with
  | Some i => (0 < i < 4294967296)%Z
  | None => True
  end /\
  priority e <> Some x00 /\
  ~ In x00 (tag e).

(** The entry of a step, if it has one, satisfies [P]. *)
Definition entryIs (P : LogEntry -> Prop) (st : Step) : Prop :=
  match st with
  | Entry e _ => P e
  | _ => True
  end.

(** [extends more st st']: when [st] has decoded an entry, [st'] has decoded
    the same one and leaves the bytes [more] besides. *)
Definition extends (more : list byte) (st st' : Step) : Prop :=
  match st with
  | Entry e rest => st' = Entry e (rest ++ more)
  | _ => True
  end.
(* ================================================================== *)
(** ** Frames without padding, and the frame of an entry *)

(** The frame with its padding removed. *)
Definition unpadded (f : Frame) : Frame :=
  mkFrame (fLen f) (fHeaderSize f) (fPid f) (fTid f) (fSec f) (fNsec f)
    (fId f) 0 (fPayload f).

(** The byte of value [z mod 256]. *)
Definition byteOfZ (z : Z) : byte :=
  match Byte.of_N (Z.to_N (z mod 256)) with
  | Some b => b
  | None => x00
  end.

(** The little-endian bytes that [readUInt16LE], [readUInt32LE] and
    [readInt32LE] read back (the layout of the logger's header fields). *)
Definition uint16LE (z : Z) : list byte :=
  [byteOfZ z; byteOfZ (z / 256)].

Definition uint32LE (z : Z) : list byte :=
  [byteOfZ z; byteOfZ (z / 256); byteOfZ (z / 65536); byteOfZ (z / 16777216)].

Definition int32LE (z : Z) : list byte := uint32LE (z mod 4294967296).

(** The payload of an entry: the priority byte, the tag, a zero byte, the
    message, a zero byte. *)
Definition payloadOf (e : LogEntry) : list byte :=
  match priority e with
  | Some p => [p]
  | None => []
  end ++ tag e ++ [x00] ++ msg e ++ [x00].

(** The frame of an entry: a header of size 24 with the id when the entry
    has one, a header of size 0 otherwise; no padding. *)
Definition frameOf (e : LogEntry) : Frame :=
  mkFrame (uint16LE (Z.of_nat (length (payloadOf e))))
    (uint16LE (match id e with Some _ => 24 | None => 0 end))
    (int32LE (pid e)) (int32LE (tid e)) (int32LE (sec e)) (int32LE (nsec e))
    (match id e with Some i => uint32LE i | None => [] end)
    0 (payloadOf e).

(** Bytes below 0x80: [toString] turns such a slice into the string of the
    characters of these codes, and different slices into different strings. *)
Definition ascii (bytes : list byte) : bool :=
  forallb (fun b => (Buf.toZ b <? 128)%Z) bytes.

(** The entries that a frame can carry and that the strings of the decoder
    tell apart: sound, with a priority, a tag and a message of bytes below
    0x80, and a payload whose length fits the 16 bits of the length field. *)
Definition encodable (e : LogEntry) : Prop :=
  sound e /\ priority e <> None /\
  ascii (tag e) = true /\ ascii (msg e) = true /\
  (Z.of_nat (length (payloadOf e)) < 65536)%Z.

(** An entry with an id, a tag, and a message that holds a carriage return,
    a zero byte and a line feed. *)
Definition entryExample : LogEntry :=
  mkLogEntry 1 (-2) 3 4 (Some 7%Z) (Some x04) [x74; x61; x67]
    [x6d; x0d; x00; x0a].
(* ================================================================== *)
(** ** The two flags of [asIterator] *)

(** What [tryRecover] makes of a step: the error of an invalid header size
    becomes the recovery. *)
Definition recovering (st : Step) : Step :=
  match st with
  | Fails (InvalidHeaderSize _) => Recovered
  | _ => st
  end.

(** A step that neither fails on a header size nor recovers. *)
Definition plain (st : Step) : Prop :=
  match st with
  | Fails (InvalidHeaderSize _) => False
  | Recovered => False
  | _ => True
  end.

(** What the flags make of the ending of the iteration without flags:
    [tryRecover] ends cleanly on an invalid header size, [noError] on every
    error. *)
Definition withFlags (noError tryRecover : bool) (e : Ending) : Ending :=
  match e with
  | Error (InvalidHeaderSize _) =>
      if noError || tryRecover then Clean else e
  | Error _ => if noError then Clean else e
  | _ => e
  end.
(* ================================================================== *)
(** ** Detaching the input, and the wiring of [attachStream] *)




(** [attachStream], lines 245-260: with [fixLineFeeds] the input is piped
    through a [LineFeedTransform], and [onData] receives what the transform
    pushes, then ['end'] after [_flush]; without, it receives the chunks of
    the input.  A push of no bytes, which a stream does not emit, is kept
    here as a chunk of no bytes: [onData] then appends nothing and wakes no
    read that waits. *)
Definition received (fixLF win32 : bool) (chunks : list (list byte))
    : list (list byte) :=
  if fixLF then transformAll win32 None chunks else chunks.
(* ================================================================== *)
(** ** The bytes a [LineFeedTransform] holds back *)

(** [lastSuspiciousBytes] after the chunks have been transformed in order. *)
Fixpoint heldAfter (win32 : bool) (lastSuspiciousBytes : option (list byte))
    (chunks : list (list byte)) : option (list byte) :=
  match chunks with
  | [] => lastSuspiciousBytes
  | chunk :: chunks' =>
      heldAfter win32 (snd (_transform win32 lastSuspiciousBytes chunk)) chunks'
  end.

(** [held last input]: the bytes held back, if any, are the last bytes of
    [input], there are fewer of them than the pattern has, and they are a
    start of the pattern. *)
Definition held (win32 : bool) (lastSuspiciousBytes : option (list byte))
    (input : list byte) : Prop :=
  match lastSuspiciousBytes with
  | None => True
  | Some h =>
      h <> [] /\
      length h < length (replacedLineFeed win32) /\
      startsWith h (replacedLineFeed win32) = true /\
      exists before, input = before ++ h
  end.

(* ================================================================== *)
(** ** Priorities *)

(** [priorityNameMap], lines 136-143: the pairs in the order of the source
    (the keys are distinct, so that the first pair of a key is the only
    one). *)
Definition priorityNameMap : list (Z * string) :=
  [ (7%Z, "assert"%string); (3%Z, "debug"%string); (6%Z, "error"%string);
    (4%Z, "info"%string); (2%Z, "verbose"%string); (5%Z, "warn"%string) ].

(** [Map.prototype.get]: [None] for [undefined]. *)
Fixpoint mapGet (m : list (Z * string)) (key : Z) : option string :=
  match m with
  | [] => None
  | (k, v) :: m' => if (key =? k)%Z then Some v else mapGet m' key
  end.

(** [priorityToString]. *)
Definition priorityToString (priority : Z) : option string :=
  mapGet priorityNameMap priority.

(** [priorityToString(entry.priority)], as the command-line script prints
    it: the priority of an entry is a byte, or [undefined], which is not a
    key. *)
Definition priorityName (e : LogEntry) : option string :=
  match priority e with
  | Some b => priorityToString (Buf.toZ b)
  | None => None
  end.

(** What the transform has pushed when the chunks have been transformed in
    order and the input has not ended ([_flush] has not run). *)
Fixpoint transformed (win32 : bool) (lastSuspiciousBytes : option (list byte))
    (chunks : list (list byte)) : list (list byte) :=
  match chunks with
  | [] => []
  | chunk :: chunks' =>
      let (pushed, last) := _transform win32 lastSuspiciousBytes chunk in
      pushed ++ transformed win32 last chunks'
  end.

(* ================================================================== *)
(** * Properties *)

Lemma andThen_emit {A B : Type} entry (o : Outcome A)
    (f : A -> Parser -> list nat -> list Event -> Outcome B) :
  andThen (emit entry o) f = emit entry (andThen o f).
Proof.
  destruct o as [es r]; unfold andThen, emit; simpl.
  destruct r; reflexivity.
Qed.

Lemma orElse_emit {A : Type} entry (o : Outcome A) h :
  orElse (emit entry o) h = emit entry (orElse o h).
Proof.
  destruct o as [es r]; unfold orElse, emit; simpl.
  destruct r; reflexivity.
Qed.

Lemma settled_emit {A : Type} entry (o : Outcome A) :
  settled (emit entry o) = emit entry (settled o).
Proof.
  destruct o as [es r]; unfold settled, emit; simpl.
  destruct r; try reflexivity;
    destruct (deliver (hd 0 sched) s evs); reflexivity.
Qed.

Lemma drive_bindRes {A B : Type} (r : Res A) (f : A -> M B) :
  forall sched evs,
    drive (bindRes r f) sched evs =
    andThen (drive r sched evs) (fun a s sched' evs' => drive (f a s) sched' evs').
Proof.
  induction r as [a s|e s|s k IH|s k IH|entry s k IH|]; intros sched evs; simpl.
  - unfold andThen; simpl. destruct (drive (f a s) sched evs); reflexivity.
  - reflexivity.
  - destruct (deliver (hd 0 sched) s evs) as [s' evs']. apply IH.
  - destruct (wake s evs) as [[[w s1] evs1]|]; [|reflexivity].
    destruct (deliver (hd 0 sched) s1 evs1) as [s' evs']. apply IH.
  - destruct (deliver (hd 0 sched) s evs) as [s' evs'].
    rewrite IH, andThen_emit. reflexivity.
  - reflexivity.
Qed.

Lemma drive_catchRes {A : Type} (r : Res A) (h : Err -> M A) :
  forall sched evs,
    drive (catchRes r h) sched evs =
    orElse (drive r sched evs) (fun e s sched' evs' => drive (h e s) sched' evs').
Proof.
  induction r as [a s|e s|s k IH|s k IH|entry s k IH|]; intros sched evs; simpl.
  - reflexivity.
  - unfold orElse; simpl. destruct (drive (h e s) sched evs); reflexivity.
  - destruct (deliver (hd 0 sched) s evs) as [s' evs']. apply IH.
  - destruct (wake s evs) as [[[w s1] evs1]|]; [|reflexivity].
    destruct (deliver (hd 0 sched) s1 evs1) as [s' evs']. apply IH.
  - destruct (deliver (hd 0 sched) s evs) as [s' evs'].
    rewrite IH, orElse_emit. reflexivity.
  - reflexivity.
Qed.

Lemma drive_awaitRes {A : Type} (r : Res A) :
  forall sched evs,
    drive (awaitRes r) sched evs = settled (drive r sched evs).
Proof.
  induction r as [a s|e s|s k IH|s k IH|entry s k IH|]; intros sched evs; simpl.
  - unfold settled; simpl. destruct (deliver (hd 0 sched) s evs); reflexivity.
  - unfold settled; simpl. destruct (deliver (hd 0 sched) s evs); reflexivity.
  - destruct (deliver (hd 0 sched) s evs) as [s' evs']. apply IH.
  - destruct (wake s evs) as [[[w s1] evs1]|]; [|reflexivity].
    destruct (deliver (hd 0 sched) s1 evs1) as [s' evs']. apply IH.
  - destruct (deliver (hd 0 sched) s evs) as [s' evs'].
    rewrite IH, settled_emit. reflexivity.
  - reflexivity.
Qed.

Lemma drive_bind {A B : Type} (m : M A) (f : A -> M B) s sched evs :
  drive (bind m f s) sched evs =
  andThen (drive (m s) sched evs) (fun a s' sched' evs' => drive (f a s') sched' evs').
Proof. apply drive_bindRes. Qed.

Lemma drive_tryCatch {A : Type} (m : M A) (h : Err -> M A) s sched evs :
  drive (tryCatch m h s) sched evs =
  orElse (drive (m s) sched evs) (fun e s' sched' evs' => drive (h e s') sched' evs').
Proof. apply drive_catchRes. Qed.

Lemma drive_await {A : Type} (m : M A) s sched evs :
  drive (await m s) sched evs = settled (drive (m s) sched evs).
Proof. apply drive_awaitRes. Qed.

Lemma pendingData_stream chunks : pendingData (stream chunks) = concat chunks.
Proof.
  unfold stream. induction chunks as [|c cs IH]; simpl; [reflexivity|].
  now rewrite IH.
Qed.

Lemma unread_attached chunks : unread attached (stream chunks) (concat chunks).
Proof.
  unfold unread, attached; simpl. split; [lia|]. split.
  - apply pendingData_stream.
  - now exists chunks.
Qed.

Lemma unread_available s evs rem :
  unread s evs rem -> bytesAvailable s <= length rem.
Proof.
  intros (Hc & Hrem & _). subst rem. unfold bytesAvailable.
  rewrite length_app, length_skipn. lia.
Qed.

Lemma unread_ended s evs rem :
  unread s evs rem -> ended s = true -> evs = [] /\ bytesAvailable s = length rem.
Proof.
  intros (Hc & Hrem & He) Hended. rewrite Hended in He. subst evs rem.
  split; [reflexivity|]. simpl. unfold bytesAvailable.
  rewrite app_nil_r, length_skipn. reflexivity.
Qed.

Lemma unread_deliver1 e s evs rem :
  unread s (e :: evs) rem -> unread (deliver1 e s) evs rem.
Proof.
  intros (Hc & Hrem & He).
  destruct (ended s) eqn:Hended; [discriminate|].
  destruct He as [chunks Hevs].
  destruct e as [chunk|]; simpl.
  - destruct chunks as [|c cs]; [discriminate|].
    unfold stream in Hevs; simpl in Hevs. injection Hevs as -> ->.
    simpl in Hrem.
    assert (Hu : unread (mkParser (buffer s ++ c) (cursor s) (bytesToRead s) false)
                   (stream cs) rem).
    { unfold unread; simpl. rewrite length_app. split; [lia|]. split.
      - rewrite skipn_app.
        replace (cursor s - length (buffer s)) with 0 by lia.
        simpl. now rewrite <- app_assoc.
      - now exists cs. }
    unfold onData; simpl. rewrite Hended.
    destruct (bytesToRead s <=? _); simpl; [|exact Hu].
    destruct Hu as (H1 & H2 & H3). unfold unread; simpl. auto.
  - destruct chunks as [|c cs]; unfold stream in Hevs; simpl in Hevs;
      [|discriminate].
    injection Hevs as ->. unfold unread, onEnd; simpl. simpl in Hrem. auto.
Qed.

Lemma unread_deliver n : forall s evs rem s' evs',
  unread s evs rem -> deliver n s evs = (s', evs') -> unread s' evs' rem.
Proof.
  induction n as [|n IH]; intros s evs rem s' evs' Hu Hd; simpl in Hd.
  - now injection Hd as <- <-.
  - destruct evs as [|e evs]; [now injection Hd as <- <-|].
    eapply IH; [|exact Hd]. now apply unread_deliver1.
Qed.

Lemma deliver1_available e s : bytesAvailable s <= bytesAvailable (deliver1 e s).
Proof.
  destruct e as [chunk|]; simpl; unfold bytesAvailable.
  - unfold onData; simpl. destruct (bytesToRead s <=? _); simpl;
      rewrite length_app; lia.
  - simpl. lia.
Qed.

Lemma deliver_available n : forall s evs s' evs',
  deliver n s evs = (s', evs') -> bytesAvailable s <= bytesAvailable s'.
Proof.
  induction n as [|n IH]; intros s evs s' evs' Hd; simpl in Hd.
  - injection Hd as <- <-. lia.
  - destruct evs as [|e evs]; [injection Hd as <- <-; lia|].
    apply IH in Hd. pose proof (deliver1_available e s). lia.
Qed.

Lemma wake_unread : forall chunks s rem n,
  unread s (stream chunks) rem ->
  ended s = false -> bytesToRead s = n -> bytesAvailable s < n ->
  (n <= length rem ->
   exists s1 evs1,
     wake s (stream chunks) = Some (Notified, s1, evs1) /\
     unread s1 evs1 rem /\ n <= bytesAvailable s1) /\
  (length rem < n ->
   exists s1,
     wake s (stream chunks) = Some (Aborted InputStreamEndedError, s1, []) /\
     unread s1 [] rem /\ ended s1 = true).
Proof.
  induction chunks as [|c cs IH]; intros s rem n Hu Hended Hn Hlt.
  - pose proof (unread_deliver1 Hu) as Hu'.
    destruct Hu as (Hc & Hrem & _). simpl in Hrem.
    rewrite app_nil_r in Hrem. split.
    + intros Hle. exfalso. subst rem. rewrite length_skipn in Hle.
      unfold bytesAvailable in Hlt. lia.
    + intros _. exists (onEnd s). simpl. auto.
  - pose proof (unread_deliver1 Hu) as Hu'. simpl in Hu'.
    change (stream (c :: cs)) with (Data c :: stream cs).
    simpl. unfold onData in *. simpl in *.
    destruct (bytesToRead s <=? bytesAvailable _) eqn:Hnot; simpl in Hu'.
    + apply Nat.leb_le in Hnot. rewrite Hn in Hnot. split.
      * intros _. eexists _, _. split; [reflexivity|]. split; [exact Hu'|].
        exact Hnot.
      * intros Hshort. exfalso.
        apply unread_available in Hu'.
        unfold bytesAvailable in *. simpl in *. lia.
    + apply Nat.leb_gt in Hnot. rewrite Hn in Hnot.
      apply IH; auto.
Qed.

(** [await this.read(n)] when the stream still has [n] bytes: whatever the
    chunking and the schedule, it returns the next [n] bytes of the stream. *)
Lemma await_read_ok n s sched evs rem :
  unread s evs rem -> n <= length rem ->
  exists s' sched' evs',
    drive (await (read n) s) sched evs =
      ([], Returned (firstn n rem) s' sched' evs') /\
    unread s' evs' (skipn n rem).
Proof.
  intros Hu Hle. rewrite drive_await. unfold read.
  assert (Hfast : forall t tevs tsched,
    unread t tevs rem -> n <= bytesAvailable t ->
    exists s' sched' evs',
      settled (drive (let (data, t') := _read n t in Ret data t') tsched tevs) =
        ([], Returned (firstn n rem) s' sched' evs') /\
      unread s' evs' (skipn n rem)).
  { intros t tevs tsched Ht Hav. unfold _read, settled; simpl.
    destruct (deliver (hd 0 tsched) _ tevs) as [s' evs'] eqn:Hd.
    exists s', (tl tsched), evs'. split.
    - f_equal. f_equal. destruct Ht as (Hc & Hrem & _). subst rem.
      unfold Buf.slice, bytesAvailable in *.
      replace (cursor t + n - cursor t) with n by lia.
      rewrite firstn_app, length_skipn.
      replace (n - (length (buffer t) - cursor t)) with 0 by lia.
      simpl. now rewrite app_nil_r.
    - eapply unread_deliver; [|exact Hd].
      destruct Ht as (Hc & Hrem & He). unfold unread, bytesAvailable in *.
      simpl. split; [lia|]. split; [|exact He]. subst rem.
      rewrite skipn_app, length_skipn.
      replace (n - (length (buffer t) - cursor t)) with 0 by lia.
      simpl. rewrite skipn_skipn. f_equal. f_equal. lia. }
  destruct (bytesAvailable s <? n) eqn:Hav.
  - apply Nat.ltb_lt in Hav. destruct (ended s) eqn:Hended.
    + exfalso. destruct (unread_ended Hu Hended) as [_ E]. lia.
    + pose proof Hu as (Hc & Hrem & He). rewrite Hended in He.
      destruct He as [chunks ->].
      set (s0 := mkParser (buffer s) (cursor s) n false).
      assert (Hu0 : unread s0 (stream chunks) rem).
      { unfold unread, s0; simpl. split; [exact Hc|].
        split; [exact Hrem|]. now exists chunks. }
      destruct (@wake_unread chunks s0 rem n Hu0 eq_refl eq_refl Hav) as [Hok _].
      destruct (Hok Hle) as (s1 & evs1 & Hw & Hu1 & Hav1).
      cbn [drive]. rewrite Hw.
      destruct (deliver (hd 0 sched) s1 evs1) as [s2 evs2] eqn:Hd.
      apply (Hfast s2 evs2 (tl sched)).
      * eapply unread_deliver; eauto.
      * apply deliver_available in Hd. lia.
  - apply Nat.ltb_ge in Hav. now apply Hfast.
Qed.

(** [await this.read(n)] when the stream has fewer than [n] bytes left:
    whatever the chunking and the schedule, it throws
    [InsufficientBytesError], after the stream has ended. *)
Lemma await_read_short n s sched evs rem :
  unread s evs rem -> length rem < n ->
  exists s' sched',
    drive (await (read n) s) sched evs =
      ([], Threw InsufficientBytesError s' sched' []) /\
    unread s' [] rem /\ ended s' = true.
Proof.
  intros Hu Hlt. rewrite drive_await. unfold read.
  pose proof (unread_available Hu) as Hav.
  replace (bytesAvailable s <? n) with true by (symmetry; apply Nat.ltb_lt; lia).
  destruct (ended s) eqn:Hended.
  - destruct (unread_ended Hu Hended) as [-> _].
    unfold settled; simpl. destruct (hd 0 sched); simpl; eauto.
  - pose proof Hu as (Hc & Hrem & He). rewrite Hended in He.
    destruct He as [chunks ->].
    set (s0 := mkParser (buffer s) (cursor s) n false).
    assert (Hu0 : unread s0 (stream chunks) rem).
    { unfold unread, s0; simpl. split; [exact Hc|].
      split; [exact Hrem|]. now exists chunks. }
    assert (Hav0 : bytesAvailable s0 < n) by (unfold bytesAvailable in *; simpl; lia).
    destruct (@wake_unread chunks s0 rem n Hu0 eq_refl eq_refl Hav0) as [_ Hshort].
    destruct (Hshort Hlt) as (s1 & Hw & Hu1 & Hend1).
    cbn [drive]. rewrite Hw. simpl.
    unfold settled; simpl. destruct (hd 0 sched); simpl;
      destruct (hd 0 (tl sched)); simpl; eauto.
Qed.

(* ================================================================== *)
(** ** The decoder computes the stream reading *)

Lemma await_read_stream n s sched evs rem :
  unread s evs rem ->
  match takeBytes n rem with
  | Some (b, rest) =>
      exists s' sched' evs',
        drive (await (read n) s) sched evs = ([], Returned b s' sched' evs') /\
        unread s' evs' rest
  | None =>
      exists s' sched',
        drive (await (read n) s) sched evs =
          ([], Threw InsufficientBytesError s' sched' []) /\
        unread s' [] rem /\ ended s' = true
  end.
Proof.
  intros Hu. unfold takeBytes. destruct (n <=? length rem) eqn:Hn.
  - apply Nat.leb_le in Hn. now apply await_read_ok.
  - apply Nat.leb_gt in Hn. now apply await_read_short.
Qed.

Lemma await_reader_stream {A : Type} n (f : list byte -> A) s sched evs rem :
  unread s evs rem ->
  match takeBytes n rem with
  | Some (b, rest) =>
      exists s' sched' evs',
        drive (await (reader n f) s) sched evs =
          ([], Returned (f b) s' sched' evs') /\
        unread s' evs' rest
  | None =>
      exists s' sched',
        drive (await (reader n f) s) sched evs =
          ([], Threw InsufficientBytesError s' sched' []) /\
        unread s' [] rem /\ ended s' = true
  end.
Proof.
  intros Hu. pose proof (@await_read_stream n s sched evs rem Hu) as H.
  rewrite drive_await. unfold reader. rewrite drive_bind.
  destruct (takeBytes n rem) as [[b rest]|].
  - destruct H as (s1 & sched1 & evs1 & E & Hu1). rewrite E.
    unfold andThen, settled, ret; simpl.
    destruct (deliver (hd 0 sched1) s1 evs1) as [s2 evs2] eqn:Hd.
    exists s2, (tl sched1), evs2. split; [reflexivity|].
    eapply unread_deliver; eauto.
  - destruct H as (s1 & sched1 & E & Hu1 & Hend). rewrite E.
    unfold andThen, settled; simpl.
    exists s1, (tl sched1). destruct (hd 0 sched1); simpl; auto.
Qed.

Lemma finish_stream pid tid sec nsec id priority payload priorityIndex
    s sched evs rem :
  unread s evs rem ->
  stepOutcome
    (drive ((modify rollBuffer ;;;
             yield (makeEntry pid tid sec nsec id priority payload priorityIndex) ;;;
             ret Continue) s) sched evs)
    (Entry (makeEntry pid tid sec nsec id priority payload priorityIndex) rem).
Proof.
  intros Hu. unfold bind, modify, yield, ret; simpl.
  destruct (deliver (hd 0 sched) (rollBuffer s) evs) as [s' evs'] eqn:Hd.
  unfold emit; simpl. exists s', (tl sched), evs'. split; [reflexivity|].
  assert (Hroll : unread (rollBuffer s) evs rem).
  { destruct Hu as (Hc & Hrem & He). unfold unread, rollBuffer; simpl.
    split; [lia|]. split; [exact Hrem|exact He]. }
  split; [eapply unread_deliver; eauto|].
  clear - Hd. revert Hd. generalize (rollBuffer s), (eq_refl : cursor (rollBuffer s) = 0).
  generalize (hd 0 sched). intros n. revert evs.
  induction n as [|n IH]; intros evs p Hp Hd; simpl in Hd.
  - now injection Hd as <- <-.
  - destruct evs as [|e evs]; [now injection Hd as <- <-|].
    eapply IH; [|exact Hd].
    destruct e; simpl; [|exact Hp].
    unfold onData; simpl. destruct (_ <=? _); simpl; exact Hp.
Qed.

Lemma andThen_returned {A B : Type} (a : A) s sched evs
    (f : A -> Parser -> list nat -> list Event -> Outcome B) :
  andThen ([], Returned a s sched evs) f = f a s sched evs.
Proof. unfold andThen; simpl. now destruct (f a s sched evs). Qed.

Lemma andThen_threw {A B : Type} es e s sched evs
    (f : A -> Parser -> list nat -> list Event -> Outcome B) :
  andThen (es, Threw e s sched evs) f = (es, Threw e s sched evs).
Proof. reflexivity. Qed.

Lemma drive_ret {A : Type} (a : A) s sched evs :
  drive (ret a s) sched evs = ([], Returned a s sched evs).
Proof. reflexivity. Qed.

Lemma afterScan_stream pid tid sec nsec id payload priorityIndex priority
    s sched evs rem :
  unread s evs rem ->
  tailOutcome
    (drive (afterScan pid tid sec nsec id (payload, priorityIndex, priority) s)
       sched evs)
    (afterScanStream pid tid sec nsec id payload priorityIndex priority rem).
Proof.
  intros Hu. unfold afterScan, afterScanStream.
  destruct (1 <? priorityIndex).
  - rewrite drive_bind, drive_bind.
    pose proof (@await_read_stream (priorityIndex - 1) s sched evs rem Hu) as H.
    unfold withBytes. destruct (takeBytes (priorityIndex - 1) rem) as [[b rest]|].
    + destruct H as (s1 & sched1 & evs1 & E & Hu1). rewrite E.
      rewrite andThen_returned, drive_ret, andThen_returned.
      now apply finish_stream.
    + destruct H as (s1 & sched1 & E & _). rewrite E.
      rewrite andThen_threw, andThen_threw. simpl. eauto.
  - rewrite drive_bind, drive_ret, andThen_returned.
    now apply finish_stream.
Qed.

Lemma scanPadding_stream pid tid sec nsec id :
  forall fuel len payload priorityIndex priority s sched evs rem,
    unread s evs rem ->
    tailOutcome
      (drive ((sc <- scanPadding fuel len payload priorityIndex priority ;;
               afterScan pid tid sec nsec id sc) s) sched evs)
      (scanStream fuel len payload priorityIndex priority rem
         (afterScanStream pid tid sec nsec id)).
Proof.
  induction fuel as [|fuel IH];
    intros len payload priorityIndex priority s sched evs rem Hu;
    simpl scanPadding; simpl scanStream.
  - destruct (Buf.isZero priority).
    + reflexivity.
    + rewrite drive_bind, drive_ret, andThen_returned.
      now apply afterScan_stream.
  - destruct (Buf.isZero priority).
    + destruct (len <=? S priorityIndex).
      * rewrite drive_bind, drive_bind.
        pose proof (@await_read_stream len s sched evs rem Hu) as H.
        unfold withBytes. destruct (takeBytes len rem) as [[b rest]|].
        -- destruct H as (s1 & sched1 & evs1 & E & Hu1). rewrite E.
           rewrite andThen_returned.
           specialize (IH len (payload ++ b) (S priorityIndex)
                         (Buf.at_ payload priorityIndex) s1 sched1 evs1 rest Hu1).
           rewrite drive_bind in IH. exact IH.
        -- destruct H as (s1 & sched1 & E & _). rewrite E.
           rewrite andThen_threw, andThen_threw. simpl. eauto.
      * apply IH. exact Hu.
    + rewrite drive_bind, drive_ret, andThen_returned.
      now apply afterScan_stream.
Qed.

Lemma orElse_returned {A : Type} es (a : A) s sched evs h :
  orElse (es, Returned a s sched evs) h = (es, Returned a s sched evs).
Proof. reflexivity. Qed.

Lemma orElse_threw {A : Type} e s sched evs
    (h : Err -> Parser -> list nat -> list Event -> Outcome A) :
  orElse ([], Threw e s sched evs) h = h e s sched evs.
Proof. unfold orElse; simpl. now destruct (h e s sched evs). Qed.

Lemma drive_get s sched evs :
  drive (get s) sched evs = ([], Returned s s sched evs).
Proof. reflexivity. Qed.

Lemma drive_raise {A : Type} e s sched evs :
  drive (@raise A e s) sched evs = ([], Threw e s sched evs).
Proof. reflexivity. Qed.

Lemma drive_modify f s sched evs :
  drive (modify f s) sched evs = ([], Returned tt (f s) sched evs).
Proof. reflexivity. Qed.

Ltac read_step Hu :=
  rewrite drive_bind;
  match type of Hu with
  | unread ?s ?evs ?rem =>
      match goal with
      | |- context [drive (await (reader ?n ?f) s) ?sched evs] =>
          let H := fresh "H" in
          let E := fresh "E" in
          pose proof (@await_reader_stream _ n f s sched evs rem Hu) as H;
          unfold withBytes at 1;
          destruct (takeBytes n rem) as [[? ?]|];
          [ destruct H as (? & ? & ? & E & H);
            rewrite E, andThen_returned; clear E Hu
          | destruct H as (? & ? & E & _);
            rewrite E, !andThen_threw; cbn [stepOutcome tailOutcome]; eauto ]
      end
  end.

Lemma tailOutcome_step o st : tailOutcome o st -> stepOutcome o st.
Proof. destruct st; simpl; auto; contradiction. Qed.

Lemma payload_stream pid tid sec nsec id fuel len s sched evs rem :
  unread s evs rem ->
  stepOutcome
    (drive ((payload <- await (read len) ;;
             sc <- scanPadding fuel len payload 1 (Buf.at_ payload 0) ;;
             afterScan pid tid sec nsec id sc) s) sched evs)
    (withBytes len rem (fun payload rem =>
       scanStream fuel len payload 1 (Buf.at_ payload 0) rem
         (afterScanStream pid tid sec nsec id))).
Proof.
  intros Hu. rewrite drive_bind.
  pose proof (@await_read_stream len s sched evs rem Hu) as H.
  unfold withBytes. destruct (takeBytes len rem) as [[b rest]|].
  - destruct H as (s1 & sched1 & evs1 & E & Hu1).
    rewrite E, andThen_returned.
    apply tailOutcome_step. now apply scanPadding_stream.
  - destruct H as (s1 & sched1 & E & _).
    rewrite E, andThen_threw. cbn [stepOutcome]. eauto.
Qed.

Lemma iteration_stream tryRecover fuel s sched evs rem :
  unread s evs rem ->
  stepOutcome (drive (iteration tryRecover fuel s) sched evs)
    (stepStream tryRecover fuel rem).
Proof.
  intros Hu. unfold iteration, stepStream.
  change readUInt16 with (reader 2 Buf.readUInt16LE).
  change readInt32 with (reader 4 Buf.readInt32LE).
  change readUInt32 with (reader 4 Buf.readUInt32LE).
  rewrite drive_bind, drive_tryCatch, drive_bind.
  pose proof (@await_reader_stream _ 2 Buf.readUInt16LE s sched evs rem Hu) as H.
  destruct (takeBytes 2 rem) as [[b0 rem0]|].
  2:{ destruct H as (s1 & sched1 & E & Hu1 & Hend). rewrite E.
      rewrite andThen_threw, orElse_threw, drive_bind, drive_get, andThen_returned.
      destruct (unread_ended Hu1 Hend) as [_ Hav]. rewrite Hav.
      cbn [isInsufficientBytes andb].
      destruct (length rem =? 0) eqn:Hlen.
      - apply Nat.eqb_eq in Hlen. destruct rem; [|discriminate].
        rewrite drive_ret, andThen_returned, drive_ret. cbn [stepOutcome]. eauto.
      - rewrite drive_raise, andThen_threw. cbn [stepOutcome]. eauto. }
  destruct H as (s1 & sched1 & evs1 & E & Hu1). rewrite E. clear E Hu.
  rewrite andThen_returned, drive_ret, orElse_returned, andThen_returned.
  cbv zeta.
  read_step Hu1.
  match goal with |- context [negb (?h =? 24)%Z && _] => set (headerSize := h) end.
  destruct (negb (headerSize =? 24)%Z && negb (headerSize =? 0)%Z).
  { destruct tryRecover.
    - rewrite drive_bind, drive_modify, andThen_returned, drive_ret.
      cbn [stepOutcome]. eauto 10.
    - rewrite drive_raise. cbn [stepOutcome]. eauto. }
  read_step H. read_step H0. read_step H. read_step H0.
  rewrite drive_bind.
  destruct (headerSize =? 24)%Z.
  - read_step H. rewrite drive_ret, andThen_returned.
    now apply payload_stream.
  - rewrite drive_ret, andThen_returned.
    now apply payload_stream.
Qed.

Lemma whileLoop_stream tryRecover :
  forall fuel s sched evs rem,
    unread s evs rem ->
    loopOutcome (drive (whileLoop tryRecover fuel s) sched evs)
      (whileStream tryRecover fuel rem).
Proof.
  induction fuel as [|fuel IH]; intros s sched evs rem Hu.
  - split; reflexivity.
  - cbn [whileLoop whileStream].
    destruct (negb (ended s) || negb (bytesAvailable s =? 0)) eqn:Hcond.
    + rewrite drive_bind.
      pose proof (@iteration_stream tryRecover fuel s sched evs rem Hu) as H.
      destruct (stepStream tryRecover fuel rem) as [entry rest| | |e|];
        cbn [stepOutcome] in H.
      * destruct H as (s1 & sched1 & evs1 & E & Hu1 & _). rewrite E.
        specialize (IH s1 sched1 evs1 rest Hu1).
        destruct IH as [Hes Hend]. unfold andThen; cbn [fst snd].
        split; [cbn [app]; now rewrite Hes|exact Hend].
      * destruct H as (s1 & sched1 & E & Hu1 & _).
        rewrite E, andThen_returned, drive_ret. split; [reflexivity|].
        cbn [snd]. eauto.
      * destruct H as (s1 & sched1 & evs1 & E & Hb & Hc & Hn).
        rewrite E, andThen_returned, drive_ret. split; [reflexivity|].
        cbn [snd]. eauto 10.
      * destruct H as (s1 & sched1 & evs1 & E).
        rewrite E, andThen_threw. split; [reflexivity|]. cbn [snd]. eauto.
      * rewrite H. split; reflexivity.
    + apply orb_false_iff in Hcond. destruct Hcond as [He Hav].
      apply negb_false_iff in He, Hav. apply Nat.eqb_eq in Hav.
      destruct (unread_ended Hu He) as [-> Hlen].
      destruct rem; [|simpl in Hlen; lia].
      split; [reflexivity|]. cbn. eauto.
Qed.

(** [asIterator] on any parser state whose unread bytes are [rem]: the
    entries and the ending are those of the stream reading of [rem], and a
    clean ending leaves the parser cleared. *)
Lemma asIterator_unread noError tryRecover fuel s sched evs rem :
  unread s evs rem ->
  let o := drive (asIterator noError tryRecover fuel s) sched evs in
  (fst o, ending (snd o)) = decodeStream noError tryRecover fuel rem /\
  (ending (snd o) = Clean ->
   exists s', finalState (snd o) = Some s' /\ cleared s').
Proof.
  intros Hu. cbv zeta. unfold asIterator, decodeStream.
  rewrite drive_bind, drive_tryCatch.
  pose proof (@whileLoop_stream tryRecover fuel s sched evs rem Hu) as [Hes Hend].
  destruct (drive (whileLoop tryRecover fuel s) sched evs) as [es r].
  cbn [fst snd] in *. rewrite <- Hes.
  destruct (snd (whileStream tryRecover fuel rem)) as [| |e|].
  - destruct Hend as (s1 & sched1 & evs1 & -> & _).
    rewrite orElse_returned. unfold andThen; cbn.
    rewrite app_nil_r. split; [reflexivity|]. intros _.
    eexists; split; [reflexivity|]. repeat split.
  - destruct Hend as (s1 & sched1 & evs1 & -> & _).
    rewrite orElse_returned. unfold andThen; cbn.
    rewrite app_nil_r. split; [reflexivity|]. intros _.
    eexists; split; [reflexivity|]. repeat split.
  - destruct Hend as (s1 & sched1 & evs1 & ->).
    unfold orElse; cbn [fst snd]. destruct noError.
    + rewrite drive_ret. unfold andThen; cbn.
      rewrite !app_nil_r. split; [reflexivity|]. intros _.
      eexists; split; [reflexivity|]. repeat split.
    + rewrite drive_raise. unfold andThen; cbn.
      rewrite app_nil_r. split; [reflexivity|]. discriminate.
  - subst r. unfold orElse, andThen; cbn. split; [reflexivity|]. discriminate.
Qed.

Lemma started_unread sched chunks s0 evs0 :
  deliver (hd 0 sched) attached (stream chunks) = (s0, evs0) ->
  unread s0 evs0 (concat chunks).
Proof.
  intros Hd. eapply unread_deliver; [apply unread_attached|exact Hd].
Qed.

Theorem iterate_stream noError tryRecover fuel sched chunks :
  let o := iterate noError tryRecover fuel sched chunks in
  (fst o, ending (snd o)) = decodeStream noError tryRecover fuel (concat chunks).
Proof.
  unfold iterate.
  destruct (deliver (hd 0 sched) attached (stream chunks)) as [s0 evs0] eqn:Hd.
  eapply asIterator_unread, started_unread, Hd.
Qed.

Lemma iterateLoop_stream tryRecover fuel sched chunks :
  loopOutcome (iterateLoop tryRecover fuel sched chunks)
    (whileStream tryRecover fuel (concat chunks)).
Proof.
  unfold iterateLoop.
  destruct (deliver (hd 0 sched) attached (stream chunks)) as [s0 evs0] eqn:Hd.
  eapply whileLoop_stream, started_unread, Hd.
Qed.

(** A clean ending of [asIterator] (end of stream, recovery, or an error
    swallowed by [noError]) leaves an empty buffer, the cursor at 0 and no
    pending read size. *)
Lemma asIterator_clean_cleared noError tryRecover fuel sched chunks :
  let o := iterate noError tryRecover fuel sched chunks in
  ending (snd o) = Clean ->
  exists s', finalState (snd o) = Some s' /\ cleared s'.
Proof.
  unfold iterate.
  destruct (deliver (hd 0 sched) attached (stream chunks)) as [s0 evs0] eqn:Hd.
  eapply asIterator_unread, started_unread, Hd.
Qed.

(* ================================================================== *)
(** ** Well-formed frames in the stream reading *)

Lemma takeBytes_app n b rest :
  length b = n -> takeBytes n (b ++ rest) = Some (b, rest).
Proof.
  intros <-. unfold takeBytes. rewrite length_app.
  replace (length b <=? length b + length rest) with true
    by (symmetry; apply Nat.leb_le; lia).
  rewrite firstn_app, Nat.sub_diag, firstn_all. simpl. rewrite app_nil_r.
  rewrite skipn_app, Nat.sub_diag, skipn_all. reflexivity.
Qed.

Lemma withBytes_app n b rest k :
  length b = n -> withBytes n (b ++ rest) k = k b rest.
Proof. intros H. unfold withBytes. now rewrite takeBytes_app. Qed.

Lemma wellFormed_fields f :
  wellFormed f ->
  length (fLen f) = 2 /\ length (fHeaderSize f) = 2 /\
  length (fPid f) = 4 /\ length (fTid f) = 4 /\
  length (fSec f) = 4 /\ length (fNsec f) = 4 /\
  Z.to_nat (Buf.readUInt16LE (fLen f)) = length (fPayload f) /\
  ((Buf.readUInt16LE (fHeaderSize f) = 0%Z /\ fId f = []) \/
   (Buf.readUInt16LE (fHeaderSize f) = 24%Z /\ length (fId f) = 4)) /\
  Buf.isZero (Buf.at_ (fPayload f) 0) = false /\
  (fPad f = 0 \/ fPad f + 1 < length (fPayload f)).
Proof.
  unfold wellFormed, wellFormedb. intros H.
  repeat (apply andb_true_iff in H; destruct H as [H ?]).
  repeat match goal with
         | H : (_ =? _) = true |- _ => apply Nat.eqb_eq in H
         | H : (_ =? _)%Z = true |- _ => apply Z.eqb_eq in H
         | H : negb _ = true |- _ => apply negb_true_iff in H
         end.
  repeat split; try assumption.
  - match goal with H : Buf.readUInt16LE (fLen f) = _ |- _ => rewrite H end.
    apply Nat2Z.id.
  - match goal with H : (_ && _ || _) = true |- _ =>
      apply orb_true_iff in H; destruct H as [Hv|Hv];
      apply andb_true_iff in Hv; destruct Hv as [Hhs Hid];
      apply Z.eqb_eq in Hhs; apply Nat.eqb_eq in Hid end.
    + left. split; [assumption|]. now destruct (fId f).
    + right. now split.
  - match goal with H : ((fPad f =? 0) || _) = true |- _ =>
      apply orb_true_iff in H; destruct H as [Hp|Hp] end.
    + left. now apply Nat.eqb_eq.
    + right. now apply Nat.ltb_lt.
Qed.

(** The scan over [m] further zero bytes that end at a non-zero byte inside
    the payload first read: no byte is pulled. *)
Lemma scanStream_zeros k len rem : forall m fuel payload priorityIndex p,
  m < fuel ->
  (forall j, j < m -> Buf.at_ payload (priorityIndex + j) = Some x00) ->
  Buf.at_ payload (priorityIndex + m) = Some p ->
  Buf.byte_eqb p x00 = false ->
  priorityIndex + m + 1 < len ->
  scanStream fuel len payload priorityIndex (Some x00) rem k =
  k payload (priorityIndex + m + 1) (Some p) rem.
Proof.
  induction m as [|m IH]; intros fuel payload priorityIndex p Hf Hz Hp Hnz Hlen;
    (destruct fuel as [|fuel]; [lia|]); cbn [scanStream Buf.isZero].
  - change (Buf.byte_eqb x00 x00) with true. cbv iota.
    replace (len <=? S priorityIndex) with false
      by (symmetry; apply Nat.leb_gt; lia).
    rewrite Nat.add_0_r in Hp. rewrite Hp.
    destruct fuel; cbn [scanStream Buf.isZero]; rewrite Hnz;
      (replace (priorityIndex + 0 + 1) with (S priorityIndex) by lia);
      reflexivity.
  - change (Buf.byte_eqb x00 x00) with true. cbv iota.
    replace (len <=? S priorityIndex) with false
      by (symmetry; apply Nat.leb_gt; lia).
    pose proof (Hz 0 ltac:(lia)) as Hz0. rewrite Nat.add_0_r in Hz0.
    rewrite Hz0.
    rewrite (IH fuel payload (S priorityIndex) p); try lia.
    + f_equal. lia.
    + intros j Hj. replace (S priorityIndex + j) with (priorityIndex + S j) by lia.
      apply Hz. lia.
    + replace (S priorityIndex + m) with (priorityIndex + S m) by lia. exact Hp.
    + exact Hnz.
Qed.

Lemma at_repeat_zero pad rest j :
  j < pad -> Buf.at_ (repeat x00 pad ++ rest) j = Some x00.
Proof.
  intros Hj. unfold Buf.at_. rewrite nth_error_app1 by (rewrite repeat_length; lia).
  apply nth_error_repeat. exact Hj.
Qed.

Lemma at_after_zeros pad rest j :
  Buf.at_ (repeat x00 pad ++ rest) (pad + j) = Buf.at_ rest j.
Proof.
  unfold Buf.at_. rewrite nth_error_app2 by (rewrite repeat_length; lia).
  rewrite repeat_length. f_equal. lia.
Qed.

(** The payload of a well-formed frame, read against the stream: the padding
    is skipped, the bytes it displaced are pulled, and the frame ends where
    the next begins. *)
Lemma payload_frame pid tid sec nsec id fuel pad payload rest :
  Buf.isZero (Buf.at_ payload 0) = false ->
  pad = 0 \/ pad + 1 < length payload ->
  pad <= fuel ->
  withBytes (length payload) (repeat x00 pad ++ payload ++ rest)
    (fun pl rem =>
       scanStream fuel (length payload) pl 1 (Buf.at_ pl 0) rem
         (afterScanStream pid tid sec nsec id)) =
  Entry (makeEntry pid tid sec nsec id (Buf.at_ payload 0)
           (repeat x00 pad ++ payload) (S pad)) rest.
Proof.
  intros Hnz Hpad Hfuel. destruct pad as [|q].
  - cbn [repeat app]. rewrite withBytes_app by reflexivity.
    destruct fuel; cbn [scanStream]; rewrite Hnz; reflexivity.
  - destruct Hpad as [Hpad|Hpad]; [discriminate|].
    set (len := length payload) in *.
    set (A := firstn (len - S q) payload).
    set (B := skipn (len - S q) payload).
    assert (HAB : payload = A ++ B) by (symmetry; apply firstn_skipn).
    assert (HA : length A = len - S q)
      by (unfold A; rewrite length_firstn; fold len; lia).
    assert (HB : length B = S q)
      by (unfold B; rewrite length_skipn; fold len; lia).
    replace (repeat x00 (S q) ++ payload ++ rest)
      with ((repeat x00 (S q) ++ A) ++ (B ++ rest))
      by (rewrite <- !app_assoc, (app_assoc A B rest), <- HAB; reflexivity).
    rewrite withBytes_app by (rewrite length_app, repeat_length; lia).
    assert (H0 : Buf.at_ payload 0 = Buf.at_ A 0).
    { rewrite HAB. unfold Buf.at_. rewrite nth_error_app1 by lia. reflexivity. }
    destruct (Buf.at_ A 0) as [p|] eqn:Hp.
    2:{ exfalso. unfold Buf.at_ in Hp. apply nth_error_None in Hp. lia. }
    rewrite H0 in *. cbn [Buf.isZero] in Hnz.
    rewrite (@at_repeat_zero (S q) A 0) by lia.
    rewrite (@scanStream_zeros _ len (B ++ rest) q fuel _ 1 p); try lia.
    + unfold afterScanStream.
      replace (1 <? 1 + q + 1) with true by (symmetry; apply Nat.ltb_lt; lia).
      replace (1 + q + 1 - 1) with (S q) by lia.
      rewrite withBytes_app by exact HB.
      replace (1 + q + 1) with (S (S q)) by lia.
      rewrite <- app_assoc, <- HAB. reflexivity.
    + intros j Hj. apply at_repeat_zero. lia.
    + replace (1 + q) with (S q + 0) by lia. rewrite at_after_zeros. exact Hp.
    + exact Hnz.
Qed.

Lemma stepStream_frame tryRecover fuel f rest :
  wellFormed f -> fPad f <= fuel ->
  stepStream tryRecover fuel (frameBytes f ++ rest) = Entry (entryOf f) rest.
Proof.
  intros Hwf Hfuel.
  destruct (wellFormed_fields Hwf)
    as (Hlen & Hhs & Hpid & Htid & Hsec & Hnsec & Hl & Hid & Hnz & Hpad).
  unfold stepStream, frameBytes, headerBytes, entryOf, frameId.
  rewrite <- !app_assoc.
  rewrite takeBytes_app by exact Hlen.
  rewrite withBytes_app by exact Hhs.
  rewrite Hl.
  destruct Hid as [[Hv Hid]|[Hv Hid]]; rewrite Hv; cbn [Z.eqb negb andb Pos.eqb];
    rewrite withBytes_app by exact Hpid;
    rewrite withBytes_app by exact Htid;
    rewrite withBytes_app by exact Hsec;
    rewrite withBytes_app by exact Hnsec.
  - rewrite Hid. cbn [app]. now apply payload_frame.
  - rewrite withBytes_app by exact Hid. now apply payload_frame.
Qed.

Lemma frameBytes_length f : wellFormed f -> fPad f + 20 <= length (frameBytes f).
Proof.
  intros Hwf.
  destruct (wellFormed_fields Hwf)
    as (Hlen & Hhs & Hpid & Htid & Hsec & Hnsec & _).
  unfold frameBytes, headerBytes. rewrite !length_app, repeat_length. lia.
Qed.

(** A stream of well-formed frames, read against the stream: one entry per
    frame, and a clean end. *)
Lemma whileStream_frames tryRecover : forall frames fuel,
  Forall wellFormed frames ->
  length (framesBytes frames) < fuel ->
  whileStream tryRecover fuel (framesBytes frames) =
  (map entryOf frames, Finished).
Proof.
  induction frames as [|f fs IH]; intros fuel Hwf Hfuel;
    (destruct fuel as [|fuel]; [lia|]); cbn [whileStream].
  - reflexivity.
  - inversion Hwf as [|? ? Hf Hfs]; subst.
    unfold framesBytes in *. cbn [map concat] in *.
    rewrite length_app in Hfuel. pose proof (frameBytes_length Hf).
    rewrite stepStream_frame by (auto; lia).
    rewrite IH by (auto; lia). reflexivity.
Qed.

(* ================================================================== *)
(** ** The model has fuel enough *)

Lemma progress_withBytes bound n rem k :
  (forall b rest, length rest <= length rem -> progress bound (k b rest)) ->
  progress bound (withBytes n rem k).
Proof.
  intros Hk. unfold withBytes, takeBytes.
  destruct (n <=? length rem); [|exact I].
  apply Hk. rewrite length_skipn. lia.
Qed.

Lemma progress_scanStream bound len k :
  forall fuel payload priorityIndex priority rem,
    (Buf.isZero priority = true ->
     1 + length rem + (length payload - priorityIndex) <= fuel) ->
    (forall payload' priorityIndex' priority' rest,
       length rest <= length rem ->
       progress bound (k payload' priorityIndex' priority' rest)) ->
    progress bound (scanStream fuel len payload priorityIndex priority rem k).
Proof.
  induction fuel as [|fuel IH]; intros payload priorityIndex priority rem Hfuel Hk;
    cbn [scanStream]; destruct (Buf.isZero priority) eqn:Hz;
    try (apply Hk; lia).
  - specialize (Hfuel eq_refl). lia.
  - specialize (Hfuel eq_refl).
    assert (Hin : Buf.isZero (Buf.at_ payload priorityIndex) = true ->
                  priorityIndex < length payload).
    { intros H. destruct (Buf.at_ payload priorityIndex) eqn:E; [|discriminate].
      apply nth_error_Some. unfold Buf.at_ in E. congruence. }
    destruct (len <=? S priorityIndex).
    + unfold withBytes, takeBytes.
      destruct (len <=? length rem) eqn:Hlen; [|exact I].
      apply Nat.leb_le in Hlen. apply IH.
      * intros H. apply Hin in H.
        rewrite length_skipn, length_app, length_firstn. lia.
      * intros p i pr rest Hrest. apply Hk.
        rewrite length_skipn in Hrest. lia.
    + apply IH; [|exact Hk]. intros H. apply Hin in H. lia.
Qed.

(** One iteration with fuel enough for the bytes left does not run out of
    fuel, and an entry takes bytes off the stream. *)
Lemma progress_stepStream tryRecover fuel rem :
  length rem <= fuel ->
  progress (length rem) (stepStream tryRecover fuel rem).
Proof.
  intros Hfuel. unfold stepStream, takeBytes at 1.
  destruct (2 <=? length rem) eqn:H2.
  2:{ destruct (length rem =? 0); exact I. }
  apply Nat.leb_le in H2.
  assert (Hlen : length (skipn 2 rem) + 2 <= length rem)
    by (rewrite length_skipn; lia).
  revert Hlen. generalize (skipn 2 rem). intros rem1 Hlen.
  set (len := Z.to_nat (Buf.readUInt16LE (firstn 2 rem))).
  apply progress_withBytes. intros b2 rem2 H2'.
  destruct (negb (Buf.readUInt16LE b2 =? 24)%Z && negb (Buf.readUInt16LE b2 =? 0)%Z).
  { destruct tryRecover; exact I. }
  apply progress_withBytes. intros b3 rem3 H3.
  apply progress_withBytes. intros b4 rem4 H4.
  apply progress_withBytes. intros b5 rem5 H5.
  apply progress_withBytes. intros b6 rem6 H6.
  assert (Hafter : forall id rem7, length rem7 <= length rem6 ->
    progress (length rem)
      (withBytes len rem7 (fun payload rem8 =>
         scanStream fuel len payload 1 (Buf.at_ payload 0) rem8
           (afterScanStream (Buf.readInt32LE b3) (Buf.readInt32LE b4)
              (Buf.readInt32LE b5) (Buf.readInt32LE b6) id)))).
  { intros id rem7 H7. unfold withBytes, takeBytes.
    destruct (len <=? length rem7) eqn:Hl; [|exact I].
    apply Nat.leb_le in Hl. apply progress_scanStream.
    - intros _. rewrite length_skipn, length_firstn. lia.
    - intros p i pr rest Hrest. rewrite length_skipn in Hrest.
      unfold afterScanStream. destruct (1 <? i).
      + apply progress_withBytes. intros b r Hr. cbn [progress]. lia.
      + cbn [progress]. lia. }
  destruct (Buf.readUInt16LE b2 =? 24)%Z.
  - apply progress_withBytes. intros b7 rem7 H7. apply Hafter. lia.
  - apply Hafter. lia.
Qed.

(** With more fuel than the stream has bytes, the loop does not run out of
    fuel. *)
Lemma whileStream_total tryRecover : forall fuel rem,
  length rem < fuel -> snd (whileStream tryRecover fuel rem) <> Starved.
Proof.
  induction fuel as [|fuel IH]; intros rem Hfuel; [lia|].
  cbn [whileStream].
  pose proof (@progress_stepStream tryRecover fuel rem ltac:(lia)) as Hp.
  destruct (stepStream tryRecover fuel rem) as [entry rest| | |e|];
    cbn [progress snd] in *; try discriminate; [|contradiction].
  apply IH. lia.
Qed.

(** [asIterator] ends: whatever the stream, the chunking and the schedule,
    with more fuel than the stream has bytes the model neither runs out of
    fuel nor waits for ever; the sequence ends cleanly or with an error. *)
Theorem iterate_total noError tryRecover fuel sched chunks :
  length (concat chunks) < fuel ->
  ending (snd (iterate noError tryRecover fuel sched chunks)) <> NoEnding.
Proof.
  intros Hfuel.
  pose proof (iterate_stream noError tryRecover fuel sched chunks) as H.
  cbv zeta in H. unfold decodeStream in H. injection H as _ ->.
  pose proof (@whileStream_total tryRecover fuel (concat chunks) Hfuel) as Hs.
  destruct (snd (whileStream tryRecover fuel (concat chunks)));
    cbn [endingOf]; try discriminate; [destruct noError; discriminate|].
  contradiction.
Qed.

(* ================================================================== *)
(** ** Chunking *)

Lemma concat_cutAt sizes : forall bytes, concat (cutAt sizes bytes) = bytes.
Proof.
  induction sizes as [|n sizes IH]; intros bytes; simpl.
  - apply app_nil_r.
  - rewrite IH. apply firstn_skipn.
Qed.

(** What [asIterator] yields and how it ends depends on the bytes of the
    stream only, not on how they are cut into chunks nor on when the chunks
    arrive. *)
Corollary iterate_concat noError tryRecover fuel sched sched' chunks chunks' :
  concat chunks = concat chunks' ->
  let o := iterate noError tryRecover fuel sched chunks in
  let o' := iterate noError tryRecover fuel sched' chunks' in
  fst o = fst o' /\ ending (snd o) = ending (snd o').
Proof.
  intros Heq. cbv zeta.
  pose proof (iterate_stream noError tryRecover fuel sched chunks) as H.
  pose proof (iterate_stream noError tryRecover fuel sched' chunks') as H'.
  cbv zeta in H, H'. rewrite Heq in H. rewrite <- H' in H.
  now injection H.
Qed.

(** A stream of well-formed frames, however cut and delivered: one entry
    per frame, in order, and a clean end. *)
Lemma iterate_frames noError tryRecover frames chunks sched fuel :
  Forall wellFormed frames ->
  concat chunks = framesBytes frames ->
  length (framesBytes frames) < fuel ->
  let o := iterate noError tryRecover fuel sched chunks in
  fst o = map entryOf frames /\ ending (snd o) = Clean.
Proof.
  intros Hwf Hchunks Hfuel. cbv zeta.
  pose proof (iterate_stream noError tryRecover fuel sched chunks) as H.
  cbv zeta in H. rewrite Hchunks in H. unfold decodeStream in H.
  rewrite whileStream_frames in H by assumption.
  cbn [fst snd endingOf] in H. now injection H.
Qed.

(** C1.  For a stream that is the bytes of N well-formed frames, cut into
    chunks in any way (also inside the integer fields) and delivered on any
    schedule, iterating [asIterator] yields exactly N entries, one per frame
    in order, and ends cleanly; the entries are those yielded when the same
    bytes arrive as one chunk. *)
Theorem asIterator_chunking (noError tryRecover : bool) (frames : list Frame)
    (chunks : list (list byte)) (sched sched1 : list nat) (fuel : nat) :
  Forall wellFormed frames ->
  concat chunks = framesBytes frames ->
  length (framesBytes frames) < fuel ->
  let o := iterate noError tryRecover fuel sched chunks in
  let o1 := iterate noError tryRecover fuel sched1 [framesBytes frames] in
  fst o = map entryOf frames /\
  length (fst o) = length frames /\
  ending (snd o) = Clean /\
  fst o = fst o1 /\
  ending (snd o) = ending (snd o1).
Proof.
  intros Hwf Hchunks Hfuel. cbv zeta.
  destruct (@iterate_frames noError tryRecover frames chunks sched fuel
              Hwf Hchunks Hfuel) as [Hes Hend].
  destruct (@iterate_frames noError tryRecover frames [framesBytes frames]
              sched1 fuel Hwf) as [Hes1 Hend1];
    [cbn [concat]; apply app_nil_r|exact Hfuel|].
  rewrite Hes, Hend, Hes1, Hend1, length_map. repeat split.
Qed.

Lemma asIterator_chunking_witness :
  let frames := [frameTest; framePadded; frameTest] in
  let chunks := cutAt [1; 2; 20; 4; 1; 30] (framesBytes frames) in
  let o := iterate false false 100 [1; 0; 2; 0; 0; 1] chunks in
  let o1 := iterate false false 100 [] [framesBytes frames] in
  fst o = map entryOf frames /\
  length (fst o) = length frames /\
  ending (snd o) = Clean /\
  fst o = fst o1 /\
  ending (snd o) = ending (snd o1).
Proof.
  apply (@asIterator_chunking false false [frameTest; framePadded; frameTest]).
  - repeat constructor.
  - vm_compute. reflexivity.
  - apply Nat.ltb_lt. reflexivity.
Defined.

(* ================================================================== *)
(** ** Padding that the scan handles *)

Lemma indexOfZeroAux_shift d : forall buf i,
  Buf.indexOfZeroAux buf (i + d) =
  option_map (fun j => j + d) (Buf.indexOfZeroAux buf i).
Proof.
  induction buf as [|b rest IH]; intros i; [reflexivity|].
  cbn [Buf.indexOfZeroAux]. destruct (Buf.byte_eqb b x00); [reflexivity|].
  apply (IH (S i)).
Qed.

Lemma lastByte_app a b : b <> [] -> lastByte (a ++ b) = lastByte b.
Proof.
  intros Hb. unfold lastByte. rewrite length_app.
  destruct b as [|x b]; [contradiction|]. cbn [length].
  rewrite Nat.add_succ_r. unfold Buf.at_.
  rewrite nth_error_app2 by lia. f_equal. lia.
Qed.

(** With [pad] zero bytes before a payload that is not empty and the
    priority index moved by [pad], the entry is the same. *)
Lemma makeEntry_padding pid tid sec nsec id priority pad payload :
  payload <> [] ->
  makeEntry pid tid sec nsec id priority (repeat x00 pad ++ payload) (S pad) =
  makeEntry pid tid sec nsec id priority payload 1.
Proof.
  intros Hne. unfold makeEntry.
  rewrite lastByte_app by exact Hne.
  assert (Hskip : forall n, skipn (n + pad) (repeat x00 pad ++ payload) = skipn n payload).
  { intros n. rewrite skipn_app, repeat_length, skipn_all2
      by (rewrite repeat_length; lia).
    cbn [app]. f_equal. lia. }
  unfold Buf.indexOfZero.
  replace (S pad) with (1 + pad) by lia. rewrite Hskip.
  rewrite indexOfZeroAux_shift.
  rewrite length_app, repeat_length.
  set (sep := match Buf.indexOfZeroAux (skipn 1 payload) 1 with
              | Some i => i | None => length payload end).
  replace (match option_map (fun j => j + pad) (Buf.indexOfZeroAux (skipn 1 payload) 1) with
           | Some i => i | None => pad + length payload end)
    with (sep + pad)
    by (unfold sep; destruct (Buf.indexOfZeroAux (skipn 1 payload) 1); simpl; lia).
  unfold Buf.slice.
  replace (sep + pad + 1) with ((sep + 1) + pad) by lia.
  rewrite !Hskip.
  replace (sep + pad - (1 + pad)) with (sep - 1) by lia.
  destruct (Buf.isZero (lastByte payload)).
  - replace (pad + length payload - 1 - (sep + 1 + pad))
      with (length payload - 1 - (sep + 1)) by lia.
    reflexivity.
  - replace (pad + length payload - (sep + 1 + pad))
      with (length payload - (sep + 1)) by lia.
    reflexivity.
Qed.

(** The padding of a well-formed frame does not show in its entry. *)
Lemma entryOf_padding f :
  wellFormed f ->
  entryOf f =
  entryOf (mkFrame (fLen f) (fHeaderSize f) (fPid f) (fTid f) (fSec f)
             (fNsec f) (fId f) 0 (fPayload f)).
Proof.
  intros Hwf.
  destruct (wellFormed_fields Hwf) as (_ & _ & _ & _ & _ & _ & _ & _ & _ & Hpad).
  unfold entryOf, frameId. cbn [fPid fTid fSec fNsec fHeaderSize fId fPayload fPad].
  destruct Hpad as [->|Hpad]; [reflexivity|].
  cbn [repeat app]. apply makeEntry_padding.
  destruct (fPayload f); [simpl in Hpad; lia|discriminate].
Qed.

(* ================================================================== *)
(** ** Entries *)

(** The concrete example of the specification: the payload
    [04 74 65 73 74 00] after a header of size 0 is priority 4, tag "test",
    empty message. *)
Example asIterator_example :
  fst (iterate false false 10 [] [frameBytes frameTest]) =
  [mkLogEntry 1 2 3 4 None (Some x04) [x74; x65; x73; x74] []].
Proof. reflexivity. Qed.

Lemma entryOf_id f :
  id (entryOf f) =
  match frameId f with
  | Some i => if (i =? 0)%Z then None else Some i
  | None => None
  end.
Proof. reflexivity. Qed.

(** C10.  A frame whose payload length is 0, anywhere in a stream of
    well-formed frames: the scan reads index 0 of the empty payload, which
    is [undefined]; nothing more is pulled (the frame is its header, and the
    frames after it are decoded as usual); the entry yielded for it has no
    priority, an empty tag and an empty message. *)
Theorem asIterator_empty_payload (noError tryRecover : bool)
    (before after : list Frame) (f : Frame)
    (chunks : list (list byte)) (sched : list nat) (fuel : nat) :
  Forall wellFormed (before ++ f :: after) ->
  Buf.readUInt16LE (fLen f) = 0%Z ->
  concat chunks = framesBytes (before ++ f :: after) ->
  length (framesBytes (before ++ f :: after)) < fuel ->
  let o := iterate noError tryRecover fuel sched chunks in
  fst o = map entryOf before ++ entryOf f :: map entryOf after /\
  ending (snd o) = Clean /\
  Buf.at_ (fPayload f) 0 = None /\
  frameBytes f = headerBytes f /\
  priority (entryOf f) = None /\
  tag (entryOf f) = [] /\
  msg (entryOf f) = [].
Proof.
  intros Hwf Hlen Hchunks Hfuel. cbv zeta.
  destruct (@iterate_frames noError tryRecover _ chunks sched fuel
              Hwf Hchunks Hfuel) as (Hes & Hend).
  rewrite Hes, Hend, map_app. cbn [map].
  assert (Hf : wellFormed f).
  { rewrite Forall_forall in Hwf. apply Hwf, in_elt. }
  destruct (wellFormed_fields Hf) as (_ & _ & _ & _ & _ & _ & Hl & _ & _ & Hpad).
  rewrite Hlen in Hl. cbn in Hl.
  destruct (fPayload f) as [|b payload] eqn:Hp; [|discriminate].
  destruct Hpad as [Hpad|Hpad]; [|simpl in Hpad; lia].
  unfold frameBytes, entryOf. rewrite Hp, Hpad. cbn [repeat app].
  rewrite app_nil_r. repeat split.
Qed.

Lemma asIterator_empty_payload_witness :
  let o := iterate false false 100 [0; 1]
             (cutAt [3; 19] (framesBytes [frameTest; frameEmpty; frameTest])) in
  fst o = map entryOf [frameTest] ++ entryOf frameEmpty :: map entryOf [frameTest] /\
  ending (snd o) = Clean /\
  Buf.at_ (fPayload frameEmpty) 0 = None /\
  frameBytes frameEmpty = headerBytes frameEmpty /\
  priority (entryOf frameEmpty) = None /\
  tag (entryOf frameEmpty) = [] /\
  msg (entryOf frameEmpty) = [].
Proof.
  apply (@asIterator_empty_payload false false [frameTest] [frameTest] frameEmpty).
  - repeat constructor.
  - reflexivity.
  - vm_compute. reflexivity.
  - apply Nat.ltb_lt. reflexivity.
Defined.

(** C2, at a frame whose header size is 24 and whose id field is 0: the four
    bytes of the id are read, the frame is decoded, and the entry yielded
    has no [id] property, as [if(id)] drops the value 0. *)
Theorem asIterator_id_zero_dropped :
  wellFormed frameIdZero /\
  Buf.readUInt16LE (fHeaderSize frameIdZero) = 24%Z /\
  frameId frameIdZero = Some 0%Z /\
  map id (fst (iterate false false 10 [] [frameBytes frameIdZero])) = [None] /\
  ending (snd (iterate false false 10 [] [frameBytes frameIdZero])) = Clean.
Proof. repeat split. Qed.

(** C3, at a payload of length 2 behind one zero byte of padding, followed by
    another frame.  Without the padding the two frames are decoded.  With it,
    the scan finds the priority at index 1, takes [priorityIndex >= len] for a
    payload full of padding and pulls 2 more bytes, then 1 more for the
    padding: 5 payload bytes are consumed instead of 3, the message holds a
    byte of the next frame, and the next frame is read two bytes late. *)
Theorem asIterator_short_padded_payload :
  let next := frameBytes frameTest in
  let plain := iterate false false 10 [] [frameBytes (frameShort 0) ++ next] in
  let padded := iterate false false 10 [] [frameBytes (frameShort 1) ++ next] in
  fst plain = [entryOf (frameShort 0); entryOf frameTest] /\
  ending (snd plain) = Clean /\
  map priority (fst padded) = [priority (entryOf (frameShort 0))] /\
  map tag (fst padded) = [tag (entryOf (frameShort 0))] /\
  msg (entryOf (frameShort 0)) = [] /\
  map msg (fst padded) = [[x06]] /\
  ending (snd padded) = Error (InvalidHeaderSize 1).
Proof. repeat split. Qed.

(** C4, at a stream of one byte that ends: the read of the payload length
    fails with one byte buffered, the error is propagated, and
    [clearBuffer] is not reached: the byte stays in the buffer and the
    pending read size stays 2. *)
Theorem asIterator_propagated_error_not_cleared :
  let o := iterate false false 10 [] [[x01]] in
  ending (snd o) = Error InsufficientBytesError /\
  finalState (snd o) = Some (mkParser [x01] 0 2 true).
Proof. repeat split. Qed.

(* ================================================================== *)
(** ** Streams that do not end at a frame boundary *)

Lemma framesBytes_length frames :
  Forall wellFormed frames -> 20 * length frames <= length (framesBytes frames).
Proof.
  induction 1 as [|f fs Hf Hfs IH]; [simpl; lia|].
  unfold framesBytes in *. cbn [map concat length]. rewrite length_app.
  pose proof (frameBytes_length Hf). lia.
Qed.

(** Well-formed frames followed by anything: the frames are decoded, then
    the rest. *)
Lemma whileStream_app tryRecover rest : forall frames fuel,
  Forall wellFormed frames ->
  length (framesBytes frames) <= fuel ->
  whileStream tryRecover fuel (framesBytes frames ++ rest) =
  (map entryOf frames ++ fst (whileStream tryRecover (fuel - length frames) rest),
   snd (whileStream tryRecover (fuel - length frames) rest)).
Proof.
  induction frames as [|f fs IH]; intros fuel Hwf Hfuel.
  - cbn [framesBytes map concat app length]. rewrite Nat.sub_0_r.
    now destruct (whileStream tryRecover fuel rest).
  - inversion Hwf as [|? ? Hf Hfs]; subst.
    unfold framesBytes in *. cbn [map concat length] in *.
    rewrite length_app in Hfuel. pose proof (frameBytes_length Hf).
    destruct fuel as [|fuel]; [lia|]. cbn [whileStream].
    rewrite <- app_assoc, stepStream_frame by (auto; lia).
    rewrite IH by (auto; lia). reflexivity.
Qed.

Lemma stepStream_invalid_header tryRecover fuel lenb hsb rest :
  length lenb = 2 -> length hsb = 2 ->
  Buf.readUInt16LE hsb <> 0%Z -> Buf.readUInt16LE hsb <> 24%Z ->
  stepStream tryRecover fuel (lenb ++ hsb ++ rest) =
  if tryRecover then Recovered else Fails (InvalidHeaderSize (Buf.readUInt16LE hsb)).
Proof.
  intros Hl Hh H0 H24. unfold stepStream.
  rewrite takeBytes_app by exact Hl. rewrite withBytes_app by exact Hh.
  apply Z.eqb_neq in H0, H24. rewrite H0, H24. reflexivity.
Qed.

(** C5.  After any well-formed frames, a frame whose header size is neither
    0 nor 24.  With recovery off the decoding loop fails with the invalid
    header size error, which [asIterator] propagates (or swallows under
    [noError]).  With recovery on, the entries of the frames before are all
    that is yielded, the sequence ends cleanly and the parser is cleared. *)
Theorem asIterator_invalid_header (noError : bool) (frames : list Frame)
    (lenb hsb rest : list byte)
    (chunks : list (list byte)) (sched : list nat) (fuel : nat) :
  Forall wellFormed frames ->
  length lenb = 2 -> length hsb = 2 ->
  Buf.readUInt16LE hsb <> 0%Z -> Buf.readUInt16LE hsb <> 24%Z ->
  concat chunks = framesBytes frames ++ lenb ++ hsb ++ rest ->
  length (concat chunks) < fuel ->
  let loop := iterateLoop false fuel sched chunks in
  let strict := iterate noError false fuel sched chunks in
  let recover := iterate noError true fuel sched chunks in
  fst loop = map entryOf frames /\
  ending (snd loop) = Error (InvalidHeaderSize (Buf.readUInt16LE hsb)) /\
  fst strict = map entryOf frames /\
  ending (snd strict) =
    (if noError then Clean else Error (InvalidHeaderSize (Buf.readUInt16LE hsb))) /\
  fst recover = map entryOf frames /\
  ending (snd recover) = Clean /\
  (exists s', finalState (snd recover) = Some s' /\ cleared s').
Proof.
  intros Hwf Hl Hh H0 H24 Hchunks Hfuel. cbv zeta.
  rewrite Hchunks, !length_app in Hfuel.
  pose proof (framesBytes_length Hwf) as Hn.
  assert (Hstream : forall tryRecover,
    whileStream tryRecover fuel (concat chunks) =
    (map entryOf frames, if tryRecover then GaveUp
                         else Failed (InvalidHeaderSize (Buf.readUInt16LE hsb)))).
  { intros tryRecover. rewrite Hchunks, whileStream_app by (auto; lia).
    destruct (fuel - length frames) as [|fuel'] eqn:Hf; [lia|].
    cbn [whileStream]. rewrite stepStream_invalid_header by assumption.
    destruct tryRecover; cbn [fst snd]; now rewrite app_nil_r. }
  pose proof (iterateLoop_stream false fuel sched chunks) as [Hes Hend].
  rewrite (Hstream false) in Hes, Hend. cbn [fst snd] in Hes, Hend.
  destruct Hend as (s' & sched' & evs' & Hend).
  pose proof (iterate_stream noError false fuel sched chunks) as Hs.
  pose proof (iterate_stream noError true fuel sched chunks) as Hr.
  pose proof (@asIterator_clean_cleared noError true fuel sched chunks) as Hc.
  cbv zeta in Hs, Hr, Hc.
  unfold decodeStream in Hs, Hr. rewrite Hstream in Hs, Hr.
  cbn [fst snd endingOf] in Hs, Hr.
  injection Hs as Hs1 Hs2. injection Hr as Hr1 Hr2.
  rewrite Hes, Hend, Hs1, Hs2, Hr1, Hr2. repeat split. now apply Hc.
Qed.

Lemma asIterator_invalid_header_witness :
  let chunks := cutAt [5; 16; 7] (frameBytes frameTest ++ [x06; x00] ++ [x05; x00] ++ [x01; x02; x03]) in
  let loop := iterateLoop false 100 [1; 1] chunks in
  let strict := iterate false false 100 [1; 1] chunks in
  let recover := iterate false true 100 [1; 1] chunks in
  fst loop = map entryOf [frameTest] /\
  ending (snd loop) = Error (InvalidHeaderSize (Buf.readUInt16LE [x05; x00])) /\
  fst strict = map entryOf [frameTest] /\
  ending (snd strict) = Error (InvalidHeaderSize (Buf.readUInt16LE [x05; x00])) /\
  fst recover = map entryOf [frameTest] /\
  ending (snd recover) = Clean /\
  (exists s', finalState (snd recover) = Some s' /\ cleared s').
Proof.
  apply (@asIterator_invalid_header false [frameTest] [x06; x00] [x05; x00]
           [x01; x02; x03]).
  - repeat constructor.
  - reflexivity.
  - reflexivity.
  - vm_compute. discriminate.
  - vm_compute. discriminate.
  - vm_compute. reflexivity.
  - apply Nat.ltb_lt. reflexivity.
Defined.

Lemma takeBytes_firstn n b rest m :
  length b = n ->
  takeBytes n (firstn m (b ++ rest)) =
  if n <=? m then Some (b, firstn (m - n) rest) else None.
Proof.
  intros <-. unfold takeBytes. rewrite length_firstn, length_app.
  destruct (length b <=? m) eqn:Hm.
  - apply Nat.leb_le in Hm.
    replace (length b <=? Nat.min m (length b + length rest)) with true
      by (symmetry; apply Nat.leb_le; lia).
    rewrite firstn_app.
    rewrite (firstn_all2 (n:=m) b) by lia.
    rewrite firstn_app, Nat.sub_diag, firstn_all, firstn_O, app_nil_r.
    rewrite skipn_app, skipn_all, Nat.sub_diag. reflexivity.
  - apply Nat.leb_gt in Hm.
    replace (length b <=? Nat.min m (length b + length rest)) with false
      by (symmetry; apply Nat.leb_gt; lia).
    reflexivity.
Qed.

Lemma withBytes_firstn n b rest m k :
  length b = n ->
  withBytes n (firstn m (b ++ rest)) k =
  if n <=? m then k b (firstn (m - n) rest) else Fails InsufficientBytesError.
Proof.
  intros H. unfold withBytes. rewrite takeBytes_firstn by exact H.
  now destruct (n <=? m).
Qed.

(** The payload of a well-formed frame cut short by the end of the stream. *)
Lemma payload_truncated pid tid sec nsec id fuel pad payload m :
  Buf.isZero (Buf.at_ payload 0) = false ->
  pad = 0 \/ pad + 1 < length payload ->
  m < pad + length payload ->
  m <= fuel ->
  withBytes (length payload) (firstn m (repeat x00 pad ++ payload))
    (fun pl rem =>
       scanStream fuel (length payload) pl 1 (Buf.at_ pl 0) rem
         (afterScanStream pid tid sec nsec id)) =
  Fails InsufficientBytesError.
Proof.
  intros Hnz Hpad Hm Hfuel.
  destruct (Nat.lt_ge_cases m (length payload)) as [Hlt|Hge].
  - unfold withBytes, takeBytes. rewrite length_firstn.
    replace (length payload <=? _) with false
      by (symmetry; apply Nat.leb_gt; lia).
    reflexivity.
  - destruct Hpad as [Hpad|Hpad]; [lia|].
    destruct pad as [|q]; [lia|].
    set (len := length payload) in *.
    set (A := firstn (len - S q) payload).
    set (B := skipn (len - S q) payload).
    assert (HAB : payload = A ++ B) by (symmetry; apply firstn_skipn).
    assert (HA : length A = len - S q)
      by (unfold A; rewrite length_firstn; fold len; lia).
    assert (HB : length B = S q)
      by (unfold B; rewrite length_skipn; fold len; lia).
    replace (repeat x00 (S q) ++ payload)
      with ((repeat x00 (S q) ++ A) ++ B)
      by (rewrite <- app_assoc, <- HAB; reflexivity).
    rewrite withBytes_firstn by (rewrite length_app, repeat_length; lia).
    replace (len <=? m) with true by (symmetry; apply Nat.leb_le; lia).
    assert (H0 : Buf.at_ payload 0 = Buf.at_ A 0).
    { rewrite HAB. unfold Buf.at_. rewrite nth_error_app1 by lia. reflexivity. }
    destruct (Buf.at_ A 0) as [p|] eqn:Hp.
    2:{ exfalso. unfold Buf.at_ in Hp. apply nth_error_None in Hp. lia. }
    rewrite H0 in *. cbn [Buf.isZero] in Hnz.
    rewrite (@at_repeat_zero (S q) A 0) by lia.
    rewrite (@scanStream_zeros _ len (firstn (m - len) B) q fuel _ 1 p); try lia.
    + unfold afterScanStream.
      replace (1 <? 1 + q + 1) with true by (symmetry; apply Nat.ltb_lt; lia).
      unfold withBytes, takeBytes. rewrite length_firstn.
      replace (1 + q + 1 - 1 <=? _) with false
        by (symmetry; apply Nat.leb_gt; lia).
      reflexivity.
    + intros j Hj. apply at_repeat_zero. lia.
    + replace (1 + q) with (S q + 0) by lia. rewrite at_after_zeros. exact Hp.
    + exact Hnz.
Qed.

Ltac cut_field H :=
  rewrite withBytes_firstn by exact H;
  match goal with
  | |- context [?n <=? ?m] =>
      destruct (n <=? m) eqn:?; [|reflexivity]
  end.

(** A well-formed frame cut short by the end of the stream: the iteration
    fails with [InsufficientBytesError], unless nothing of the frame is
    there. *)
Lemma stepStream_truncated tryRecover fuel f m :
  wellFormed f -> m < length (frameBytes f) -> m <= fuel ->
  stepStream tryRecover fuel (firstn m (frameBytes f)) =
  if m =? 0 then Stop else Fails InsufficientBytesError.
Proof.
  intros Hwf Hm Hfuel.
  destruct (wellFormed_fields Hwf)
    as (Hlen & Hhs & Hpid & Htid & Hsec & Hnsec & Hl & Hid & Hnz & Hpad).
  unfold frameBytes, headerBytes in Hm. rewrite !length_app, repeat_length in Hm.
  unfold stepStream, frameBytes, headerBytes.
  rewrite <- !app_assoc.
  rewrite takeBytes_firstn by exact Hlen.
  destruct (2 <=? m) eqn:H2.
  2:{ apply Nat.leb_gt in H2. rewrite length_firstn, !length_app.
      destruct m as [|[|m]]; [reflexivity| |lia].
      replace (Nat.min 1 _) with 1 by lia. reflexivity. }
  apply Nat.leb_le in H2.
  replace (m =? 0) with false by (symmetry; apply Nat.eqb_neq; lia).
  cut_field Hhs.
  rewrite Hl.
  destruct Hid as [[Hv Hid]|[Hv Hid]]; rewrite Hv; cbn [Z.eqb negb andb Pos.eqb];
    cut_field Hpid; cut_field Htid; cut_field Hsec; cut_field Hnsec;
    repeat match goal with H : (_ <=? _) = true |- _ => apply Nat.leb_le in H end.
  - rewrite Hid in *. cbn [app length] in *.
    apply payload_truncated; auto; lia.
  - cut_field Hid.
    repeat match goal with H : (_ <=? _) = true |- _ => apply Nat.leb_le in H end.
    apply payload_truncated; auto; lia.
Qed.

(** C7.  After any well-formed frames, a well-formed frame of which only the
    first [m] bytes arrive before the stream ends.  The entries yielded are
    those of the complete frames and nothing else.  When [m] is 0 the
    sequence ends cleanly; otherwise (one byte of the length field, the
    length field, any part of the header or of the payload) the read that
    runs short fails with [InsufficientBytesError], which is propagated, or
    swallowed under [noError]. *)
Theorem asIterator_truncated (noError tryRecover : bool) (frames : list Frame)
    (f : Frame) (m : nat)
    (chunks : list (list byte)) (sched : list nat) (fuel : nat) :
  Forall wellFormed frames ->
  wellFormed f ->
  m < length (frameBytes f) ->
  concat chunks = framesBytes frames ++ firstn m (frameBytes f) ->
  length (concat chunks) < fuel ->
  let o := iterate noError tryRecover fuel sched chunks in
  fst o = map entryOf frames /\
  ending (snd o) =
    (if (m =? 0) || noError then Clean else Error InsufficientBytesError) /\
  ending (snd (iterateLoop tryRecover fuel sched chunks)) =
    (if m =? 0 then Clean else Error InsufficientBytesError).
Proof.
  intros Hwf Hf Hm Hchunks Hfuel. cbv zeta.
  rewrite Hchunks, length_app, length_firstn in Hfuel.
  pose proof (framesBytes_length Hwf) as Hn.
  assert (Hstream :
    whileStream tryRecover fuel (concat chunks) =
    (map entryOf frames,
     if m =? 0 then Finished else Failed InsufficientBytesError)).
  { rewrite Hchunks, whileStream_app by (auto; lia).
    destruct (fuel - length frames) as [|fuel'] eqn:Hf'; [lia|].
    cbn [whileStream]. rewrite stepStream_truncated by (auto; lia).
    destruct (m =? 0); cbn [fst snd]; now rewrite app_nil_r. }
  pose proof (iterateLoop_stream tryRecover fuel sched chunks) as [Hes Hend].
  pose proof (iterate_stream noError tryRecover fuel sched chunks) as Hs.
  cbv zeta in Hs. unfold decodeStream in Hs. rewrite Hstream in Hs, Hend.
  cbn [fst snd] in Hs, Hend. injection Hs as Hs1 Hs2.
  rewrite Hs1, Hs2. split; [reflexivity|].
  destruct (m =? 0); cbn [endingOf orb].
  - destruct Hend as (s' & sched' & evs' & -> & _). repeat split.
  - destruct Hend as (s' & sched' & evs' & ->). repeat split.
Qed.

Lemma asIterator_truncated_witness :
  let chunks := cutAt [3; 21] (framesBytes [frameTest] ++ firstn 15 (frameBytes framePadded)) in
  let o := iterate false false 100 [1] chunks in
  fst o = map entryOf [frameTest] /\
  ending (snd o) =
    (if (15 =? 0) || false then Clean else Error InsufficientBytesError) /\
  ending (snd (iterateLoop false 100 [1] chunks)) =
    (if 15 =? 0 then Clean else Error InsufficientBytesError).
Proof.
  apply (@asIterator_truncated false false [frameTest] framePadded 15).
  - repeat constructor.
  - reflexivity.
  - apply Nat.ltb_lt. reflexivity.
  - vm_compute. reflexivity.
  - apply Nat.ltb_lt. reflexivity.
Defined.

(* ================================================================== *)
(** ** The discipline of the buffer *)

Lemma arrives_refl s : arrives s s.
Proof. split; [reflexivity|]. exists []. now rewrite app_nil_r. Qed.

Lemma arrives_trans s1 s2 s3 : arrives s1 s2 -> arrives s2 s3 -> arrives s1 s3.
Proof.
  intros [Hc1 [d1 Hb1]] [Hc2 [d2 Hb2]]. split; [congruence|].
  exists (d1 ++ d2). rewrite Hb2, Hb1. now rewrite app_assoc.
Qed.

Lemma arrives_bounded s s' : bounded s -> arrives s s' -> bounded s'.
Proof.
  unfold bounded. intros Hb [Hc [d Hd]]. rewrite Hc, Hd, length_app. lia.
Qed.

Lemma arrives_keeps s0 s s' : keeps s0 s -> arrives s s' -> keeps s0 s'.
Proof.
  intros ([d Hd] & Hc & Hb) Ha. pose proof (arrives_bounded Hb Ha) as Hb'.
  destruct Ha as [Hc' [d' Hd']]. split; [|split; [lia|exact Hb']].
  exists (d ++ d'). rewrite Hd', Hd. now rewrite app_assoc.
Qed.

Lemma keeps_refl s : bounded s -> keeps s s.
Proof.
  intros Hb. split; [|split; [lia|exact Hb]]. exists []. now rewrite app_nil_r.
Qed.

Lemma keeps_bounded s0 s : keeps s0 s -> bounded s.
Proof. now intros (_ & _ & Hb). Qed.

(** The notifications of the input only make bytes arrive. *)
Lemma deliver1_arrives e s : arrives s (deliver1 e s).
Proof.
  destruct e as [chunk|]; simpl.
  - unfold onData; simpl.
    destruct (_ <=? _); simpl; (split; [reflexivity|exists chunk; reflexivity]).
  - split; [reflexivity|]. exists []. simpl. now rewrite app_nil_r.
Qed.

Lemma deliver_arrives n : forall s evs s' evs',
  deliver n s evs = (s', evs') -> arrives s s'.
Proof.
  induction n as [|n IH]; intros s evs s' evs' Hd; simpl in Hd.
  - injection Hd as <- <-. apply arrives_refl.
  - destruct evs as [|e evs]; [injection Hd as <- <-; apply arrives_refl|].
    eapply arrives_trans; [apply deliver1_arrives|]. eapply IH, Hd.
Qed.

(** A waiting read is woken by [notify] only when the bytes it waits for are
    there, and the pending read size is then reset. *)
Lemma wake_arrives : forall evs s w s1 evs1,
  wake s evs = Some (w, s1, evs1) ->
  arrives s s1 /\
  match w with
  | Notified => bytesToRead s <= bytesAvailable s1 /\ bytesToRead s1 = 0
  | Aborted e => e = InputStreamEndedError /\ ended s1 = true
  end.
Proof.
  induction evs as [|e evs IH]; intros s w s1 evs1 Hw; simpl in Hw;
    [discriminate|].
  destruct e as [chunk|].
  - unfold onData in Hw; simpl in Hw.
    destruct (bytesToRead s <=? _) eqn:Hn.
    + injection Hw as <- <- <-. apply Nat.leb_le in Hn. split.
      * split; [reflexivity|exists chunk; reflexivity].
      * split; [exact Hn|reflexivity].
    + apply IH in Hw. simpl in Hw. destruct Hw as [Ha Hw]. split; [|exact Hw].
      eapply arrives_trans; [|exact Ha].
      split; [reflexivity|exists chunk; reflexivity].
  - injection Hw as <- <- <-. split; [|now split].
    split; [reflexivity|]. exists []. simpl. now rewrite app_nil_r.
Qed.

Lemma midFrame_bind {A B : Type} s0 (r : Res A) (f : A -> M B) :
  midFrame s0 r ->
  (forall a s, keeps s0 s -> midFrame s0 (f a s)) ->
  midFrame s0 (bindRes r f).
Proof.
  intros Hr Hf. induction Hr; simpl; try (constructor; auto; fail).
  now apply Hf.
Qed.

Lemma frameRun_bind {A : Type} s0 (r : Res A) (f : A -> M Flow) :
  midFrame s0 r ->
  (forall a s, keeps s0 s -> frameRun s0 (f a s)) ->
  frameRun s0 (bindRes r f).
Proof.
  intros Hr Hf. induction Hr; simpl; try (constructor; auto; fail).
  now apply Hf.
Qed.

Lemma midFrame_catch {A : Type} s0 (r : Res A) (h : Err -> M A) :
  midFrame s0 r ->
  (forall e s, keeps s0 s -> midFrame s0 (h e s)) ->
  midFrame s0 (catchRes r h).
Proof.
  intros Hr Hh. induction Hr; simpl; try (constructor; auto; fail).
  now apply Hh.
Qed.

Lemma midFrame_await {A : Type} s0 (r : Res A) :
  midFrame s0 r -> midFrame s0 (awaitRes r).
Proof.
  intros Hr. induction Hr; simpl; try (constructor; auto; fail).
  - constructor; [assumption|]. intros s' Ha. constructor.
    eapply arrives_keeps; eauto.
  - constructor; [assumption|]. intros s' Ha. constructor.
    eapply arrives_keeps; eauto.
Qed.

Lemma keeps_read s0 s n :
  keeps s0 s -> n <= bytesAvailable s -> keeps s0 (snd (_read n s)).
Proof.
  intros ([d Hd] & Hc & Hb) Hn. unfold bounded, bytesAvailable in *.
  split; [|split]; simpl; [eauto|lia|unfold bounded; simpl; lia].
Qed.

(** [read]: the fast path, the immediate failure, and the suspended read
    resumed by [notify] or [abort], all keep the buffer. *)
Lemma midFrame_read s0 n s : keeps s0 s -> midFrame s0 (read n s).
Proof.
  intros Hk. unfold read. destruct (bytesAvailable s <? n) eqn:Hav.
  - destruct (ended s) eqn:He; [now constructor|].
    constructor.
    + destruct Hk as (Hd & Hc & Hb). split; [|split]; simpl; auto.
    + intros w s' Ha Hn. simpl in Hn.
      assert (Hk' : keeps s0 s').
      { eapply arrives_keeps; [|exact Ha].
        destruct Hk as (Hd & Hc & Hb). split; [|split]; simpl; auto. }
      destruct w as [|e].
      * pose proof (@keeps_read s0 s' n Hk' (Hn eq_refl)) as Hr.
        unfold _read in *. simpl in *. now constructor.
      * destruct (isInputStreamEnded e); now constructor.
  - apply Nat.ltb_ge in Hav.
    pose proof (@keeps_read s0 s n Hk Hav) as Hr.
    unfold _read in *. simpl in *. now constructor.
Qed.

Lemma midFrame_reader {A : Type} s0 n (f : list byte -> A) s :
  keeps s0 s -> midFrame s0 (await (reader n f) s).
Proof.
  intros Hk. apply midFrame_await. unfold reader.
  apply midFrame_bind.
  - apply midFrame_await. now apply midFrame_read.
  - intros b s1 Hk1. now constructor.
Qed.

Lemma frameRun_afterScan s0 pid tid sec nsec id sc s :
  keeps s0 s -> frameRun s0 (afterScan pid tid sec nsec id sc s).
Proof.
  intros Hk. destruct sc as [[payload priorityIndex] priority].
  unfold afterScan. apply frameRun_bind.
  - destruct (1 <? priorityIndex).
    + apply midFrame_bind.
      * apply midFrame_await. now apply midFrame_read.
      * intros b s1 Hk1. now constructor.
    + now constructor.
  - intros payload' s1 Hk1. unfold bind, modify, yield, ret; simpl.
    now constructor.
Qed.

Lemma frameRun_scanPadding s0 pid tid sec nsec id :
  forall fuel len payload priorityIndex priority s,
    keeps s0 s ->
    frameRun s0
      ((sc <- scanPadding fuel len payload priorityIndex priority ;;
        afterScan pid tid sec nsec id sc) s).
Proof.
  induction fuel as [|fuel IH]; intros len payload priorityIndex priority s Hk;
    cbn [scanPadding]; destruct (Buf.isZero priority).
  - constructor.
  - exact (@frameRun_afterScan s0 pid tid sec nsec id
             (payload, priorityIndex, priority) s Hk).
  - destruct (len <=? S priorityIndex).
    + unfold bind at 1. unfold bind at 1.
      change (frameRun s0
                (bindRes (bindRes (await (read len) s)
                   (fun more => scanPadding fuel len (payload ++ more)
                                  (S priorityIndex) (Buf.at_ payload priorityIndex)))
                   (afterScan pid tid sec nsec id))).
      assert (Hm : midFrame s0 (await (read len) s))
        by (apply midFrame_await; now apply midFrame_read).
      induction Hm; simpl; try (constructor; auto; fail).
      now apply IH.
    + now apply IH.
  - exact (@frameRun_afterScan s0 pid tid sec nsec id
             (payload, priorityIndex, priority) s Hk).
Qed.

(** From the start of an iteration to its [yield], nothing is discarded from
    the buffer: the bytes of the frame being decoded stay where they were,
    and the roll happens once, when the whole frame has been consumed. *)
Lemma frameRun_iteration tryRecover fuel s0 :
  bounded s0 -> frameRun s0 (iteration tryRecover fuel s0).
Proof.
  intros Hb. pose proof (keeps_refl Hb) as Hk. unfold iteration.
  change readUInt16 with (reader 2 Buf.readUInt16LE).
  change readInt32 with (reader 4 Buf.readInt32LE).
  change readUInt32 with (reader 4 Buf.readUInt32LE).
  apply frameRun_bind.
  - apply midFrame_catch.
    + apply midFrame_bind; [now apply midFrame_reader|].
      intros a s Hs. now constructor.
    + intros e s Hs. unfold bind, get; simpl.
      destruct (isInsufficientBytes e && (bytesAvailable s =? 0));
        now constructor.
  - intros [lenZ|] s1 Hk1; [|now constructor].
    cbv zeta. apply frameRun_bind; [now apply midFrame_reader|].
    intros headerSize s2 Hk2.
    destruct (negb (headerSize =? 24)%Z && negb (headerSize =? 0)%Z).
    { destruct tryRecover; [|now constructor].
      unfold bind, modify, ret; simpl. now constructor. }
    apply frameRun_bind; [now apply midFrame_reader|]. intros pid s3 Hk3.
    apply frameRun_bind; [now apply midFrame_reader|]. intros tid s4 Hk4.
    apply frameRun_bind; [now apply midFrame_reader|]. intros sec s5 Hk5.
    apply frameRun_bind; [now apply midFrame_reader|]. intros nsec s6 Hk6.
    apply frameRun_bind.
    { destruct (headerSize =? 24)%Z; [|now constructor].
      apply midFrame_bind; [now apply midFrame_reader|].
      intros i s7 Hk7. now constructor. }
    intros id s7 Hk7.
    apply frameRun_bind.
    { apply midFrame_await. now apply midFrame_read. }
    intros payload s8 Hk8.
    now apply (@frameRun_scanPadding s0 pid tid sec nsec id).
Qed.

Lemma safe_bind {A B : Type} (r : Res A) (f : A -> M B) :
  safe r -> (forall a s, bounded s -> safe (f a s)) -> safe (bindRes r f).
Proof.
  intros Hr Hf. induction Hr; simpl; try (constructor; auto; fail).
  now apply Hf.
Qed.

Lemma safe_catch {A : Type} (r : Res A) (h : Err -> M A) :
  safe r -> (forall e s, bounded s -> safe (h e s)) -> safe (catchRes r h).
Proof.
  intros Hr Hh. induction Hr; simpl; try (constructor; auto; fail).
  now apply Hh.
Qed.

Lemma frameRun_safe s0 r : frameRun s0 r -> safe r.
Proof.
  induction 1 as [e s Hk|s Hk|s Hk|s k Hk _ IH|s k Hk _ IH|entry s k Hk Hcont|];
    try (constructor; eauto using keeps_bounded; fail).
  - constructor. unfold bounded; simpl. lia.
  - constructor; [unfold bounded; simpl; lia|].
    intros s' Ha. rewrite Hcont. constructor.
    eapply arrives_bounded; [|exact Ha]. unfold bounded; simpl. lia.
Qed.

Lemma safe_whileLoop tryRecover : forall fuel s,
  bounded s -> safe (whileLoop tryRecover fuel s).
Proof.
  induction fuel as [|fuel IH]; intros s Hb; cbn [whileLoop]; [constructor|].
  destruct (negb (ended s) || negb (bytesAvailable s =? 0)); [|now constructor].
  apply safe_bind.
  - eapply frameRun_safe, frameRun_iteration, Hb.
  - intros [|] s' Hb'; [now apply IH|now constructor].
Qed.

Lemma safe_asIterator noError tryRecover fuel s :
  bounded s -> safe (asIterator noError tryRecover fuel s).
Proof.
  intros Hb. unfold asIterator. apply safe_bind.
  - apply safe_catch; [now apply safe_whileLoop|].
    intros e s' Hb'. destruct noError; now constructor.
  - intros _ s' _. constructor. unfold bounded; simpl. lia.
Qed.

(** The event loop only ever resumes a read in the way [safe] foresees: the
    state a run ends in has its cursor inside the buffer. *)
Lemma safe_drive {A : Type} (r : Res A) :
  safe r ->
  forall sched evs s', finalState (snd (drive r sched evs)) = Some s' -> bounded s'.
Proof.
  induction 1 as [a s Hb|e s Hb|s k Hb _ IH|s k Hb _ IH|entry s k Hb _ IH|];
    intros sched evs s' Hfin; simpl in Hfin.
  - now injection Hfin as <-.
  - now injection Hfin as <-.
  - destruct (deliver (hd 0 sched) s evs) as [s1 evs1] eqn:Hd.
    eapply IH; [|exact Hfin]. eapply deliver_arrives, Hd.
  - destruct (wake s evs) as [[[w s1] evs1]|] eqn:Hw; [|discriminate].
    destruct (deliver (hd 0 sched) s1 evs1) as [s2 evs2] eqn:Hd.
    destruct (wake_arrives _ _ Hw) as [Ha Hn].
    pose proof (deliver_arrives _ _ _ Hd) as Ha2.
    eapply IH; [| |exact Hfin].
    + eapply arrives_trans; eauto.
    + intros ->. destruct Hn as [Hn _].
      apply deliver_available in Hd. lia.
  - destruct (deliver (hd 0 sched) s evs) as [s1 evs1] eqn:Hd.
    eapply IH; [eapply deliver_arrives, Hd|].
    unfold emit in Hfin. exact Hfin.
  - discriminate.
Qed.

(** C9.  From a parser whose cursor is inside its buffer: every operation
    (a chunk arriving, the end arriving, a read of bytes that are available,
    the roll, the clear) leaves the cursor inside the buffer, and so does
    every point of a run of [asIterator], resumed reads included, up to the
    state it ends in.  During an iteration nothing is discarded from the
    buffer until the iteration throws, breaks, or yields; the roll happens
    at the [yield], after the whole frame has been consumed, and drops the
    consumed prefix only. *)
Theorem buffer_discipline (noError tryRecover : bool) (fuel : nat) (s : Parser)
    (sched : list nat) (evs : list Event) :
  bounded s ->
  (forall data, bounded (fst (onData data s))) /\
  bounded (onEnd s) /\
  (forall n, n <= bytesAvailable s -> bounded (snd (_read n s))) /\
  bounded (rollBuffer s) /\
  bounded (clearBuffer s) /\
  safe (asIterator noError tryRecover fuel s) /\
  (forall s', finalState (snd (drive (asIterator noError tryRecover fuel s) sched evs))
              = Some s' -> bounded s') /\
  frameRun s (iteration tryRecover fuel s) /\
  buffer (rollBuffer s) = skipn (cursor s) (buffer s) /\
  bytesAvailable (rollBuffer s) = bytesAvailable s.
Proof.
  intros Hb.
  split. { intros data. eapply arrives_bounded; [exact Hb|].
           apply (deliver1_arrives (Data data)). }
  split. { exact Hb. }
  split. { intros n Hn. eapply keeps_bounded, keeps_read; [|exact Hn].
           now apply keeps_refl. }
  split. { unfold bounded; simpl. lia. }
  split. { unfold bounded; simpl. lia. }
  split. { now apply safe_asIterator. }
  split. { intros s'. apply safe_drive. now apply safe_asIterator. }
  split. { now apply frameRun_iteration. }
  split. { reflexivity. }
  unfold bytesAvailable, rollBuffer, Buf.sliceFrom; simpl.
  rewrite length_skipn. lia.
Qed.

Lemma buffer_discipline_witness :
  let s := mkParser [x06; x00; x00] 2 0 false in
  let evs := stream (cutAt [4; 9] (skipn 3 (frameBytes frameTest))) in
  (forall data, bounded (fst (onData data s))) /\
  bounded (onEnd s) /\
  (forall n, n <= bytesAvailable s -> bounded (snd (_read n s))) /\
  bounded (rollBuffer s) /\
  bounded (clearBuffer s) /\
  safe (asIterator false false 10 s) /\
  (forall s', finalState (snd (drive (asIterator false false 10 s) [1] evs))
              = Some s' -> bounded s') /\
  frameRun s (iteration false 10 s) /\
  buffer (rollBuffer s) = skipn (cursor s) (buffer s) /\
  bytesAvailable (rollBuffer s) = bytesAvailable s.
Proof.
  apply (@buffer_discipline false false 10 (mkParser [x06; x00; x00] 2 0 false)).
  unfold bounded. simpl. lia.
Defined.

(* ================================================================== *)
(** ** The exact-size read *)

Lemma _read_unread n t tevs rem :
  unread t tevs rem -> n <= bytesAvailable t ->
  fst (_read n t) = firstn n rem /\
  length (firstn n rem) = n /\
  unread (snd (_read n t)) tevs (skipn n rem).
Proof.
  intros (Hc & Hrem & He) Hav. unfold _read, Buf.slice, bytesAvailable in *.
  cbn [fst snd]. subst rem. split; [|split].
  - replace (cursor t + n - cursor t) with n by lia.
    rewrite firstn_app, length_skipn.
    replace (n - (length (buffer t) - cursor t)) with 0 by lia.
    simpl. now rewrite app_nil_r.
  - rewrite length_firstn, length_app, length_skipn. lia.
  - unfold unread; simpl. split; [lia|]. split; [|exact He].
    rewrite skipn_app, length_skipn.
    replace (n - (length (buffer t) - cursor t)) with 0 by lia.
    simpl. rewrite skipn_skipn. f_equal. f_equal. lia.
Qed.

Lemma deliver_idle n : forall s evs s' evs',
  bytesToRead s = 0 -> deliver n s evs = (s', evs') -> bytesToRead s' = 0.
Proof.
  induction n as [|n IH]; intros s evs s' evs' H0 Hd; simpl in Hd.
  - now injection Hd as <- <-.
  - destruct evs as [|e evs]; [now injection Hd as <- <-|].
    eapply IH; [|exact Hd]. destruct e as [chunk|]; simpl; [|exact H0].
    unfold onData; simpl. rewrite H0. reflexivity.
Qed.

(** C6.  [read(n)] on a parser with the stream [rem] still unread.  With [n]
    bytes available it returns the next [n] bytes at once and advances the
    cursor by [n].  With fewer available and the stream ended it throws
    [InsufficientBytesError] at once.  Otherwise it records [n] as the
    pending read size and suspends; whatever the chunks and the schedule, it
    is resumed with the next [n] bytes when the stream has them (the pending
    size reset to 0, the cursor advanced by [n]), and throws
    [InsufficientBytesError] when the stream ends before. *)
Theorem read_exact_size (n : nat) (s : Parser) (sched : list nat)
    (evs : list Event) (rem : list byte) :
  unread s evs rem ->
  if n <=? bytesAvailable s then
    read n s =
      Ret (firstn n rem)
          (mkParser (buffer s) (cursor s + n) (bytesToRead s) (ended s)) /\
    length (firstn n rem) = n /\
    firstn n rem = Buf.slice (cursor s) (cursor s + n) (buffer s)
  else if ended s then
    read n s = Raise InsufficientBytesError s
  else
    (exists k, read n s = Await (mkParser (buffer s) (cursor s) n false) k) /\
    if n <=? length rem then
      exists s' sched' evs',
        drive (read n s) sched evs =
          ([], Returned (firstn n rem) s' sched' evs') /\
        cursor s' = cursor s + n /\ bytesToRead s' = 0 /\
        unread s' evs' (skipn n rem)
    else
      exists s' sched' evs',
        drive (read n s) sched evs =
          ([], Threw InsufficientBytesError s' sched' evs') /\
        ended s' = true /\ cursor s' = cursor s.
Proof.
  intros Hu. unfold read.
  destruct (n <=? bytesAvailable s) eqn:Hav.
  - apply Nat.leb_le in Hav.
    replace (bytesAvailable s <? n) with false
      by (symmetry; apply Nat.ltb_ge; lia).
    destruct (_read_unread Hu Hav) as (Hd & Hl & _).
    unfold _read in *. cbn [fst] in Hd. rewrite Hd. repeat split; auto.
  - apply Nat.leb_gt in Hav.
    replace (bytesAvailable s <? n) with true
      by (symmetry; apply Nat.ltb_lt; lia).
    destruct (ended s) eqn:Hended; [reflexivity|].
    split; [eexists; reflexivity|].
    pose proof Hu as (Hc & Hrem & He). rewrite Hended in He.
    destruct He as [chunks ->].
    set (s0 := mkParser (buffer s) (cursor s) n false).
    assert (Hu0 : unread s0 (stream chunks) rem).
    { unfold unread, s0; simpl. split; [exact Hc|].
      split; [exact Hrem|]. now exists chunks. }
    assert (Hav0 : bytesAvailable s0 < n) by exact Hav.
    destruct (@wake_unread chunks s0 rem n Hu0 eq_refl eq_refl Hav0)
      as [Hok Hshort].
    cbn [drive]. destruct (n <=? length rem) eqn:Hn.
    + apply Nat.leb_le in Hn.
      destruct (Hok Hn) as (s1 & evs1 & Hw & Hu1 & Hav1). rewrite Hw.
      destruct (wake_arrives _ _ Hw) as [[Hc1 _] [_ Hz1]].
      destruct (deliver (hd 0 sched) s1 evs1) as [s2 evs2] eqn:Hd.
      assert (Hu2 : unread s2 evs2 rem) by (eapply unread_deliver; eauto).
      assert (Hav2 : bytesAvailable s1 <= bytesAvailable s2)
        by (eapply deliver_available; eauto).
      assert (Hz2 : bytesToRead s2 = 0) by (eapply deliver_idle; eauto).
      assert (Hc2 : cursor s2 = cursor s1) by (eapply deliver_arrives; eauto).
      destruct (@_read_unread n s2 evs2 rem Hu2 ltac:(lia)) as (Hd2 & _ & Hu3).
      unfold _read in *. cbn [fst snd] in *. cbn [drive]. rewrite Hd2.
      eexists _, _, _. split; [reflexivity|]. cbn [cursor bytesToRead].
      split; [simpl in Hc1; lia|]. split; [exact Hz2|exact Hu3].
    + apply Nat.leb_gt in Hn.
      destruct (Hshort Hn) as (s1 & Hw & Hu1 & Hend1). rewrite Hw.
      destruct (wake_arrives _ _ Hw) as [[Hc1 _] _].
      cbn [deliver]. destruct (hd 0 sched); cbn [deliver isInputStreamEnded drive];
        eexists _, _, _; (split; [reflexivity|]); auto.
Qed.

Lemma read_exact_size_witness :
  let s := mkParser [x01; x02; x03] 1 0 false in
  let evs := stream [[x04]; [x05; x06]; [x07]] in
  (exists k, read 4 s = Await (mkParser (buffer s) (cursor s) 4 false) k) /\
  exists s' sched' evs',
    drive (read 4 s) [1] evs =
      ([], Returned (firstn 4 [x02; x03; x04; x05; x06; x07]) s' sched' evs') /\
    cursor s' = cursor s + 4 /\ bytesToRead s' = 0 /\
    unread s' evs' (skipn 4 [x02; x03; x04; x05; x06; x07]).
Proof.
  apply (@read_exact_size 4 (mkParser [x01; x02; x03] 1 0 false) [1]
           (stream [[x04]; [x05; x06]; [x07]]) [x02; x03; x04; x05; x06; x07]).
  unfold unread. simpl. split; [lia|]. split; [reflexivity|].
  exists [[x04]; [x05; x06]; [x07]]. reflexivity.
Defined.

(* ================================================================== *)
(** ** The line-feed corrector *)

Lemma byte_eqb_eq x y : Buf.byte_eqb x y = true <-> x = y.
Proof.
  unfold Buf.byte_eqb. split; [apply Byte.byte_dec_bl|apply Byte.byte_dec_lb].
Qed.

Lemma startsWith_app a b c : startsWith a b = true -> startsWith a (b ++ c) = true.
Proof.
  revert b. induction a as [|x a IH]; intros b H; [reflexivity|].
  destruct b as [|y b]; [discriminate|]. simpl in *.
  apply andb_true_iff in H. destruct H as [-> H]. simpl. now apply IH.
Qed.

Lemma startsWith_length a b : startsWith a b = true -> length a <= length b.
Proof.
  revert b. induction a as [|x a IH]; intros b H; simpl; [lia|].
  destruct b as [|y b]; [discriminate|]. simpl in *.
  apply andb_true_iff in H. destruct H as [_ H]. apply IH in H. lia.
Qed.

(** Whether the pattern starts a buffer is decided by the first bytes of the
    buffer, as many as the pattern has. *)
Lemma startsWith_app_long a b c :
  length a <= length b -> startsWith a (b ++ c) = startsWith a b.
Proof.
  revert b. induction a as [|x a IH]; intros b H; [reflexivity|].
  destruct b as [|y b]; [simpl in H; lia|]. simpl in *.
  rewrite IH by lia. reflexivity.
Qed.

(** A buffer shorter than the pattern that the pattern starts once bytes are
    appended is itself a start of the pattern. *)
Lemma startsWith_app_short a b c :
  startsWith a (b ++ c) = true -> length b < length a -> startsWith b a = true.
Proof.
  revert b. induction a as [|x a IH]; intros b H Hl; [simpl in Hl; lia|].
  destruct b as [|y b]; [reflexivity|]. simpl in *.
  apply andb_true_iff in H. destruct H as [Hxy H].
  apply byte_eqb_eq in Hxy. subst y.
  replace (Buf.byte_eqb x x) with true by (symmetry; now apply byte_eqb_eq).
  simpl. apply IH; [exact H|lia].
Qed.

Section Pattern.

Variable pattern : list byte.
Hypothesis pattern_nonempty : 1 <= length pattern.

Lemma substitute_skip replacement : forall skip input,
  substitute pattern replacement skip input = substitute pattern replacement 0 (skipn skip input).
Proof.
  induction skip as [|skip IH]; intros input; [reflexivity|].
  destruct input as [|b rest]; [reflexivity|]. simpl. apply IH.
Qed.

Lemma substitute_match replacement input :
  startsWith pattern input = true ->
  substitute pattern replacement 0 input = replacement ++ substitute pattern replacement 0 (skipn (length pattern) input).
Proof.
  intros H. destruct input as [|b rest].
  - apply startsWith_length in H. simpl in H. lia.
  - cbn [substitute]. rewrite H, substitute_skip. f_equal. f_equal.
    destruct (length pattern) as [|n]; [lia|]. simpl. now rewrite Nat.sub_0_r.
Qed.

(** Over [n] bytes at none of which the pattern starts, nothing changes. *)
Lemma substitute_plain replacement : forall n input,
  n <= length input ->
  (forall p, p < n -> startsWith pattern (skipn p input) = false) ->
  substitute pattern replacement 0 input = firstn n input ++ substitute pattern replacement 0 (skipn n input).
Proof.
  induction n as [|n IH]; intros input Hn Hno; [reflexivity|].
  destruct input as [|b rest]; [simpl in Hn; lia|].
  pose proof (Hno 0 ltac:(lia)) as H0. cbn [skipn] in H0.
  cbn [substitute firstn skipn app]. rewrite H0.
  f_equal. apply IH; [simpl in Hn; lia|].
  intros p Hp. apply (Hno (S p)). lia.
Qed.

Lemma substitute_short replacement input :
  length input < length pattern -> substitute pattern replacement 0 input = input.
Proof.
  intros Hl. rewrite (@substitute_plain replacement (length input) input).
  - rewrite firstn_all, skipn_all. simpl. apply app_nil_r.
  - lia.
  - intros p Hp.
    destruct (startsWith pattern (skipn p input)) eqn:E; [|reflexivity].
    apply startsWith_length in E. rewrite length_skipn in E. lia.
Qed.

Lemma indexOfAux_spec : forall buf i j,
  indexOfAux pattern buf i = Some j ->
  i <= j /\ j - i < length buf /\
  startsWith pattern (skipn (j - i) buf) = true /\
  (forall p, p < j - i -> startsWith pattern (skipn p buf) = false).
Proof.
  induction buf as [|b rest IH]; intros i j H; [discriminate|].
  cbn [indexOfAux] in H. destruct (startsWith pattern (b :: rest)) eqn:E.
  - injection H as <-. rewrite Nat.sub_diag. simpl. repeat split; auto; lia.
  - apply IH in H. destruct H as (H1 & H2 & H3 & H4).
    replace (j - i) with (S (j - S i)) by lia. simpl.
    repeat split; try lia; [exact H3|].
    intros [|p] Hp; [exact E|]. simpl. apply H4. lia.
Qed.

Lemma indexOfAux_none : forall buf i,
  indexOfAux pattern buf i = None ->
  forall p, p < length buf -> startsWith pattern (skipn p buf) = false.
Proof.
  induction buf as [|b rest IH]; intros i H p Hp; [simpl in Hp; lia|].
  cbn [indexOfAux] in H. destruct (startsWith pattern (b :: rest)) eqn:E;
    [discriminate|].
  destruct p as [|p]; [exact E|]. simpl. eapply IH; [exact H|simpl in Hp; lia].
Qed.

(** [indexOf]: the first position at or after [from] where the pattern
    lies. *)
Lemma indexOf_some chunk from j :
  indexOf pattern chunk from = Some j ->
  from <= j /\ j + length pattern <= length chunk /\
  startsWith pattern (skipn j chunk) = true /\
  (forall p, from <= p -> p < j -> startsWith pattern (skipn p chunk) = false).
Proof.
  unfold indexOf. intros H. apply indexOfAux_spec in H.
  destruct H as (H1 & H2 & H3 & H4).
  rewrite skipn_skipn in H3. replace (j - from + from) with j in H3 by lia.
  split; [exact H1|]. split.
  - apply startsWith_length in H3. rewrite length_skipn in *. lia.
  - split; [exact H3|]. intros p Hp1 Hp2.
    specialize (H4 (p - from) ltac:(lia)). rewrite skipn_skipn in H4.
    now replace (p - from + from) with p in H4 by lia.
Qed.

Lemma indexOf_none chunk from :
  indexOf pattern chunk from = None ->
  forall p, from <= p -> p < length chunk ->
            startsWith pattern (skipn p chunk) = false.
Proof.
  unfold indexOf. intros H p Hp1 Hp2.
  pose proof (@indexOfAux_none _ from H (p - from)) as H'.
  rewrite length_skipn, skipn_skipn in H'.
  replace (p - from + from) with p in H' by lia. apply H'. lia.
Qed.

Lemma searchSuffix_some target : forall count index i,
  searchSuffix count index target pattern = Some i ->
  index <= i /\ i < index + count /\
  startsWith (skipn i target) pattern = true /\
  (forall p, index <= p -> p < i ->
             startsWith (skipn p target) pattern = false).
Proof.
  induction count as [|count IH]; intros index i H; [discriminate|].
  cbn [searchSuffix] in H.
  destruct (startsWith (skipn index target) pattern) eqn:E.
  - injection H as <-. repeat split; auto; lia.
  - apply IH in H. destruct H as (H1 & H2 & H3 & H4).
    repeat split; try lia; [exact H3|].
    intros p Hp1 Hp2. destruct (Nat.eq_dec p index) as [->|Hne]; [exact E|].
    apply H4; lia.
Qed.

Lemma searchSuffix_none target : forall count index,
  searchSuffix count index target pattern = None ->
  forall p, index <= p -> p < index + count ->
            startsWith (skipn p target) pattern = false.
Proof.
  induction count as [|count IH]; intros index H p Hp1 Hp2; [lia|].
  cbn [searchSuffix] in H.
  destruct (startsWith (skipn index target) pattern) eqn:E; [discriminate|].
  destruct (Nat.eq_dec p index) as [->|Hne]; [exact E|].
  eapply IH; [exact H| |]; lia.
Qed.

(** The loop of [_transform] on a chunk, whatever follows the chunk in the
    stream: the pushed chunks are the substitution of the bytes up to the
    final [lastSegmentStart], the pattern does not occur in the chunk from
    there on, and an occurrence ends there unless the loop found none. *)
Lemma replaceLoop_stream : forall fuel chunk lastSegmentStart pushed final,
  length chunk - lastSegmentStart <= fuel ->
  replaceLoop fuel pattern chunk lastSegmentStart = (pushed, final) ->
  indexOf pattern chunk final = None /\
  lastSegmentStart <= final /\
  (final = lastSegmentStart \/
   (length pattern <= final /\ final <= length chunk /\
    startsWith pattern (skipn (final - length pattern) chunk) = true)) /\
  forall rest,
    substitute pattern originalLineFeed 0 (skipn lastSegmentStart chunk ++ rest) =
    concat pushed ++ substitute pattern originalLineFeed 0 (skipn final chunk ++ rest).
Proof.
  induction fuel as [|fuel IH]; intros chunk lss pushed final Hfuel Hloop;
    cbn [replaceLoop] in Hloop.
  - injection Hloop as <- <-. repeat split; auto.
    unfold indexOf. rewrite skipn_all2 by lia. reflexivity.
  - destruct (indexOf pattern chunk lss) as [idx|] eqn:Hidx.
    2:{ injection Hloop as <- <-. repeat split; auto. }
    destruct (replaceLoop fuel pattern chunk (idx + length pattern))
      as [pushed' final'] eqn:Hrec.
    injection Hloop as <- <-.
    pose proof Hidx as Hidx'. apply indexOf_some in Hidx'.
    destruct Hidx' as (H1 & H2 & H3 & H4).
    destruct (IH chunk (idx + length pattern) pushed' final' ltac:(lia) Hrec)
      as (Hnone & Hle & Hend & Hsub).
    split; [exact Hnone|]. split; [lia|]. split.
    { right. destruct Hend as [->|Hend]; [|exact Hend].
      replace (idx + length pattern - length pattern) with idx by lia.
      repeat split; auto; lia. }
    intros rest. cbn [concat].
    rewrite (@substitute_plain originalLineFeed (idx - lss)).
    + rewrite firstn_app, length_skipn.
      replace (idx - lss - (length chunk - lss)) with 0 by lia.
      rewrite firstn_O, app_nil_r.
      rewrite skipn_app, length_skipn, skipn_skipn.
      replace (idx - lss - (length chunk - lss)) with 0 by lia.
      replace (idx - lss + lss) with idx by lia. cbn [skipn].
      rewrite substitute_match by (now apply startsWith_app).
      rewrite skipn_app, length_skipn, skipn_skipn.
      replace (length pattern - (length chunk - idx)) with 0 by lia.
      cbn [skipn]. rewrite (Nat.add_comm (length pattern) idx), Hsub.
      unfold Buf.slice. now rewrite <- !app_assoc.
    + rewrite length_app, length_skipn. lia.
    + intros p Hp. rewrite skipn_app, length_skipn, skipn_skipn.
      replace (p - (length chunk - lss)) with 0 by lia. cbn [skipn].
      rewrite startsWith_app_long by (rewrite length_skipn; lia).
      apply H4; lia.
Qed.

(** The last segment of a chunk in which the pattern does not occur from
    [final] on, when [indexOfSubpattern] finds a held-back suffix at or after
    [final]. *)
Lemma tail_held chunk final i :
  indexOf pattern chunk final = None ->
  indexOfSubpattern chunk pattern = Some i ->
  final <= i ->
  length (skipn i chunk) < length pattern /\
  forall rest,
    substitute pattern originalLineFeed 0 (skipn final chunk ++ rest) =
    Buf.slice final i chunk ++
    substitute pattern originalLineFeed 0 (skipn i chunk ++ rest).
Proof.
  intros Hnone Hsub Hle. unfold indexOfSubpattern in Hsub.
  apply searchSuffix_some in Hsub. destruct Hsub as (H1 & H2 & H3 & H4).
  split; [rewrite length_skipn; lia|]. intros rest.
  rewrite (@substitute_plain originalLineFeed (i - final)).
  - rewrite firstn_app, length_skipn.
    replace (i - final - (length chunk - final)) with 0 by lia.
    rewrite firstn_O, app_nil_r.
    rewrite skipn_app, length_skipn, skipn_skipn.
    replace (i - final - (length chunk - final)) with 0 by lia.
    replace (i - final + final) with i by lia. reflexivity.
  - rewrite length_app, length_skipn. lia.
  - intros p Hp. rewrite skipn_app, length_skipn, skipn_skipn.
    replace (p - (length chunk - final)) with 0 by lia. cbn [skipn].
    destruct (startsWith pattern (skipn (p + final) chunk ++ rest)) eqn:E;
      [|reflexivity].
    exfalso.
    destruct (Nat.le_gt_cases (length pattern) (length (skipn (p + final) chunk)))
      as [Hlong|Hshort].
    + rewrite startsWith_app_long in E by exact Hlong.
      rewrite (@indexOf_none chunk final Hnone (p + final)) in E;
        [discriminate|lia|lia].
    + apply startsWith_app_short in E; [|exact Hshort].
      rewrite length_skipn in Hshort.
      rewrite H4 in E; [discriminate|lia|lia].
Qed.

(** The same when [indexOfSubpattern] finds nothing to hold back. *)
Lemma tail_free chunk final :
  indexOf pattern chunk final = None ->
  indexOfSubpattern chunk pattern = None ->
  forall rest,
    substitute pattern originalLineFeed 0 (skipn final chunk ++ rest) =
    skipn final chunk ++ substitute pattern originalLineFeed 0 rest.
Proof.
  intros Hnone Hsub rest. unfold indexOfSubpattern in Hsub.
  pose proof (@searchSuffix_none chunk _ _ Hsub) as Hno.
  rewrite (@substitute_plain originalLineFeed (length (skipn final chunk))).
  - rewrite firstn_app, Nat.sub_diag, firstn_all, firstn_O, app_nil_r.
    rewrite skipn_app, Nat.sub_diag, skipn_all. reflexivity.
  - rewrite length_app. lia.
  - intros p Hp. rewrite length_skipn in Hp.
    rewrite skipn_app, length_skipn, skipn_skipn.
    replace (p - (length chunk - final)) with 0 by lia. cbn [skipn].
    destruct (startsWith pattern (skipn (p + final) chunk ++ rest)) eqn:E;
      [|reflexivity].
    exfalso.
    destruct (Nat.le_gt_cases (length pattern) (length (skipn (p + final) chunk)))
      as [Hlong|Hshort].
    + rewrite startsWith_app_long in E by exact Hlong.
      rewrite (@indexOf_none chunk final Hnone (p + final)) in E;
        [discriminate|lia|lia].
    + apply startsWith_app_short in E; [|exact Hshort].
      rewrite length_skipn in Hshort.
      rewrite Hno in E; [discriminate|lia|lia].
Qed.

End Pattern.

Lemma replacedLineFeed_nonempty win32 : 1 <= length (replacedLineFeed win32).
Proof. destruct win32; simpl; lia. Qed.

Lemma startsWith_firstn a : forall b,
  startsWith a b = true -> a = firstn (length a) b.
Proof.
  induction a as [|x a IH]; intros b H; [reflexivity|].
  destruct b as [|y b]; [discriminate|]. cbn [startsWith] in H.
  apply andb_true_iff in H. destruct H as [Hxy H].
  apply byte_eqb_eq in Hxy. subst y. cbn [length firstn]. f_equal.
  now apply IH.
Qed.

(** A proper start of the pattern holds carriage returns only. *)
Lemma replacedLineFeed_start win32 a j :
  startsWith a (replacedLineFeed win32) = true ->
  length a < length (replacedLineFeed win32) ->
  nth_error a j <> Some x0a.
Proof.
  intros H Hl. apply startsWith_firstn in H. rewrite H. clear H.
  destruct win32; cbn [replacedLineFeed length] in *.
  - destruct (length a) as [|[|[|n]]]; [| | |lia];
      destruct j as [|[|[|j]]]; cbn; discriminate.
  - destruct (length a) as [|[|n]]; [| |lia];
      destruct j as [|[|j]]; cbn; discriminate.
Qed.

(** The pattern ends with a line feed. *)
Lemma replacedLineFeed_end win32 buf :
  startsWith (replacedLineFeed win32) buf = true ->
  nth_error buf (length (replacedLineFeed win32) - 1) = Some x0a.
Proof.
  intros H. apply startsWith_firstn in H.
  assert (Hn : nth_error (firstn (length (replacedLineFeed win32)) buf)
                 (length (replacedLineFeed win32) - 1) = Some x0a)
    by (rewrite <- H; now destruct win32).
  rewrite nth_error_firstn in Hn.
  destruct (_ <? _); [exact Hn|discriminate].
Qed.

(** The suffix that [indexOfSubpattern] finds starts at or after the end of
    the last occurrence replaced: it cannot reach back into the occurrence,
    whose last byte is a line feed. *)
Lemma held_after_final win32 chunk final i :
  final = 0 \/
  (length (replacedLineFeed win32) <= final /\ final <= length chunk /\
   startsWith (replacedLineFeed win32)
     (skipn (final - length (replacedLineFeed win32)) chunk) = true) ->
  indexOfSubpattern chunk (replacedLineFeed win32) = Some i ->
  final <= i.
Proof.
  intros [->|(Hp & Hf & Hocc)] Hsub; [lia|].
  destruct (Nat.le_gt_cases final i) as [|Hlt]; [assumption|exfalso].
  unfold indexOfSubpattern in Hsub.
  apply searchSuffix_some in Hsub; [|apply replacedLineFeed_nonempty].
  destruct Hsub as (H1 & H2 & H3 & _).
  apply replacedLineFeed_end in Hocc. rewrite nth_error_skipn in Hocc.
  replace (final - length (replacedLineFeed win32) +
           (length (replacedLineFeed win32) - 1)) with (i + (final - 1 - i))
    in Hocc by lia.
  rewrite <- nth_error_skipn in Hocc.
  assert (Hl : length (skipn i chunk) < length (replacedLineFeed win32))
    by (rewrite length_skipn; lia).
  pose proof (@replacedLineFeed_start win32 (skipn i chunk) (final - 1 - i) H3 Hl).
  contradiction.
Qed.

(** One call of [_transform], whatever follows in the stream: the bytes
    pushed are the correction of the bytes taken in, up to the bytes held
    back, which are fewer than the pattern has. *)
Lemma _transform_stream win32 last chunk pushed last' :
  _transform win32 last chunk = (pushed, last') ->
  length (heldBytes last') < length (replacedLineFeed win32) /\
  forall rest,
    fixLineFeeds win32 (heldBytes last ++ chunk ++ rest) =
    concat pushed ++ fixLineFeeds win32 (heldBytes last' ++ rest).
Proof.
  unfold _transform, fixLineFeeds.
  set (data := match last with Some held => held ++ chunk | None => chunk end).
  assert (Hdata : forall rest, heldBytes last ++ chunk ++ rest = data ++ rest).
  { intros rest. destruct last; simpl; [now rewrite app_assoc|reflexivity]. }
  pose proof (replacedLineFeed_nonempty win32) as Hne.
  destruct (replaceLoop (length data) (replacedLineFeed win32) data 0)
    as [pushed0 final] eqn:Hloop.
  apply replaceLoop_stream in Hloop; [|exact Hne|lia].
  destruct Hloop as (Hnone & _ & Hend & Hsub). cbn [skipn] in Hsub.
  destruct (final <? length data) eqn:Hlt.
  - apply Nat.ltb_lt in Hlt.
    destruct (indexOfSubpattern data (replacedLineFeed win32)) as [i|] eqn:Hi;
      intros H; injection H as <- <-; cbn [heldBytes].
    + assert (Hle : final <= i).
      { eapply held_after_final; [|exact Hi].
        destruct Hend as [->|Hend]; [now left|now right]. }
      destruct (@tail_held (replacedLineFeed win32) Hne data final i
                  Hnone Hi Hle) as [Hshort Htail].
      split; [exact Hshort|]. intros rest.
      rewrite Hdata, Hsub, Htail, concat_app. cbn [concat].
      now rewrite app_nil_r, <- app_assoc.
    + split; [simpl; lia|]. intros rest.
      rewrite Hdata, Hsub,
        (@tail_free (replacedLineFeed win32) Hne data final Hnone Hi), concat_app.
      cbn [concat].
      now rewrite app_nil_r, <- app_assoc.
  - apply Nat.ltb_ge in Hlt. intros H; injection H as <- <-. cbn [heldBytes].
    split; [simpl; lia|]. intros rest.
    rewrite Hdata, Hsub, skipn_all2 by exact Hlt. reflexivity.
Qed.

Lemma transformAll_stream win32 : forall chunks last,
  length (heldBytes last) < length (replacedLineFeed win32) ->
  concat (transformAll win32 last chunks) =
  fixLineFeeds win32 (heldBytes last ++ concat chunks).
Proof.
  induction chunks as [|chunk chunks IH]; intros last Hheld.
  - cbn [transformAll concat]. rewrite app_nil_r. unfold fixLineFeeds.
    rewrite substitute_short;
      [|apply replacedLineFeed_nonempty|exact Hheld].
    destruct last; simpl; [apply app_nil_r|reflexivity].
  - cbn [transformAll concat].
    destruct (_transform win32 last chunk) as [pushed last'] eqn:Ht.
    apply _transform_stream in Ht. destruct Ht as [Hheld' Hsub].
    rewrite concat_app, IH by exact Hheld'. symmetry. apply Hsub.
Qed.

(** A pattern cut one byte after its start, and one byte before its end. *)
Example corrector_split_example :
  corrected true [[x41; x0d]; [x0d; x0a; x42]] = [x41; x0d; x42] /\
  corrected true [[x41; x0d; x0d]; [x0a; x42]] = [x41; x0d; x42] /\
  corrected false [[x41; x0d]; [x0a; x42]] = [x41; x0d; x42] /\
  fixLineFeeds false [x41; x0d; x0a; x42] = [x41; x0d; x42] /\
  corrected false [[x41; x0d]; [x42; x0d]] = [x41; x0d; x42; x0d].
Proof. repeat split. Qed.

(** C8.  However the input is cut into chunks (also inside an occurrence of
    the pattern, one byte from its start or from its end), everything the
    corrector pushes, the flush at the end of the stream included, is, put
    together, what it pushes for the same bytes in one chunk; and it is the
    input with every occurrence of [replacedLineFeed] (CR LF, or CR CR LF on
    win32), taken from the left without overlap, replaced by one byte, every
    other byte kept in place.  But the byte written is 0D, a carriage return
    ([originalLineFeed] in the source), not the line feed 0A that the shell
    had replaced: 41 0D 0A 42 comes out as 41 0D 42, in one chunk or cut
    inside the pattern, where the line feed restored gives 41 0A 42. *)
Theorem corrector_writes_carriage_return :
  (forall win32 chunks,
     corrected win32 chunks = corrected win32 [concat chunks] /\
     corrected win32 chunks =
       substitute (replacedLineFeed win32) [x0d] 0 (concat chunks)) /\
  corrected false [[x41; x0d; x0a; x42]] = [x41; x0d; x42] /\
  corrected false [[x41; x0d]; [x0a; x42]] = [x41; x0d; x42] /\
  corrected true [[x41; x0d; x0d]; [x0a; x42]] = [x41; x0d; x42] /\
  restoreLineFeeds false [x41; x0d; x0a; x42] = [x41; x0a; x42] /\
  restoreLineFeeds true [x41; x0d; x0d; x0a; x42] = [x41; x0a; x42].
Proof.
  split; [|repeat split].
  intros win32 chunks.
  assert (H : forall cs, corrected win32 cs = fixLineFeeds win32 (concat cs)).
  { intros cs. unfold corrected. rewrite transformAll_stream; [reflexivity|].
    pose proof (replacedLineFeed_nonempty win32). simpl. lia. }
  split; [|apply H]. rewrite (H chunks), (H [concat chunks]).
  cbn [concat]. now rewrite app_nil_r.
Qed.

(* ================================================================== *)
(** ** Chunking and termination, for any input *)

(** X1. Whatever the bytes of the input are (frames or not, complete or
    not), the entries yielded and the way the iteration ends depend on the
    bytes alone: not on how they are cut into chunks, and not on when the
    chunks arrive. *)
Theorem asIterator_any_chunking noError tryRecover fuel sched sched' chunks chunks' :
  concat chunks = concat chunks' ->
  let o := iterate noError tryRecover fuel sched chunks in
  let o' := iterate noError tryRecover fuel sched' chunks' in
  fst o = fst o' /\ ending (snd o) = ending (snd o').
Proof.
  intros Hc o o'.
  pose proof (iterate_stream noError tryRecover fuel sched chunks) as H.
  pose proof (iterate_stream noError tryRecover fuel sched' chunks') as H'.
  cbv zeta in H, H'. rewrite <- Hc, <- H in H'. subst o o'.
  injection H' as H1 H2. now rewrite H1, H2.
Qed.

Lemma asIterator_any_chunking_witness :
  let o := iterate false false 100 [0; 2; 0; 1]
             [[x06; x00; x00]; []; [x00; x01]; skipn 5 (frameBytes frameTest); [x09]] in
  let o' := iterate false false 100 [] [frameBytes frameTest ++ [x09]] in
  fst o = fst o' /\ ending (snd o) = ending (snd o').
Proof.
  apply (@asIterator_any_chunking false false 100 [0; 2; 0; 1] []
           [[x06; x00; x00]; []; [x00; x01]; skipn 5 (frameBytes frameTest); [x09]]
           [frameBytes frameTest ++ [x09]]).
  reflexivity.
Defined.

(** X2. On an input that ends, the iteration ends: it never waits for ever,
    and the decoding loop and the padding scan together take fewer turns than
    the input has bytes (plus one), so that fuel above the length of the
    input is never used up. *)
Theorem asIterator_terminates noError tryRecover fuel sched chunks :
  length (concat chunks) < fuel ->
  ending (snd (iterate noError tryRecover fuel sched chunks)) <> NoEnding.
Proof.
  intro Hf.
  pose proof (iterate_stream noError tryRecover fuel sched chunks) as H.
  cbv zeta in H. unfold decodeStream in H. cbv zeta in H.
  injection H as _ H. rewrite H.
  pose proof (@whileStream_total tryRecover fuel (concat chunks) Hf) as Ht.
  destruct (snd (whileStream tryRecover fuel (concat chunks))) as [| |e|];
    simpl; try discriminate; [destruct noError; discriminate|congruence].
Qed.

Lemma asIterator_terminates_witness :
  ending (snd (iterate false true 30 [1; 0; 3]
                 [[x03; x00]; [x00; x00; x00]; repeat x00 20])) <> NoEnding.
Proof.
  apply (@asIterator_terminates false true 30 [1; 0; 3]
           [[x03; x00]; [x00; x00; x00]; repeat x00 20]).
  simpl. lia.
Defined.
(* ================================================================== *)
(** ** Every entry is sound *)

Lemma toZ_range b : (0 <= Buf.toZ b < 256)%Z.
Proof.
  unfold Buf.toZ. pose proof (Byte.to_N_bounded b). lia.
Qed.

Lemma num_range buf i : (0 <= Buf.num buf i < 256)%Z.
Proof. apply toZ_range. Qed.

Lemma readUInt32LE_range buf : (0 <= Buf.readUInt32LE buf < 4294967296)%Z.
Proof.
  unfold Buf.readUInt32LE.
  pose proof (num_range buf 0). pose proof (num_range buf 1).
  pose proof (num_range buf 2). pose proof (num_range buf 3). lia.
Qed.

Lemma readInt32LE_range buf : int32 (Buf.readInt32LE buf).
Proof.
  unfold int32, Buf.readInt32LE. pose proof (readUInt32LE_range buf).
  destruct (Buf.readUInt32LE buf <? 2147483648)%Z eqn:E;
    [apply Z.ltb_lt in E|apply Z.ltb_ge in E]; lia.
Qed.

Lemma indexOfZeroAux_some : forall buf i j,
  Buf.indexOfZeroAux buf i = Some j ->
  i <= j /\ ~ In x00 (firstn (j - i) buf).
Proof.
  induction buf as [|b buf IH]; intros i j H; [discriminate|].
  simpl in H. destruct (Buf.byte_eqb b x00) eqn:E.
  - injection H as <-. rewrite Nat.sub_diag. simpl. split; [lia|tauto].
  - apply IH in H. destruct H as [Hle Hno]. split; [lia|].
    replace (j - i) with (S (j - S i)) by lia. simpl.
    intros [Hb|Hin]; [|tauto].
    subst b. assert (Buf.byte_eqb x00 x00 = true) by (apply byte_eqb_eq; reflexivity).
    congruence.
Qed.

Lemma indexOfZeroAux_none : forall buf i,
  Buf.indexOfZeroAux buf i = None -> ~ In x00 buf.
Proof.
  induction buf as [|b buf IH]; intros i H; [tauto|].
  simpl in H. destruct (Buf.byte_eqb b x00) eqn:E; [discriminate|].
  intros [Hb|Hin]; [|exact (IH _ H Hin)].
  subst b. assert (Buf.byte_eqb x00 x00 = true) by (apply byte_eqb_eq; reflexivity).
  congruence.
Qed.

Lemma in_firstn (x : byte) n l : In x (firstn n l) -> In x l.
Proof.
  intro H. rewrite <- (firstn_skipn n l). apply in_or_app. now left.
Qed.

Lemma makeEntry_tag pid tid sec nsec id priority payload priorityIndex :
  ~ In x00 (tag (makeEntry pid tid sec nsec id priority payload priorityIndex)).
Proof.
  unfold makeEntry, Buf.indexOfZero, Buf.slice. simpl.
  destruct (Buf.indexOfZeroAux (skipn priorityIndex payload) priorityIndex)
    as [j|] eqn:E.
  - apply indexOfZeroAux_some in E. tauto.
  - apply indexOfZeroAux_none in E. intro H. apply in_firstn in H. tauto.
Qed.

Lemma makeEntry_sound pid tid sec nsec id priority payload priorityIndex :
  int32 pid -> int32 tid -> int32 sec -> int32 nsec ->
  match id with Some i => (0 <= i < 4294967296)%Z | None => True end ->
  Buf.isZero priority = false ->
  sound (makeEntry pid tid sec nsec id priority payload priorityIndex).
Proof.
  intros Hp Ht Hs Hn Hi Hz.
  split; [exact Hp|]. split; [exact Ht|]. split; [exact Hs|].
  split; [exact Hn|]. split; [|split].
  - unfold makeEntry. simpl. destruct id as [i|]; [|exact I].
    destruct (i =? 0)%Z eqn:E; [exact I|]. apply Z.eqb_neq in E. lia.
  - unfold makeEntry. simpl. intros ->. simpl in Hz.
    assert (Buf.byte_eqb x00 x00 = true) by (apply byte_eqb_eq; reflexivity).
    congruence.
  - apply makeEntry_tag.
Qed.

Lemma entryIs_withBytes P n rem k :
  (forall b rest, entryIs P (k b rest)) -> entryIs P (withBytes n rem k).
Proof.
  intro H. unfold withBytes. destruct (takeBytes n rem) as [[b rest]|]; [apply H|exact I].
Qed.

Lemma entryIs_scanStream P len k : forall fuel payload priorityIndex priority rem,
  (forall payload priorityIndex priority rem,
     Buf.isZero priority = false -> entryIs P (k payload priorityIndex priority rem)) ->
  entryIs P (scanStream fuel len payload priorityIndex priority rem k).
Proof.
  induction fuel as [|fuel IH]; intros payload priorityIndex priority rem H;
    simpl; destruct (Buf.isZero priority) eqn:E; try exact I; try (now apply H).
  destruct (len <=? S priorityIndex).
  - apply entryIs_withBytes. intros more rest. now apply IH.
  - now apply IH.
Qed.

Lemma stepStream_sound tryRecover fuel rem :
  entryIs sound (stepStream tryRecover fuel rem).
Proof.
  unfold stepStream. destruct (takeBytes 2 rem) as [[b r]|];
    [|destruct (length rem =? 0); exact I].
  apply entryIs_withBytes. intros hs r1.
  destruct (negb (Buf.readUInt16LE hs =? 24)%Z && negb (Buf.readUInt16LE hs =? 0)%Z);
    [destruct tryRecover; exact I|].
  do 4 (apply entryIs_withBytes; intros ? ?).
  assert (Hid : forall id r',
    match id with Some i => (0 <= i < 4294967296)%Z | None => True end ->
    entryIs sound
      (withBytes (Z.to_nat (Buf.readUInt16LE b)) r' (fun payload rem0 =>
         scanStream fuel (Z.to_nat (Buf.readUInt16LE b)) payload 1
           (Buf.at_ payload 0) rem0
           (fun payload0 priorityIndex priority rem1 =>
              if 1 <? priorityIndex
              then withBytes (priorityIndex - 1) rem1 (fun more rem2 =>
                     Entry (makeEntry (Buf.readInt32LE b0) (Buf.readInt32LE b1)
                              (Buf.readInt32LE b2) (Buf.readInt32LE b3) id
                              priority (payload0 ++ more) priorityIndex) rem2)
              else Entry (makeEntry (Buf.readInt32LE b0) (Buf.readInt32LE b1)
                            (Buf.readInt32LE b2) (Buf.readInt32LE b3) id
                            priority payload0 priorityIndex) rem1)))).
  { intros id r' Hi. apply entryIs_withBytes. intros payload r2.
    apply entryIs_scanStream. intros payload0 priorityIndex priority r3 Hz.
    destruct (1 <? priorityIndex).
    - apply entryIs_withBytes. intros more r4. simpl.
      apply makeEntry_sound; auto using readInt32LE_range.
    - simpl. apply makeEntry_sound; auto using readInt32LE_range. }
  destruct (Buf.readUInt16LE hs =? 24)%Z.
  - apply entryIs_withBytes. intros bi r'. apply Hid. apply readUInt32LE_range.
  - apply Hid. exact I.
Qed.

Lemma whileStream_sound tryRecover : forall fuel rem,
  Forall sound (fst (whileStream tryRecover fuel rem)).
Proof.
  induction fuel as [|fuel IH]; intro rem; simpl; [constructor|].
  pose proof (stepStream_sound tryRecover fuel rem) as H.
  destruct (stepStream tryRecover fuel rem) as [e rest| | | |]; simpl;
    try constructor; [exact H|apply IH].
Qed.

(** X3. Every entry that [asIterator] yields, on any input whatever (even
    one that is not a sequence of frames), is sound: pid, tid, sec and nsec
    are signed 32-bit integers, the id is absent or an unsigned 32-bit integer
    other than 0, the priority is never the byte 0, and the tag holds no
    byte 0. *)
Theorem asIterator_entries_sound noError tryRecover fuel sched chunks :
  Forall sound (fst (iterate noError tryRecover fuel sched chunks)).
Proof.
  pose proof (iterate_stream noError tryRecover fuel sched chunks) as H.
  cbv zeta in H. unfold decodeStream in H. cbv zeta in H.
  injection H as H _. rewrite H. apply whileStream_sound.
Qed.

(* ================================================================== *)
(** ** A stream that grows *)

Lemma takeBytes_more n rem more b rest :
  takeBytes n rem = Some (b, rest) ->
  takeBytes n (rem ++ more) = Some (b, rest ++ more).
Proof.
  unfold takeBytes. destruct (n <=? length rem) eqn:E; [|discriminate].
  apply Nat.leb_le in E. intro H. injection H as <- <-.
  rewrite length_app.
  replace (n <=? length rem + length more) with true
    by (symmetry; apply Nat.leb_le; lia).
  rewrite firstn_app, skipn_app.
  replace (n - length rem) with 0 by lia. simpl. now rewrite app_nil_r.
Qed.

Lemma extends_withBytes more n rem k :
  (forall b rest, extends more (k b rest) (k b (rest ++ more))) ->
  extends more (withBytes n rem k) (withBytes n (rem ++ more) k).
Proof.
  intro H. unfold withBytes at 1.
  destruct (takeBytes n rem) as [[b rest]|] eqn:E; [|exact I].
  unfold withBytes. rewrite (takeBytes_more _ _ more E). apply H.
Qed.

Lemma extends_scanStream more len k : forall fuel payload priorityIndex priority rem,
  (forall payload priorityIndex priority rem,
     extends more (k payload priorityIndex priority rem)
       (k payload priorityIndex priority (rem ++ more))) ->
  extends more (scanStream fuel len payload priorityIndex priority rem k)
    (scanStream fuel len payload priorityIndex priority (rem ++ more) k).
Proof.
  induction fuel as [|fuel IH]; intros payload priorityIndex priority rem H;
    simpl; destruct (Buf.isZero priority) eqn:E; try exact I; try (now apply H).
  destruct (len <=? S priorityIndex).
  - apply extends_withBytes. intros b rest. now apply IH.
  - now apply IH.
Qed.

Lemma stepStream_more tryRecover fuel rem more :
  extends more (stepStream tryRecover fuel rem)
    (stepStream tryRecover fuel (rem ++ more)).
Proof.
  unfold stepStream at 1.
  destruct (takeBytes 2 rem) as [[b r]|] eqn:E;
    [|destruct (length rem =? 0); exact I].
  unfold stepStream. rewrite (takeBytes_more _ _ more E).
  apply extends_withBytes. intros hs r1.
  destruct (negb (Buf.readUInt16LE hs =? 24)%Z && negb (Buf.readUInt16LE hs =? 0)%Z);
    [destruct tryRecover; exact I|].
  do 4 (apply extends_withBytes; intros ? ?).
  assert (Hid : forall id r',
    extends more
      (withBytes (Z.to_nat (Buf.readUInt16LE b)) r' (fun payload rem0 =>
         scanStream fuel (Z.to_nat (Buf.readUInt16LE b)) payload 1
           (Buf.at_ payload 0) rem0
           (fun payload0 priorityIndex priority rem1 =>
              if 1 <? priorityIndex
              then withBytes (priorityIndex - 1) rem1 (fun more rem2 =>
                     Entry (makeEntry (Buf.readInt32LE b0) (Buf.readInt32LE b1)
                              (Buf.readInt32LE b2) (Buf.readInt32LE b3) id
                              priority (payload0 ++ more) priorityIndex) rem2)
              else Entry (makeEntry (Buf.readInt32LE b0) (Buf.readInt32LE b1)
                            (Buf.readInt32LE b2) (Buf.readInt32LE b3) id
                            priority payload0 priorityIndex) rem1)))
      (withBytes (Z.to_nat (Buf.readUInt16LE b)) (r' ++ more) (fun payload rem0 =>
         scanStream fuel (Z.to_nat (Buf.readUInt16LE b)) payload 1
           (Buf.at_ payload 0) rem0
           (fun payload0 priorityIndex priority rem1 =>
              if 1 <? priorityIndex
              then withBytes (priorityIndex - 1) rem1 (fun more rem2 =>
                     Entry (makeEntry (Buf.readInt32LE b0) (Buf.readInt32LE b1)
                              (Buf.readInt32LE b2) (Buf.readInt32LE b3) id
                              priority (payload0 ++ more) priorityIndex) rem2)
              else Entry (makeEntry (Buf.readInt32LE b0) (Buf.readInt32LE b1)
                            (Buf.readInt32LE b2) (Buf.readInt32LE b3) id
                            priority payload0 priorityIndex) rem1)))).
  { intros id r'. apply extends_withBytes. intros payload r2.
    apply extends_scanStream. intros payload0 priorityIndex priority r3.
    destruct (1 <? priorityIndex).
    - apply extends_withBytes. intros m r4. reflexivity.
    - reflexivity. }
  destruct (Buf.readUInt16LE hs =? 24)%Z.
  - apply extends_withBytes. intros bi r'. apply Hid.
  - apply Hid.
Qed.

Lemma whileStream_more tryRecover more : forall fuel rem,
  exists tail,
    fst (whileStream tryRecover fuel (rem ++ more)) =
    fst (whileStream tryRecover fuel rem) ++ tail.
Proof.
  induction fuel as [|fuel IH]; intro rem; simpl; [now exists []|].
  pose proof (stepStream_more tryRecover fuel rem more) as H.
  destruct (stepStream tryRecover fuel rem) as [e rest| | | |]; simpl in *;
    try (eexists; reflexivity).
  rewrite H. simpl. destruct (IH rest) as [tail Ht]. exists tail.
  now rewrite Ht.
Qed.

(** X4. The entries decoded from a stream are the first entries decoded from
    any stream that goes on from the same bytes: what follows can add
    entries, and cannot change or remove one, whatever the chunking and the
    schedule of either run. *)
Theorem asIterator_prefix noError tryRecover fuel sched sched' chunks chunks' more :
  concat chunks' = concat chunks ++ more ->
  exists tail,
    fst (iterate noError tryRecover fuel sched' chunks') =
    fst (iterate noError tryRecover fuel sched chunks) ++ tail.
Proof.
  intro Hc.
  pose proof (iterate_stream noError tryRecover fuel sched chunks) as H.
  pose proof (iterate_stream noError tryRecover fuel sched' chunks') as H'.
  cbv zeta in H, H'. unfold decodeStream in H, H'. cbv zeta in H, H'.
  injection H as H _. injection H' as H' _. rewrite H, H', Hc.
  apply whileStream_more.
Qed.

Lemma asIterator_prefix_witness :
  exists tail,
    fst (iterate false false 100 [1; 0; 2]
           [frameBytes frameTest; frameBytes framePadded]) =
    fst (iterate false false 100 [] [frameBytes frameTest ++ [x05]]) ++ tail.
Proof.
  apply (@asIterator_prefix false false 100 [] [1; 0; 2]
           [frameBytes frameTest ++ [x05]]
           [frameBytes frameTest; frameBytes framePadded]
           (skipn 1 (frameBytes framePadded))).
  reflexivity.
Defined.
(* ================================================================== *)
(** ** Clean endings, padding, and the round trip of an entry *)

(** X5. Whenever iterating [asIterator] ends without an error (the end of
    the stream, a recovery from an invalid header, or an error swallowed under
    [noError]), the parser is left with an empty buffer, the cursor at 0 and
    no pending read. *)
Theorem asIterator_clean_ending_clears noError tryRecover fuel sched chunks :
  ending (snd (iterate noError tryRecover fuel sched chunks)) = Clean ->
  exists s',
    finalState (snd (iterate noError tryRecover fuel sched chunks)) = Some s' /\
    buffer s' = [] /\ cursor s' = 0 /\ bytesToRead s' = 0.
Proof.
  intro H. exact (asIterator_clean_cleared noError tryRecover fuel sched chunks H).
Qed.

Lemma asIterator_clean_ending_clears_witness :
  exists s',
    finalState (snd (iterate true false 100 [1; 1]
                       [frameBytes frameTest; [x05; x00; x07]])) = Some s' /\
    buffer s' = [] /\ cursor s' = 0 /\ bytesToRead s' = 0.
Proof.
  apply (@asIterator_clean_ending_clears true false 100 [1; 1]
           [frameBytes frameTest; [x05; x00; x07]]).
  reflexivity.
Defined.

Lemma unpadded_wellFormed f : wellFormed f -> wellFormed (unpadded f).
Proof.
  unfold wellFormed, wellFormedb. simpl.
  rewrite !andb_true_iff. intros H. repeat split; try tauto.
Qed.

Lemma unpadded_length f :
  length (frameBytes (unpadded f)) <= length (frameBytes f).
Proof.
  unfold frameBytes, headerBytes. simpl.
  rewrite !length_app, repeat_length. lia.
Qed.

Lemma unpadded_frames_length frames :
  length (framesBytes (map unpadded frames)) <= length (framesBytes frames).
Proof.
  induction frames as [|f fs IH]; [simpl; lia|].
  unfold framesBytes in *. cbn [map concat]. rewrite !length_app.
  pose proof (unpadded_length f). lia.
Qed.

(** X6. In a stream of well-formed frames (padding shorter than the payload
    by two bytes at least), the zero bytes of padding change nothing: the
    entries are those of the same frames with the padding removed, and both
    streams end cleanly. *)
Theorem asIterator_padding_ignored noError tryRecover frames chunks chunks'
    sched sched' fuel :
  Forall wellFormed frames ->
  concat chunks = framesBytes frames ->
  concat chunks' = framesBytes (map unpadded frames) ->
  length (framesBytes frames) < fuel ->
  let o := iterate noError tryRecover fuel sched chunks in
  let o' := iterate noError tryRecover fuel sched' chunks' in
  fst o = fst o' /\ ending (snd o) = Clean /\ ending (snd o') = Clean.
Proof.
  intros Hwf Hc Hc' Hfuel o o'.
  destruct (@iterate_frames noError tryRecover frames chunks sched fuel Hwf Hc Hfuel)
    as [He Hend].
  assert (Hwf' : Forall wellFormed (map unpadded frames)).
  { apply Forall_map. eapply Forall_impl; [|exact Hwf].
    intros f Hf. now apply unpadded_wellFormed. }
  assert (Hfuel' : length (framesBytes (map unpadded frames)) < fuel).
  { pose proof (unpadded_frames_length frames). lia. }
  destruct (@iterate_frames noError tryRecover (map unpadded frames) chunks'
              sched' fuel Hwf' Hc' Hfuel') as [He' Hend'].
  subst o o'. rewrite He, He', Hend, Hend'. split; [|split; reflexivity].
  rewrite map_map. apply map_ext_Forall.
  eapply Forall_impl; [|exact Hwf]. intros f Hf. now apply entryOf_padding.
Qed.

Lemma asIterator_padding_ignored_witness :
  let o := iterate false false 100 [1]
             [frameBytes frameTest; frameBytes framePadded] in
  let o' := iterate false false 100 []
              [frameBytes frameTest ++ frameBytes (unpadded framePadded)] in
  fst o = fst o' /\ ending (snd o) = Clean /\ ending (snd o') = Clean.
Proof.
  apply (@asIterator_padding_ignored false false [frameTest; framePadded]
           [frameBytes frameTest; frameBytes framePadded]
           [frameBytes frameTest ++ frameBytes (unpadded framePadded)]
           [1] [] 100).
  - repeat constructor.
  - reflexivity.
  - reflexivity.
  - simpl. lia.
Defined.

Lemma toZ_byteOfZ z : Buf.toZ (byteOfZ z) = (z mod 256)%Z.
Proof.
  unfold byteOfZ, Buf.toZ.
  pose proof (Z.mod_pos_bound z 256 ltac:(lia)) as Hm.
  destruct (Byte.of_N (Z.to_N (z mod 256))) as [b|] eqn:E.
  - apply Byte.to_of_N in E. rewrite E. lia.
  - apply Byte.of_N_None_iff in E. lia.
Qed.

Lemma readUInt16LE_uint16LE z :
  (0 <= z < 65536)%Z -> Buf.readUInt16LE (uint16LE z) = z.
Proof.
  intro H. unfold Buf.readUInt16LE, Buf.num, uint16LE. cbn [nth].
  rewrite !toZ_byteOfZ.
  rewrite (Z.mod_small (z / 256) 256)
    by (split; [apply Z.div_pos; lia|apply Z.div_lt_upper_bound; lia]).
  pose proof (Z.div_mod z 256 ltac:(lia)). lia.
Qed.

Lemma readUInt32LE_uint32LE z :
  (0 <= z < 4294967296)%Z -> Buf.readUInt32LE (uint32LE z) = z.
Proof.
  intro H. unfold Buf.readUInt32LE, Buf.num, uint32LE. cbn [nth].
  rewrite !toZ_byteOfZ.
  replace (z / 65536)%Z with (z / 256 / 256)%Z by (rewrite Z.div_div by lia; reflexivity).
  replace (z / 16777216)%Z with (z / 256 / 256 / 256)%Z
    by (rewrite !Z.div_div by lia; reflexivity).
  pose proof (Z.div_mod z 256 ltac:(lia)).
  pose proof (Z.div_mod (z / 256) 256 ltac:(lia)).
  pose proof (Z.div_mod (z / 256 / 256) 256 ltac:(lia)).
  pose proof (Z.mod_pos_bound z 256 ltac:(lia)).
  pose proof (Z.mod_pos_bound (z / 256) 256 ltac:(lia)).
  pose proof (Z.mod_pos_bound (z / 256 / 256) 256 ltac:(lia)).
  rewrite (Z.mod_small (z / 256 / 256 / 256) 256); lia.
Qed.

Lemma readInt32LE_int32LE z : int32 z -> Buf.readInt32LE (int32LE z) = z.
Proof.
  unfold int32, int32LE, Buf.readInt32LE. intro H.
  pose proof (Z.mod_pos_bound z 4294967296 ltac:(lia)) as Hm.
  rewrite (readUInt32LE_uint32LE Hm).
  destruct (Z_lt_dec z 0) as [Hneg|Hpos].
  - replace (z mod 4294967296)%Z with (z + 4294967296)%Z
      by (apply Z.mod_unique with (q := (-1)%Z); lia).
    replace (z + 4294967296 <? 2147483648)%Z with false
      by (symmetry; apply Z.ltb_ge; lia).
    lia.
  - rewrite Z.mod_small by lia.
    replace (z <? 2147483648)%Z with true by (symmetry; apply Z.ltb_lt; lia).
    reflexivity.
Qed.

Lemma indexOfZeroAux_app : forall t r i,
  ~ In x00 t -> Buf.indexOfZeroAux (t ++ x00 :: r) i = Some (i + length t).
Proof.
  induction t as [|b t IH]; intros r i Hno; simpl.
  - replace (Buf.byte_eqb x00 x00) with true
      by (symmetry; apply byte_eqb_eq; reflexivity).
    f_equal. lia.
  - destruct (Buf.byte_eqb b x00) eqn:E.
    + apply byte_eqb_eq in E. subst b. simpl in Hno. tauto.
    + rewrite IH by (simpl in Hno; tauto). f_equal. lia.
Qed.

Lemma lastByte_snoc l (x : byte) : lastByte (l ++ [x]) = Some x.
Proof.
  unfold lastByte, Buf.at_. rewrite length_app. simpl.
  replace (length l + 1) with (S (length l)) by lia.
  rewrite nth_error_app2 by lia. now rewrite Nat.sub_diag.
Qed.

Lemma makeEntry_payloadOf pid tid sec nsec id p tag msg :
  ~ In x00 tag ->
  makeEntry pid tid sec nsec id (Some p) (p :: tag ++ x00 :: msg ++ [x00]) 1 =
  mkLogEntry pid tid sec nsec
    (match id with
     | Some i => if (i =? 0)%Z then None else Some i
     | None => None
     end) (Some p) tag msg.
Proof.
  intro Hno. unfold makeEntry, Buf.indexOfZero.
  cbn [skipn]. rewrite (@indexOfZeroAux_app tag _ 1 Hno).
  assert (Hl : lastByte (p :: tag ++ x00 :: msg ++ [x00]) = Some x00).
  { replace (p :: tag ++ x00 :: msg ++ [x00])
      with ((p :: tag ++ x00 :: msg) ++ [x00])
      by (simpl; rewrite <- app_assoc; reflexivity).
    apply lastByte_snoc. }
  rewrite Hl.
  cbn [Buf.isZero]. 
  replace (Buf.byte_eqb x00 x00) with true
    by (symmetry; apply byte_eqb_eq; reflexivity).
  f_equal.
  - unfold Buf.slice. cbn [skipn]. replace (1 + length tag - 1) with (length tag) by lia.
    rewrite firstn_app, Nat.sub_diag, firstn_all. simpl. apply app_nil_r.
  - unfold Buf.slice. cbn [length]. rewrite !length_app. cbn [length].
    rewrite length_app. cbn [length].
    replace (1 + length tag + 1) with (S (length tag + 1)) by lia.
    cbn [skipn].
    replace (tag ++ x00 :: msg ++ [x00]) with ((tag ++ [x00]) ++ msg ++ [x00])
      by (rewrite <- app_assoc; reflexivity).
    rewrite skipn_app, length_app. cbn [length].
    rewrite skipn_all2 by (rewrite length_app; simpl; lia).
    replace (length tag + 1 - (length tag + 1)) with 0 by lia. cbn [skipn app].
    replace (S (length tag + S (length msg + 1)) - 1 - S (length tag + 1))
      with (length msg) by lia.
    rewrite firstn_app, Nat.sub_diag, firstn_all. simpl. apply app_nil_r.
Qed.

Lemma frameOf_wellFormed e : encodable e -> wellFormed (frameOf e).
Proof.
  intros (Hs & Hp & _ & _ & Hlen). destruct Hs as (_ & _ & _ & _ & Hid & Hp0 & _).
  unfold wellFormed, wellFormedb, frameOf. cbn [fLen fHeaderSize fPid fTid fSec fNsec fId fPad fPayload].
  rewrite readUInt16LE_uint16LE by lia. rewrite Z.eqb_refl.
  assert (Hh : ((Buf.readUInt16LE (uint16LE match id e with Some _ => 24 | None => 0 end) =? 0)%Z &&
                (length match id e with Some i => uint32LE i | None => [] end =? 0)
                || (Buf.readUInt16LE (uint16LE match id e with Some _ => 24 | None => 0 end) =? 24)%Z &&
                   (length match id e with Some i => uint32LE i | None => [] end =? 4)) = true).
  { destruct (id e); reflexivity. }
  rewrite Hh.
  assert (Hz : Buf.isZero (Buf.at_ (payloadOf e) 0) = false).
  { unfold payloadOf. destruct (priority e) as [p|]; [|congruence].
    simpl. destruct (Buf.byte_eqb p x00) eqn:E; [|reflexivity].
    apply byte_eqb_eq in E. subst p. congruence. }
  rewrite Hz. reflexivity.
Qed.

Lemma entryOf_frameOf e : encodable e -> entryOf (frameOf e) = e.
Proof.
  intros (Hs & Hp & _ & _ & Hlen).
  destruct Hs as (Hpid & Htid & Hsec & Hnsec & Hid & Hp0 & Htag).
  destruct e as [ePid eTid eSec eNsec eId ePriority eTag eMsg]. simpl in *.
  destruct ePriority as [p|]; [|congruence].
  unfold entryOf, frameId, frameOf, payloadOf.
  cbn [fLen fHeaderSize fPid fTid fSec fNsec fId fPad fPayload
       pid tid sec nsec id priority tag msg repeat app Buf.at_ nth_error].
  rewrite !readInt32LE_int32LE by assumption.
  rewrite makeEntry_payloadOf by assumption.
  f_equal. destruct eId as [i|].
  - rewrite readUInt16LE_uint16LE by lia. simpl.
    rewrite readUInt32LE_uint32LE by lia.
    destruct (i =? 0)%Z eqn:E; [apply Z.eqb_eq in E; lia|reflexivity].
  - rewrite readUInt16LE_uint16LE by lia. reflexivity.
Qed.

Lemma frames_of_entries entries :
  Forall encodable entries ->
  Forall wellFormed (map frameOf entries) /\
  map entryOf (map frameOf entries) = entries.
Proof.
  intro He. split.
  - apply Forall_map. eapply Forall_impl; [|exact He].
    intros e H. now apply frameOf_wellFormed.
  - rewrite map_map. rewrite <- (map_id entries) at 2. apply map_ext_Forall.
    eapply Forall_impl; [|exact He]. intros e H. now apply entryOf_frameOf.
Qed.

(** X7. Round trip.  Entries that are sound, have a priority, a tag and a
    message of bytes below 0x80 (where the string of a slice has the
    characters of its bytes) and fit the length field, laid out as frames
    (little-endian header, then priority, tag, zero, message, zero) and
    delivered in any chunks on any schedule, are decoded back exactly, in
    order, and the iteration ends cleanly. *)
Theorem asIterator_round_trip noError tryRecover entries chunks sched fuel :
  Forall encodable entries ->
  concat chunks = framesBytes (map frameOf entries) ->
  length (framesBytes (map frameOf entries)) < fuel ->
  let o := iterate noError tryRecover fuel sched chunks in
  fst o = entries /\ ending (snd o) = Clean.
Proof.
  intros He Hc Hfuel o.
  destruct (frames_of_entries He) as [Hwf Hmap].
  destruct (@iterate_frames noError tryRecover (map frameOf entries) chunks
              sched fuel Hwf Hc Hfuel) as [H1 H2].
  subst o. split; [|exact H2]. now rewrite H1.
Qed.

Lemma asIterator_round_trip_witness :
  let o := iterate false false 100 [0; 1]
             (cutAt [5; 9] (framesBytes (map frameOf [entryExample; entryExample]))) in
  fst o = [entryExample; entryExample] /\ ending (snd o) = Clean.
Proof.
  assert (He : encodable entryExample).
  { unfold encodable, sound, int32. simpl.
    repeat split; try lia; try discriminate.
    intros [H|[H|[H|[]]]]; discriminate. }
  apply (@asIterator_round_trip false false [entryExample; entryExample]
           (cutAt [5; 9] (framesBytes (map frameOf [entryExample; entryExample])))
           [0; 1] 100).
  - constructor; [exact He|constructor; [exact He|constructor]].
  - reflexivity.
  - vm_compute. lia.
Defined.
(* ================================================================== *)
(** ** The flags of [asIterator] *)

Lemma recovering_plain st : plain st -> recovering st = st.
Proof.
  destruct st as [e rest| | |e|]; simpl; try tauto. destruct e; tauto.
Qed.

Lemma plain_withBytes n rem k :
  (forall b rest, plain (k b rest)) -> plain (withBytes n rem k).
Proof.
  intro H. unfold withBytes.
  destruct (takeBytes n rem) as [[b rest]|]; [apply H|exact I].
Qed.

Lemma plain_scanStream len k : forall fuel payload priorityIndex priority rem,
  (forall payload priorityIndex priority rem,
     plain (k payload priorityIndex priority rem)) ->
  plain (scanStream fuel len payload priorityIndex priority rem k).
Proof.
  induction fuel as [|fuel IH]; intros payload priorityIndex priority rem H;
    simpl; destruct (Buf.isZero priority); try exact I; try apply H.
  destruct (len <=? S priorityIndex).
  - apply plain_withBytes. intros more rest. now apply IH.
  - now apply IH.
Qed.

Lemma recovering_withBytes n rem k k' :
  (forall b rest, k b rest = recovering (k' b rest)) ->
  withBytes n rem k = recovering (withBytes n rem k').
Proof.
  intro H. unfold withBytes.
  destruct (takeBytes n rem) as [[b rest]|]; [apply H|reflexivity].
Qed.

Lemma stepStream_recovering fuel rem :
  stepStream true fuel rem = recovering (stepStream false fuel rem).
Proof.
  unfold stepStream. destruct (takeBytes 2 rem) as [[b r]|];
    [|destruct (length rem =? 0); reflexivity].
  apply recovering_withBytes. intros hs r1.
  destruct (negb (Buf.readUInt16LE hs =? 24)%Z && negb (Buf.readUInt16LE hs =? 0)%Z);
    [reflexivity|].
  symmetry. apply recovering_plain.
  do 4 (apply plain_withBytes; intros ? ?).
  destruct (Buf.readUInt16LE hs =? 24)%Z; [apply plain_withBytes; intros ? ?|];
    (apply plain_withBytes; intros ? ?; apply plain_scanStream; intros ? ? ? ?;
     destruct (1 <? _); [apply plain_withBytes; intros ? ?|]; exact I).
Qed.

Lemma whileStream_recovering : forall fuel rem,
  fst (whileStream true fuel rem) = fst (whileStream false fuel rem) /\
  endingOf false (snd (whileStream true fuel rem)) =
  withFlags false true (endingOf false (snd (whileStream false fuel rem))).
Proof.
  induction fuel as [|fuel IH]; intro rem; simpl; [split; reflexivity|].
  rewrite stepStream_recovering.
  destruct (stepStream false fuel rem) as [e rest| | |err|]; simpl;
    try (split; reflexivity).
  - destruct (IH rest) as [H1 H2]. split; [now rewrite H1|exact H2].
  - destruct err; split; reflexivity.
Qed.

(** X8. The flags of [asIterator] never change an entry: with any flags
    the entries yielded are those yielded without flags, and the ending is
    that of the iteration without flags, except that [tryRecover] turns the
    error of an invalid header size, and [noError] every error, into a clean
    ending. *)
Theorem asIterator_flags noError tryRecover fuel sched sched' chunks :
  let o := iterate noError tryRecover fuel sched chunks in
  let o0 := iterate false false fuel sched' chunks in
  fst o = fst o0 /\
  ending (snd o) = withFlags noError tryRecover (ending (snd o0)).
Proof.
  intros o o0.
  pose proof (iterate_stream noError tryRecover fuel sched chunks) as H.
  pose proof (iterate_stream false false fuel sched' chunks) as H0.
  cbv zeta in H, H0. unfold decodeStream in H, H0. cbv zeta in H, H0.
  injection H as H1 H2. injection H0 as H3 H4. subst o o0.
  rewrite H1, H2, H3, H4.
  destruct (whileStream_recovering fuel (concat chunks)) as [Hr1 Hr2].
  destruct tryRecover.
  - rewrite Hr1. split; [reflexivity|].
    destruct noError.
    + destruct (snd (whileStream true fuel (concat chunks))) eqn:Et;
        destruct (snd (whileStream false fuel (concat chunks))) as [| |e0|] eqn:Ef;
        simpl in *; try reflexivity; try discriminate;
        try (destruct e0; simpl in *; first [reflexivity|discriminate]).
    + rewrite Hr2.
      destruct (snd (whileStream false fuel (concat chunks))) as [| |e0|];
        simpl; try reflexivity; destruct e0; reflexivity.
  - split; [reflexivity|].
    destruct (snd (whileStream false fuel (concat chunks))) as [| |e0|];
      simpl; try reflexivity; destruct noError; destruct e0; reflexivity.
Qed.
(* ================================================================== *)
(** ** [onData] and [rollBuffer] *)

(** X9. Two chunks received one after the other leave the parser in the
    state, and the last of them gives the notification, of the two chunks
    received as one. *)
Theorem onData_split d1 d2 s :
  onData d2 (fst (onData d1 s)) = onData (d1 ++ d2) s.
Proof.
  unfold onData, bytesAvailable. cbn [buffer cursor bytesToRead ended].
  destruct (bytesToRead s <=? length (buffer s ++ d1) - cursor s) eqn:E1;
    cbn [fst buffer cursor bytesToRead ended]; rewrite <- app_assoc.
  - apply Nat.leb_le in E1. rewrite !length_app in *.
    replace (bytesToRead s <=? length (buffer s) + (length d1 + length d2) - cursor s)
      with true by (symmetry; apply Nat.leb_le; lia).
    reflexivity.
  - reflexivity.
Qed.

(** X10. [rollBuffer] is invisible: on a parser whose cursor is inside the
    buffer, a read returns the same bytes after the roll as before, reading
    and rolling gives the same state in either order of the roll, a chunk
    that arrives is appended and notifies alike, and rolling twice is rolling
    once. *)
Theorem rollBuffer_transparent s n data :
  bounded s ->
  fst (_read n (rollBuffer s)) = fst (_read n s) /\
  rollBuffer (snd (_read n (rollBuffer s))) = rollBuffer (snd (_read n s)) /\
  onData data (rollBuffer s) =
    (rollBuffer (fst (onData data s)), snd (onData data s)) /\
  rollBuffer (rollBuffer s) = rollBuffer s.
Proof.
  unfold bounded. intro Hb. destruct s as [b c r e]. simpl in Hb.
  unfold _read, rollBuffer, onData, bytesAvailable, Buf.slice, Buf.sliceFrom.
  cbn [fst snd buffer cursor bytesToRead ended skipn].
  repeat split.
  - f_equal; lia.
  - rewrite skipn_skipn. replace (0 + n + c) with (c + n) by lia. reflexivity.
  - rewrite !length_app, length_skipn, Nat.sub_0_r.
    replace (length b - c + length data) with (length b + length data - c) by lia.
    destruct (r <=? length b + length data - c);
      cbn [fst snd buffer cursor bytesToRead ended];
      rewrite skipn_app; replace (c - length b) with 0 by lia; reflexivity.
Qed.

Lemma rollBuffer_transparent_witness :
  let s := mkParser [x01; x02; x03; x04; x05] 2 4 false in
  fst (_read 2 (rollBuffer s)) = fst (_read 2 s) /\
  rollBuffer (snd (_read 2 (rollBuffer s))) = rollBuffer (snd (_read 2 s)) /\
  onData [x06] (rollBuffer s) =
    (rollBuffer (fst (onData [x06] s)), snd (onData [x06] s)) /\
  rollBuffer (rollBuffer s) = rollBuffer s.
Proof.
  apply (@rollBuffer_transparent (mkParser [x01; x02; x03; x04; x05] 2 4 false)
           2 [x06]).
  unfold bounded. simpl. lia.
Defined.

(* ================================================================== *)
(** ** Detaching the input *)














(* ================================================================== *)
(** ** The wiring of [attachStream] *)

(** X12. What a parser decodes from an input depends only on the bytes that
    reach [onData]: with [fixLineFeeds] (the default) these are the bytes of
    the input with every [replacedLineFeed] replaced, whatever the chunks of
    the input (also when a chunk boundary falls inside the pattern or inside
    a frame); without, the bytes of the input. *)
Theorem attachStream_decodes noError tryRecover fuel sched sched' fixLF win32 chunks :
  let o := iterate noError tryRecover fuel sched (received fixLF win32 chunks) in
  let o' := iterate noError tryRecover fuel sched'
              [if fixLF then fixLineFeeds win32 (concat chunks)
               else concat chunks] in
  fst o = fst o' /\ ending (snd o) = ending (snd o').
Proof.
  apply iterate_concat. unfold received. cbn [concat]. rewrite app_nil_r.
  destruct fixLF; [|reflexivity].
  rewrite transformAll_stream.
  - reflexivity.
  - simpl. pose proof (replacedLineFeed_nonempty win32). lia.
Qed.
(* ================================================================== *)
(** ** More on the line-feed corrector *)

Lemma fixLineFeeds_plain win32 input :
  indexOf (replacedLineFeed win32) input 0 = None ->
  fixLineFeeds win32 input = input.
Proof.
  intro H. unfold fixLineFeeds.
  rewrite (@substitute_plain (replacedLineFeed win32)
             (replacedLineFeed_nonempty win32) [x0d]
             (length input) input (le_n _)).
  - rewrite firstn_all, skipn_all. simpl. apply app_nil_r.
  - intros p Hp.
    apply (@indexOf_none (replacedLineFeed win32)
             (replacedLineFeed_nonempty win32) input 0 H p);
      [lia|exact Hp].
Qed.

Lemma corrected_stream win32 chunks :
  corrected win32 chunks = fixLineFeeds win32 (concat chunks).
Proof.
  unfold corrected. rewrite transformAll_stream; [reflexivity|].
  simpl. pose proof (replacedLineFeed_nonempty win32). lia.
Qed.

(** X13. An input in which [replacedLineFeed] does not occur comes out
    unchanged, whatever its chunks (bytes held back at the end of a chunk are
    pushed with the next chunk or by [_flush]). *)
Theorem corrector_identity win32 chunks :
  indexOf (replacedLineFeed win32) (concat chunks) 0 = None ->
  corrected win32 chunks = concat chunks.
Proof.
  intro H. rewrite corrected_stream. now apply fixLineFeeds_plain.
Qed.

Lemma corrector_identity_witness :
  corrected false [[x41; x0d]; [x0d; x42; x0a]; []; [x0d]] =
  concat [[x41; x0d]; [x0d; x42; x0a]; []; [x0d]].
Proof.
  apply (@corrector_identity false [[x41; x0d]; [x0d; x42; x0a]; []; [x0d]]).
  reflexivity.
Defined.

Lemma substitute_length pattern replacement :
  length replacement <= length pattern ->
  forall input skip,
    length (substitute pattern replacement skip input) + min skip (length input)
    <= length input.
Proof.
  intro Hr. induction input as [|b rest IH]; intro skip; [simpl; lia|].
  cbn [substitute]. destruct skip as [|skip'].
  - destruct (startsWith pattern (b :: rest)) eqn:E.
    + apply startsWith_length in E. cbn [length] in *.
      rewrite length_app. specialize (IH (length pattern - 1)). lia.
    + specialize (IH 0). cbn [length]. lia.
  - specialize (IH skip'). cbn [length]. lia.
Qed.

(** X14. The corrector never pushes more bytes than it has received. *)
Theorem corrector_never_longer win32 chunks :
  length (corrected win32 chunks) <= length (concat chunks).
Proof.
  rewrite corrected_stream. unfold fixLineFeeds.
  pose proof (@substitute_length (replacedLineFeed win32) [x0d]
                (replacedLineFeed_nonempty win32) (concat chunks) 0).
  lia.
Qed.

Lemma indexOfSubpattern_some target pattern i :
  1 <= length pattern ->
  indexOfSubpattern target pattern = Some i ->
  length target + 1 - length pattern <= i /\ i < length target /\
  startsWith (skipn i target) pattern = true.
Proof.
  intros Hp E. unfold indexOfSubpattern in E.
  destruct (@searchSuffix_some pattern Hp target _ _ i E) as (H1 & H2 & H3 & _).
  repeat split; [exact H1|lia|exact H3].
Qed.

(** X15. [indexOfSubpattern(target, pattern)], for a pattern that is not
    empty, returns the first index among the last [pattern.length - 1]
    positions of the target from which the bytes of the target to its end are
    a start of the pattern, and -1 ([None]) exactly when there is none; in
    particular -1 for an empty target. *)
Theorem indexOfSubpattern_spec target pattern :
  1 <= length pattern ->
  match indexOfSubpattern target pattern with
  | Some i =>
      length target + 1 - length pattern <= i /\ i < length target /\
      startsWith (skipn i target) pattern = true /\
      forall p, length target + 1 - length pattern <= p -> p < i ->
                startsWith (skipn p target) pattern = false
  | None =>
      forall p, length target + 1 - length pattern <= p -> p < length target ->
                startsWith (skipn p target) pattern = false
  end.
Proof.
  intro Hp. unfold indexOfSubpattern.
  destruct (searchSuffix
              (length target - (length target + 1 - length pattern))
              (length target + 1 - length pattern) target pattern)
    as [i|] eqn:E.
  - destruct (@searchSuffix_some pattern Hp target _ _ i E) as (H1 & H2 & H3 & H4).
    repeat split; [exact H1|lia|exact H3|exact H4].
  - intros p H1 H2. apply (@searchSuffix_none pattern Hp target _ _ E p); lia.
Qed.

Lemma indexOfSubpattern_spec_witness :
  match indexOfSubpattern [x41; x0d; x0d] [x0d; x0d; x0a] with
  | Some i =>
      3 + 1 - 3 <= i /\ i < 3 /\
      startsWith (skipn i [x41; x0d; x0d]) [x0d; x0d; x0a] = true /\
      forall p, 3 + 1 - 3 <= p -> p < i ->
                startsWith (skipn p [x41; x0d; x0d]) [x0d; x0d; x0a] = false
  | None =>
      forall p, 3 + 1 - 3 <= p -> p < 3 ->
                startsWith (skipn p [x41; x0d; x0d]) [x0d; x0d; x0a] = false
  end.
Proof.
  apply (@indexOfSubpattern_spec [x41; x0d; x0d] [x0d; x0d; x0a]).
  simpl. lia.
Defined.

Lemma _transform_held win32 last chunk pushed h :
  _transform win32 last chunk = (pushed, Some h) ->
  h <> [] /\
  length h < length (replacedLineFeed win32) /\
  startsWith h (replacedLineFeed win32) = true /\
  exists before, heldBytes last ++ chunk = before ++ h.
Proof.
  unfold _transform.
  replace (match last with Some held => held ++ chunk | None => chunk end)
    with (heldBytes last ++ chunk) by (destruct last; reflexivity).
  set (data := heldBytes last ++ chunk).
  destruct (replaceLoop (length data) (replacedLineFeed win32) data 0)
    as [ps final].
  destruct (final <? length data); [|discriminate].
  destruct (indexOfSubpattern data (replacedLineFeed win32)) as [i|] eqn:E;
    [|discriminate].
  intro H. injection H as _ <-.
  destruct (@indexOfSubpattern_some data (replacedLineFeed win32) i
              (replacedLineFeed_nonempty win32) E) as (H1 & H2 & H3).
  pose proof (replacedLineFeed_nonempty win32) as Hn.
  unfold Buf.sliceFrom.
  assert (Hl : length (skipn i data) = length data - i) by apply length_skipn.
  repeat split.
  - intro H0. rewrite H0 in Hl. simpl in Hl. lia.
  - lia.
  - exact H3.
  - exists (firstn i data). symmetry. apply firstn_skipn.
Qed.

Lemma heldAfter_held win32 : forall chunks last input,
  held win32 last input ->
  held win32 (heldAfter win32 last chunks) (input ++ concat chunks).
Proof.
  induction chunks as [|chunk chunks IH]; intros last input H.
  - simpl. now rewrite app_nil_r.
  - cbn [heldAfter concat]. rewrite app_assoc. apply IH.
    destruct (_transform win32 last chunk) as [pushed [h|]] eqn:E;
      [|exact I].
    cbn [snd]. destruct (_transform_held _ _ _ E) as (H1 & H2 & H3 & [b Hb]).
    unfold held. repeat split; try assumption.
    destruct last as [h0|].
    + destruct H as (_ & _ & _ & [b0 Hb0]). simpl in Hb.
      exists (b0 ++ b). rewrite Hb0, <- !app_assoc. now rewrite Hb.
    + simpl in Hb. exists (input ++ b). rewrite Hb. now rewrite app_assoc.
Qed.

(** X16. Between two chunks the corrector holds back nothing, or the last
    bytes of what it has received so far when these could begin an
    occurrence of [replacedLineFeed]: at least one byte, fewer than the
    pattern has, and a start of the pattern (the byte 0D, or on win32 also
    0D 0D). *)
Theorem corrector_holds_back win32 chunks :
  held win32 (heldAfter win32 None chunks) (concat chunks).
Proof.
  apply (@heldAfter_held win32 chunks None []). exact I.
Qed.

Lemma transformed_stream win32 : forall chunks last rest,
  length (heldBytes last) < length (replacedLineFeed win32) ->
  length (heldBytes (heldAfter win32 last chunks))
    < length (replacedLineFeed win32) /\
  fixLineFeeds win32 (heldBytes last ++ concat chunks ++ rest) =
  concat (transformed win32 last chunks) ++
  fixLineFeeds win32 (heldBytes (heldAfter win32 last chunks) ++ rest).
Proof.
  induction chunks as [|chunk chunks IH]; intros last rest Hl.
  - split; [exact Hl|reflexivity].
  - cbn [concat transformed heldAfter].
    destruct (_transform win32 last chunk) as [pushed last'] eqn:E.
    destruct (_transform_stream _ _ _ E) as [Hl' Hs]. cbn [snd].
    destruct (IH last' rest Hl') as [Hl2 IH2]. split; [exact Hl2|].
    rewrite <- app_assoc, Hs, IH2, concat_app. now rewrite app_assoc.
Qed.

(** X17. The corrector streams the substitution: at any moment what it has
    pushed, followed by the bytes it holds back, is what it has received with
    every occurrence of [replacedLineFeed], from the left and without
    overlap, replaced by the byte 0D; and whatever bytes follow, what it has
    pushed is the beginning of that substitution of the whole input: no byte
    pushed has to be taken back. *)
Theorem corrector_streams win32 chunks rest :
  concat (transformed win32 None chunks) ++
    heldBytes (heldAfter win32 None chunks) =
  substitute (replacedLineFeed win32) [x0d] 0 (concat chunks) /\
  exists tail,
    substitute (replacedLineFeed win32) [x0d] 0 (concat chunks ++ rest) =
    concat (transformed win32 None chunks) ++ tail.
Proof.
  pose proof (replacedLineFeed_nonempty win32) as Hn.
  assert (H0 : length (heldBytes None) < length (replacedLineFeed win32))
    by (simpl; lia).
  split.
  - destruct (@transformed_stream win32 chunks None [] H0) as [Hl H].
    unfold fixLineFeeds in H. cbn [heldBytes app] in H.
    rewrite !app_nil_r in H. rewrite H. f_equal.
    symmetry. apply substitute_short; [exact Hn|exact Hl].
  - destruct (@transformed_stream win32 chunks None rest H0) as [_ H].
    unfold fixLineFeeds in H. cbn [heldBytes app] in H.
    rewrite H. eexists. reflexivity.
Qed.

(* ================================================================== *)
(** ** Priorities *)

(** X18. [priorityToString] has a name exactly for the priorities 2 to 7
    (VERBOSE to ASSERT), gives different names to different priorities, and
    [undefined] for any other number; the priority of an entry, a byte or
    [undefined], has a name exactly when it is one of the bytes 2 to 7. *)
Theorem priorityToString_names :
  (forall p, priorityToString p <> None <-> (2 <= p <= 7)%Z) /\
  (forall p q, priorityToString p <> None ->
               priorityToString p = priorityToString q -> p = q) /\
  (forall e, priorityName e <> None <->
             exists b, priority e = Some b /\ (2 <= Buf.toZ b <= 7)%Z).
Proof.
  assert (H1 : forall p, priorityToString p <> None <-> (2 <= p <= 7)%Z).
  { intro p. unfold priorityToString, priorityNameMap, mapGet.
    destruct (p =? 7)%Z eqn:E7; [apply Z.eqb_eq in E7; split; [lia|discriminate]|].
    destruct (p =? 3)%Z eqn:E3; [apply Z.eqb_eq in E3; split; [lia|discriminate]|].
    destruct (p =? 6)%Z eqn:E6; [apply Z.eqb_eq in E6; split; [lia|discriminate]|].
    destruct (p =? 4)%Z eqn:E4; [apply Z.eqb_eq in E4; split; [lia|discriminate]|].
    destruct (p =? 2)%Z eqn:E2; [apply Z.eqb_eq in E2; split; [lia|discriminate]|].
    destruct (p =? 5)%Z eqn:E5; [apply Z.eqb_eq in E5; split; [lia|discriminate]|].
    apply Z.eqb_neq in E7, E3, E6, E4, E2, E5. split; [congruence|lia]. }
  split; [exact H1|]. split.
  - intros p q Hp Heq.
    assert (Hq : priorityToString q <> None) by (rewrite <- Heq; exact Hp).
    apply H1 in Hp. apply H1 in Hq.
    assert (Cp : (p = 2 \/ p = 3 \/ p = 4 \/ p = 5 \/ p = 6 \/ p = 7)%Z) by lia.
    assert (Cq : (q = 2 \/ q = 3 \/ q = 4 \/ q = 5 \/ q = 6 \/ q = 7)%Z) by lia.
    destruct Cp as [->|[->|[->|[->|[->| ->]]]]];
      destruct Cq as [->|[->|[->|[->|[->| ->]]]]];
      try reflexivity; discriminate Heq.
  - intro e. unfold priorityName. destruct (priority e) as [b|].
    + rewrite H1. split.
      * intro H. now exists b.
      * intros [b' [Hb H]]. injection Hb as <-. exact H.
    + split; [congruence|]. intros [b [Hb _]]. discriminate.
Qed.
(* ================================================================== *)
(** ** From the input to the entries *)

(** X19. End to end, as a parser is constructed by default
    ([fixLineFeeds] on): entries that a frame can carry (tag and message of
    bytes below 0x80), laid out as frames in whose bytes [replacedLineFeed]
    does not occur, and delivered in any chunks, pass the
    [LineFeedTransform] and are decoded back exactly, in order, with a clean
    ending. *)
Theorem attachStream_round_trip noError tryRecover win32 entries chunks sched fuel :
  Forall encodable entries ->
  indexOf (replacedLineFeed win32) (framesBytes (map frameOf entries)) 0 = None ->
  concat chunks = framesBytes (map frameOf entries) ->
  length (framesBytes (map frameOf entries)) < fuel ->
  let o := iterate noError tryRecover fuel sched (received true win32 chunks) in
  fst o = entries /\ ending (snd o) = Clean.
Proof.
  intros He Hno Hc Hfuel o.
  destruct (frames_of_entries He) as [Hwf Hmap].
  assert (Hc' : concat (received true win32 chunks) =
                framesBytes (map frameOf entries)).
  { unfold received. fold (corrected win32 chunks).
    rewrite corrected_stream, Hc. now apply fixLineFeeds_plain. }
  destruct (@iterate_frames noError tryRecover (map frameOf entries)
              (received true win32 chunks) sched fuel Hwf Hc' Hfuel)
    as [H1 H2].
  subst o. split; [|exact H2]. now rewrite H1.
Qed.

Lemma attachStream_round_trip_witness :
  let o := iterate false false 100 [2; 0; 1]
             (received true true
                (cutAt [31; 10] (framesBytes (map frameOf [entryExample; entryExample])))) in
  fst o = [entryExample; entryExample] /\ ending (snd o) = Clean.
Proof.
  assert (He : encodable entryExample).
  { unfold encodable, sound, int32. simpl.
    repeat split; try lia; try discriminate.
    intros [H|[H|[H|[]]]]; discriminate. }
  apply (@attachStream_round_trip false false true [entryExample; entryExample]
           (cutAt [31; 10] (framesBytes (map frameOf [entryExample; entryExample])))
           [2; 0; 1] 100).
  - constructor; [exact He|constructor; [exact He|constructor]].
  - reflexivity.
  - reflexivity.
  - vm_compute. lia.
Defined.
